(** * Cognitive Layer content script: segmentation and throttled enrichment

    A shallow embedding of the content script of the screen-reader
    enhancement extension (the later revision of [content.js], which
    carries [getSectionContent] and the section-summary variant of
    [generateCues]) and the properties its specification states about it.
    The cues of the first revision of [content.js] and the part of
    [popup.js] that starts a pipeline in the active tab are embedded as
    well.

    Conventions.
    - A JavaScript string is a [string]; one character stands for one
      UTF-16 code unit, so [String.length] is JavaScript's [.length].
    - Element objects are referred to by handle (a [nat]).  The document
      tree gives the shape of the page; the attribute lists, which the
      script mutates through references it keeps, live in a table keyed
      by handle.
    - [innerText] is computed by the browser's layout engine; it is an
      interface of the development ([Rendering]), as are the two
      generation capabilities ([Backends]).
    - The script is asynchronous: every [await] hands control to the
      timer queue.  The embedding threads an explicit state (page, clock,
      timer queue, effect log) through a small state-and-exception
      monad. *)

From Stdlib Require Import Ascii String DecimalString.
From stdpp Require Import gmap strings list fin_maps.

(** ** JavaScript strings *)

Module JsString.

(** [a || b] on strings: the empty string is falsy. *)
Definition orElse (a b : string) : string :=
  match a with
  | EmptyString => b
  | _ => a
  end.

Definition isEmpty (s : string) : bool :=
  match s with
  | EmptyString => true
  | _ => false
  end.

(** White space and line terminators removed by [String.prototype.trim]
    (those below U+0100). *)
Definition isWhiteSpace (c : ascii) : bool :=
  match nat_of_ascii c with
  | 9 | 10 | 11 | 12 | 13 | 32 | 160 => true
  | _ => false
  end.

Fixpoint trimStart (s : string) : string :=
  match s with
  | EmptyString => EmptyString
  | String c r => if isWhiteSpace c then trimStart r else s
  end.

Fixpoint trimEnd (s : string) : string :=
  match s with
  | EmptyString => EmptyString
  | String c r =>
      match trimEnd r with
      | EmptyString => if isWhiteSpace c then EmptyString else String c EmptyString
      | r' => String c r'
      end
  end.

Definition trim (s : string) : string := trimEnd (trimStart s).

(** A string is blank when it is made of white space only. *)
Fixpoint blank (s : string) : bool :=
  match s with
  | EmptyString => true
  | String c r => isWhiteSpace c && blank r
  end.

Definition lowerChar (c : ascii) : ascii :=
  let n := nat_of_ascii c in
  if (65 <=? n) && (n <=? 90) then ascii_of_nat (n + 32) else c.

Fixpoint toLowerCase (s : string) : string :=
  match s with
  | EmptyString => EmptyString
  | String c r => String (lowerChar c) (toLowerCase r)
  end.

(** [s.substring(0, n)] *)
Definition prefix (n : nat) (s : string) : string := String.substring 0 n s.

(** [s.split(sep)] for a one-character separator: never the empty list. *)
Fixpoint split (sep : ascii) (s : string) : list string :=
  match s with
  | EmptyString => [EmptyString]
  | String c r =>
      if Ascii.eqb c sep then EmptyString :: split sep r
      else match split sep r with
           | [] => [String c EmptyString]
           | w :: ws => String c w :: ws
           end
  end.

(** [s.split(sep)[0]] *)
Definition firstPiece (sep : ascii) (s : string) : string :=
  match split sep s with
  | [] => EmptyString
  | w :: _ => w
  end.

(** [s.replace(/[...]$/, "")]: drop the last character when it is in the
    class. *)
Fixpoint dropLastIf (p : ascii → bool) (s : string) : string :=
  match s with
  | EmptyString => EmptyString
  | String c EmptyString => if p c then EmptyString else s
  | String c r => String c (dropLastIf p r)
  end.

(** [s.replace(/^[...]/, "")] *)
Definition dropFirstIf (p : ascii → bool) (s : string) : string :=
  match s with
  | EmptyString => EmptyString
  | String c r => if p c then r else s
  end.

(** [needle] occurs in [s] ([s.includes(needle)]). *)
Fixpoint includes (needle s : string) : bool :=
  String.prefix needle s ||
  match s with
  | EmptyString => false
  | String _ r => includes needle r
  end.

(** Template-literal rendering of a number. *)
Definition ofNat (n : nat) : string := NilZero.string_of_uint (Nat.to_uint n).

(** [parseInt] of a string made of one character. *)
Definition parseDigit (c : ascii) : option nat :=
  let n := nat_of_ascii c in
  if (48 <=? n) && (n <=? 57) then Some (n - 48) else None.

(** [s[i]] *)
Definition charAt (i : nat) (s : string) : option ascii := String.get i s.

End JsString.

Import JsString.

(** ** Cleaning a generated label ([fixContextLabels], "Clean response") *)

Definition isQuote (c : ascii) : bool :=
  Ascii.eqb c (ascii_of_nat 34) || Ascii.eqb c "'"%char.

Definition isEndPunctuation (c : ascii) : bool :=
  Ascii.eqb c "."%char || Ascii.eqb c "!"%char || Ascii.eqb c "?"%char.

Definition newline : ascii := ascii_of_nat 10.

(** [label.replace(/^["']|["']$/g, "")]: the global scan removes a leading
    quote, then a trailing quote of what is left. *)
Definition stripQuotes (s : string) : string :=
  dropLastIf isQuote (dropFirstIf isQuote s).

Definition cleanLabel (response : string) : string :=
  let label := firstPiece newline (trim response) in
  let label := stripQuotes label in
  let label := dropLastIf isEndPunctuation label in
  prefix 60 label.

Definition wordCount (label : string) : nat := length (split " "%char label).

(** [label && label.split(" ").length <= 8] *)
Definition acceptLabel (label : string) : bool :=
  negb (isEmpty label) && (wordCount label <=? 8).

(** ** The document

    [Node] is the shape of the page: text nodes and elements with their
    handle, tag name (upper case, as [tagName] reports it for HTML) and
    children in document order. *)

#[local] Set Warnings "-register-all".

Inductive Node :=
| Text (data : string)
| Element (handle : nat) (tagName : string) (childNodes : list Node).

Abbreviation Attributes := (list (string * string)).

Record Document := {
  documentElement : Node;
  body : nat;
  attributeTable : gmap nat Attributes
}.

Definition withTree (t : Node) (d : Document) : Document :=
  {| documentElement := t; body := body d; attributeTable := attributeTable d |}.

Definition withAttributes (a : gmap nat Attributes) (d : Document) : Document :=
  {| documentElement := documentElement d; body := body d; attributeTable := a |}.

(** *** Attributes *)

Definition attributesOf (d : Document) (el : nat) : Attributes :=
  default [] (attributeTable d !! el).

Fixpoint lookupAttr (name : string) (l : Attributes) : option string :=
  match l with
  | [] => None
  | (k, v) :: r => if String.eqb k name then Some v else lookupAttr name r
  end.

Fixpoint putAttr (name value : string) (l : Attributes) : Attributes :=
  match l with
  | [] => [(name, value)]
  | (k, v) :: r =>
      if String.eqb k name then (k, value) :: r else (k, v) :: putAttr name value r
  end.

Definition getAttribute (d : Document) (el : nat) (name : string) : option string :=
  lookupAttr name (attributesOf d el).

Definition hasAttribute (d : Document) (el : nat) (name : string) : bool :=
  bool_decide (is_Some (getAttribute d el name)).

Definition setAttribute (el : nat) (name value : string) (d : Document) : Document :=
  withAttributes (<[el := putAttr name value (attributesOf d el)]> (attributeTable d)) d.

(** *** Walking the tree *)

Definition handleOf (n : Node) : option nat :=
  match n with
  | Text _ => None
  | Element h _ _ => Some h
  end.

Definition tagOf (n : Node) : string :=
  match n with
  | Text _ => EmptyString
  | Element _ t _ => t
  end.

Definition isElement (n : Node) : bool :=
  match n with
  | Text _ => false
  | Element _ _ _ => true
  end.

(** The element descendants of a node, itself included, in document
    order. *)
Fixpoint elementsOf (n : Node) : list Node :=
  match n with
  | Text _ => []
  | Element _ _ cs => n :: flat_map elementsOf cs
  end.

Definition descendantsOf (n : Node) : list Node :=
  match n with
  | Text _ => []
  | Element _ _ cs => flat_map elementsOf cs
  end.

(** [textContent]: the concatenation of the text-node descendants. *)
Fixpoint textContentOf (n : Node) : string :=
  match n with
  | Text s => s
  | Element _ _ cs => fold_right (λ c acc, textContentOf c +:+ acc) EmptyString cs
  end.

Definition hasHandle (h : nat) (n : Node) : bool :=
  match n with
  | Text _ => false
  | Element i _ _ => i =? h
  end.

Definition findNode (d : Document) (h : nat) : option Node :=
  List.find (hasHandle h) (elementsOf (documentElement d)).

Definition textContent (d : Document) (h : nat) : string :=
  match findNode d h with
  | Some n => textContentOf n
  | None => EmptyString
  end.

(** An element together with the sibling nodes that follow it. *)
Record Frame := { self : Node; after : list Node }.

(** The chain from an element up to the root: the element first, then
    its parent, and so on, each with its following siblings. *)
Fixpoint pathTo (target : nat) (n : Node) (following : list Node) : option (list Frame) :=
  match n with
  | Text _ => None
  | Element i _ cs =>
      if i =? target then Some [{| self := n; after := following |}]
      else
        match
          (fix among (cs : list Node) : option (list Frame) :=
             match cs with
             | [] => None
             | c :: rest =>
                 match pathTo target c rest with
                 | Some p => Some p
                 | None => among rest
                 end
             end) cs
        with
        | Some p => Some (p ++ [{| self := n; after := following |}])
        | None => None
        end
  end.

Definition ancestry (d : Document) (el : nat) : list Frame :=
  default [] (pathTo el (documentElement d) []).

(** *** Selectors *)

Definition tagIn (tags : list string) (n : Node) : bool :=
  existsb (String.eqb (tagOf n)) tags.

Definition headingTags : list string := ["H1"; "H2"; "H3"; "H4"; "H5"; "H6"].

(** Both [/^H[1-6]$/] on [tagName] and the selector
    ["h1, h2, h3, h4, h5, h6"]. *)
Definition isHeading (n : Node) : bool := tagIn headingTags n.

(** [document.querySelectorAll(tags)]: the handles of the matching
    elements, in document order.  The list is a snapshot, as the static
    [NodeList] is. *)
Definition querySelectorAll (d : Document) (tags : list string) : list nat :=
  omap handleOf (filter (λ n, tagIn tags n = true) (elementsOf (documentElement d))).

(** [document.querySelector(tags)] *)
Definition querySelector (d : Document) (tags : list string) : option Node :=
  List.find (tagIn tags) (elementsOf (documentElement d)).

(** [el.querySelector(tags)]: descendants only. *)
Definition querySelectorIn (n : Node) (tags : list string) : option Node :=
  List.find (tagIn tags) (descendantsOf n).

(** [document.getElementById(id)] *)
Definition getElementById (d : Document) (id : string) : option Node :=
  List.find
    (λ n, match handleOf n with
          | Some h => bool_decide (getAttribute d h "id" = Some id)
          | None => false
          end)
    (elementsOf (documentElement d)).

(** *** Mutating the tree *)

Fixpoint rewriteChildren (f : nat → list Node → list Node) (n : Node) : Node :=
  match n with
  | Text s => Text s
  | Element i t cs => Element i t (f i (map (rewriteChildren f) cs))
  end.

(** [parent.appendChild(new)] *)
Definition appendChild (parent : nat) (new : Node) (d : Document) : Document :=
  withTree
    (rewriteChildren (λ i cs, if i =? parent then cs ++ [new] else cs) (documentElement d)) d.

(** [parent.insertBefore(new, parent.firstChild)] *)
Definition prependChild (parent : nat) (new : Node) (d : Document) : Document :=
  withTree
    (rewriteChildren (λ i cs, if i =? parent then new :: cs else cs) (documentElement d)) d.

(** [ref.insertAdjacentElement('afterend', new)] *)
Definition insertAfter (ref : nat) (new : Node) (d : Document) : Document :=
  withTree
    (rewriteChildren
       (λ _ cs, flat_map (λ c, if hasHandle ref c then [c; new] else [c]) cs)
       (documentElement d)) d.

(** [el.innerText = text]: the children are replaced by one text node,
    or by nothing when [text] is empty. *)
Definition setInnerText (el : nat) (text : string) (d : Document) : Document :=
  withTree
    (rewriteChildren
       (λ i cs, if i =? el then (if isEmpty text then [] else [Text text]) else cs)
       (documentElement d)) d.

(** A handle no element object uses yet. *)
Definition freshHandle (d : Document) : nat :=
  fresh (dom (attributeTable d) ∪ list_to_set (omap handleOf (elementsOf (documentElement d)))).

(** [document.createElement(tag)]: the new object gets an (empty) entry
    in the attribute table. *)
Definition createElement (d : Document) : nat * Document :=
  let h := freshHandle d in
  (h, withAttributes (<[h := []]> (attributeTable d)) d).

(** ** What the browser provides *)

(** [el.innerText]: the rendered text of an element, as the layout
    engine computes it from the page. *)
Class Rendering := { innerText : Document → nat → string }.

Section Extraction.
Context `{Rendering}.

Definition innerTextOf (d : Document) (n : Node) : string :=
  match handleOf n with
  | Some h => innerText d h
  | None => EmptyString
  end.

(** [el.innerText || el.textContent || ""] *)
Definition textOf (d : Document) (n : Node) : string :=
  orElse (innerTextOf d n) (orElse (textContentOf n) EmptyString).

(** ** ContentExtractor *)

Definition removedFromClone : list string := ["SCRIPT"; "STYLE"; "NOSCRIPT"].

(** [clone.querySelectorAll("script, style, noscript").forEach(el => el.remove())] *)
Definition pruneClone (n : Node) : Node :=
  rewriteChildren (λ _ cs, filter (λ c, tagIn removedFromClone c = false) cs) n.

(** The clone is a detached copy: the layout engine sees the pruned
    subtree alone. *)
Definition extractMainContent (d : Document) : string :=
  let main := querySelector d ["MAIN"] in
  let article := querySelector d ["ARTICLE"] in
  let contentArea :=
    match main, article with
    | Some m, _ => Some m
    | None, Some a => Some a
    | None, None => findNode d (body d)
    end in
  match contentArea with
  | Some area =>
      let clone := pruneClone area in
      let text := orElse (innerTextOf (withTree clone d) clone) EmptyString in
      trim (prefix 5000 text)
  | None => EmptyString
  end.

(** ** SegmentationEngine *)

(** [parseInt(el.tagName[1])]; [None] is [NaN]. *)
Definition levelOf (n : Node) : option nat :=
  match charAt 1 (tagOf n) with
  | Some c => parseDigit c
  | None => None
  end.

(** [a <= b] on numbers that may be [NaN]. *)
Definition levelLe (a b : option nat) : bool :=
  match a, b with
  | Some x, Some y => x <=? y
  | _, _ => false
  end.

Definition skippedTags : list string := ["SCRIPT"; "STYLE"; "NAV"; "ASIDE"].

(** The first loop of [getSectionContent]: the following siblings of the
    heading. *)
Fixpoint walkSiblings (d : Document) (headingLevel : option nat)
    (siblings : list Node) (content : string) : string :=
  match siblings with
  | [] => content
  | currentElement :: rest =>
      if negb (isEmpty (tagOf currentElement)) && isHeading currentElement
         && levelLe (levelOf currentElement) headingLevel
      then content
      else
        let content :=
          if negb (isEmpty (tagOf currentElement)) && negb (tagIn skippedTags currentElement)
          then
            let text := textOf d currentElement in
            if isEmpty (trim text) then content else content +:+ text +:+ " "
          else content in
        if 3000 <? String.length content then prefix 3000 content
        else walkSiblings d headingLevel rest content
  end.

(** The second loop: the following siblings of the heading's parent. *)
Fixpoint walkParentSiblings (d : Document) (headingLevel : option nat)
    (siblings : list Node) (content : string) : string :=
  match siblings with
  | [] => content
  | nextSibling :: rest =>
      if negb (String.length content <? 3000) then content
      else
        let stop :=
          match querySelectorIn nextSibling headingTags with
          | Some nextHeading => levelLe (levelOf nextHeading) headingLevel
          | None => false
          end in
        if stop then content
        else
          let text := textOf d nextSibling in
          let content :=
            if negb (isEmpty (trim text)) && negb (tagIn skippedTags nextSibling)
            then content +:+ text +:+ " "
            else content in
          walkParentSiblings d headingLevel rest content
  end.

(** [getSectionContent] once the heading's place in the tree is known:
    the heading, its following element siblings, and its parent element
    with the parent's following element siblings.  [gathered] is
    [content] after the two loops. *)
Definition gathered (d : Document) (heading : Node) (siblings : list Node)
    (parent : option (Node * list Node)) : string :=
  let headingLevel := levelOf heading in
  let content := walkSiblings d headingLevel siblings EmptyString in
  if String.length content <? 50 then
    match parent with
    | Some (_, parentSiblings) => walkParentSiblings d headingLevel parentSiblings content
    | None => content
    end
  else content.

Definition sectionContentAt (d : Document) (heading : Node) (siblings : list Node)
    (parent : option (Node * list Node)) : string :=
  let content := gathered d heading siblings parent in
  let content :=
    match parent with
    | Some (p, _) =>
        if String.length content <? 50
        then prefix 3000 (orElse (innerTextOf d p) EmptyString)
        else content
    | None => content
    end in
  trim content.

Definition elementsAmong (l : list Node) : list Node :=
  filter (λ n, isElement n = true) l.

Definition getSectionContent (d : Document) (heading : nat) : string :=
  match ancestry d heading with
  | [] => EmptyString
  | f :: up =>
      sectionContentAt d (self f) (elementsAmong (after f))
        match up with
        | p :: _ => Some (self p, elementsAmong (after p))
        | [] => None
        end
  end.

(** [getElementContext]: the loop over at most five ancestors. *)
Fixpoint nearestHeadingText (d : Document) (ancestors : list Node) (depth : nat) : string :=
  match ancestors, depth with
  | parent :: rest, S depth' =>
      match querySelectorIn parent headingTags with
      | Some heading =>
          let context := innerTextOf d heading in
          if isEmpty context then nearestHeadingText d rest depth' else context
      | None => nearestHeadingText d rest depth'
      end
  | _, _ => EmptyString
  end.

Definition getElementContext (d : Document) (element : nat) : string :=
  let ancestors := map self (tail (ancestry d element)) in
  let context := nearestHeadingText d ancestors 5 in
  let nearbyText :=
    match ancestors with
    | parent :: _ => orElse (innerTextOf d parent) EmptyString
    | [] => EmptyString
    end in
  trim (context +:+ " " +:+ prefix 200 nearbyText).

(** ** ElementSelector *)

Definition ambiguousTerms : list string :=
  ["click here"; "here"; "learn more"; "read more";
   "more"; "continue"; "next"; "go"; "view"; "see"].

(** [(el.innerText || el.textContent || "").trim().toLowerCase()] *)
Definition controlText (d : Document) (el : nat) : string :=
  toLowerCase (trim (orElse (innerText d el) (orElse (textContent d el) EmptyString))).

(** [el.hasAttribute("aria-label") && el.getAttribute("aria-label").trim()] *)
Definition hasLabel (d : Document) (el : nat) : bool :=
  hasAttribute d el "aria-label" &&
  match getAttribute d el "aria-label" with
  | Some v => negb (isEmpty (trim v))
  | None => false
  end.

Definition needsFixing (d : Document) (el : nat) : bool :=
  negb (hasLabel d el) &&
  (existsb (String.eqb (controlText d el)) ambiguousTerms
   || (String.length (controlText d el) <? 3)
   || isEmpty (controlText d el)).

Definition linksAndButtons (d : Document) : list nat := querySelectorAll d ["A"; "BUTTON"].

(** The loop that fills [elementsToFix]. *)
Definition elementsToFix (d : Document) : list nat :=
  filter (λ el, needsFixing d el = true) (linksAndButtons d).

End Extraction.

(** ** The generation capabilities

    [window.Summarizer] and [window.LanguageModel] are external.  A
    capability answers each call with the time the call takes and its
    outcome; the answer may depend on how many calls were made before
    (the argument [nat]), so a capability need not be deterministic. *)

Inductive Outcome (A : Type) :=
| Resolved (a : A)
| Rejected (message : string).
Arguments Resolved {A} a.
Arguments Rejected {A} message.

Record Capability := {
  present : bool;
  availability : nat → nat * Outcome string;
  (** [create]: the [downloadprogress] events fired while the call is
      pending (delay since the previous one, percentage), then the time
      left and the outcome. *)
  create : nat → list (nat * nat) * (nat * Outcome unit);
  (** [summarize] / [prompt] *)
  run : nat → string → nat * Outcome string
}.

Inductive Api := SummarizerApi | LanguageModelApi.

Class Backends := { Summarizer : Capability; LanguageModel : Capability }.

Definition capability `{Backends} (api : Api) : Capability :=
  match api with
  | SummarizerApi => Summarizer
  | LanguageModelApi => LanguageModel
  end.

(** ** State of the page and of the event loop *)

Inductive Event :=
| Announced (text : string)
| RegionWritten (region : nat) (text : string)
| AvailabilityCalled (api : Api)
| CreateCalled (api : Api)
| SessionCreated (session : nat)
| GenerationCalled (session : nat) (input : string)
| SessionDestroyed (session : nat)
| AttributeSet (el : nat) (name value : string)
| NoteInserted (heading : nat) (note : nat)
| OverviewInserted (box : nat).

Inductive Callback :=
| SetRegionText (region : nat) (text : string)
| DeferredAnnounce (text : string).

Record Timer := { due : nat; seq : nat; callback : Callback }.

Record State := {
  page : Document;
  now : nat;
  timers : list Timer;
  timerSeq : nat;
  log : list (nat * Event);
  calls : nat;
  sessions : nat
}.

Definition withPage (d : Document) (s : State) : State :=
  {| page := d; now := now s; timers := timers s; timerSeq := timerSeq s;
     log := log s; calls := calls s; sessions := sessions s |}.

Definition withNow (t : nat) (s : State) : State :=
  {| page := page s; now := t; timers := timers s; timerSeq := timerSeq s;
     log := log s; calls := calls s; sessions := sessions s |}.

Definition withTimers (q : list Timer) (n : nat) (s : State) : State :=
  {| page := page s; now := now s; timers := q; timerSeq := n;
     log := log s; calls := calls s; sessions := sessions s |}.

Definition withCalls (n : nat) (s : State) : State :=
  {| page := page s; now := now s; timers := timers s; timerSeq := timerSeq s;
     log := log s; calls := n; sessions := sessions s |}.

Definition withSessions (n : nat) (s : State) : State :=
  {| page := page s; now := now s; timers := timers s; timerSeq := timerSeq s;
     log := log s; calls := calls s; sessions := n |}.

(** The effect log, oldest entry first, each entry with the clock. *)
Definition record (e : Event) (s : State) : State :=
  {| page := page s; now := now s; timers := timers s; timerSeq := timerSeq s;
     log := log s ++ [(now s, e)]; calls := calls s; sessions := sessions s |}.

(** *** Timers *)

(** Timers fire by due time, and in the order they were set when due at
    the same time. *)
Fixpoint enqueue (t : Timer) (q : list Timer) : list Timer :=
  match q with
  | [] => [t]
  | x :: r => if due x <=? due t then x :: enqueue t r else t :: q
  end.

Definition setTimeout (cb : Callback) (delay : nat) (s : State) : State :=
  withTimers
    (enqueue {| due := now s + delay; seq := timerSeq s; callback := cb |} (timers s))
    (S (timerSeq s)) s.

(** *** AnnouncementChannel *)

Definition announcerId : string := "cognitive-layer-announcer".

Definition announcerStyle : string :=
  "position: fixed; top: 0px; left: -10000px; width: 1px; height: 1px; overflow: hidden; clip: rect(0px, 0px, 0px, 0px); white-space: nowrap;".

Definition setAttributeS (el : nat) (name value : string) (s : State) : State :=
  record (AttributeSet el name value) (withPage (setAttribute el name value (page s)) s).

Definition createPersistentLiveRegion (s : State) : nat * State :=
  match getElementById (page s) announcerId with
  | Some (Element region _ _) => (region, s)
  | _ =>
      let '(region, d) := createElement (page s) in
      let s := withPage (setAttribute region "id" announcerId d) s in
      let s := setAttributeS region "role" "status" s in
      let s := setAttributeS region "aria-live" "assertive" s in
      let s := setAttributeS region "aria-atomic" "true" s in
      let d := setAttribute region "style" announcerStyle (page s) in
      let d := appendChild (body d) (Element region "DIV" []) d in
      (region, withPage d s)
  end.

(** [region.innerText = text] *)
Definition writeRegion (region : nat) (text : string) (s : State) : State :=
  record (RegionWritten region text) (withPage (setInnerText region text (page s)) s).

Definition announce (text : string) (s : State) : State :=
  let s := record (Announced text) s in
  let '(region, s) := createPersistentLiveRegion s in
  let s := writeRegion region EmptyString s in
  let s := setTimeout (SetRegionText region text) 100 s in
  setTimeout (SetRegionText region EmptyString) (10 * 1000) s.

(** *** The event loop *)

Definition fire (cb : Callback) (s : State) : State :=
  match cb with
  | SetRegionText region text => writeRegion region text s
  | DeferredAnnounce text => announce text s
  end.

(** A deferred announcement sets two timers when it fires; this weight
    bounds the number of callbacks a queue can still run. *)
Definition weight (t : Timer) : nat :=
  match callback t with
  | SetRegionText _ _ => 1
  | DeferredAnnounce _ => 3
  end.

Definition pending (q : list Timer) : nat := foldr (λ t n, weight t + n) 0 q.

(** Run the timers at the head of the queue for as long as they are
    [ready]. *)
Fixpoint eventLoop (fuel : nat) (ready : Timer → bool) (s : State) : State :=
  match fuel with
  | 0 => s
  | S fuel' =>
      match timers s with
      | [] => s
      | t :: rest =>
          if ready t then
            eventLoop fuel' ready
              (fire (callback t) (withNow (now s `max` due t) (withTimers rest (timerSeq s) s)))
          else s
      end
  end.

(** A task suspended until [target] resumes after the timers due before
    [target], and after those due at [target] that were set before it
    suspended. *)
Definition dueBefore (target seq0 : nat) (t : Timer) : bool :=
  (due t <? target) || ((due t =? target) && (seq t <? seq0)).

Definition suspend (ms : nat) (s : State) : State :=
  let target := now s + ms in
  let s' := eventLoop (pending (timers s)) (dueBefore target (timerSeq s)) s in
  withNow (now s' `max` target) s'.

(** The page left alone until no timer is pending. *)
Definition settle (s : State) : State :=
  eventLoop (pending (timers s)) (λ _, true) s.

(** ** Tasks: state and exceptions *)

Inductive Completion (A : Type) :=
| Normal (a : A)
| Throw (message : string).
Arguments Normal {A} a.
Arguments Throw {A} message.

Definition Task (A : Type) : Type := State → Completion A * State.

#[global] Instance Task_ret : MRet Task := λ A a s, (Normal a, s).

#[global] Instance Task_bind : MBind Task := λ A B k m s,
  match m s with
  | (Normal a, s') => k a s'
  | (Throw e, s') => (Throw e, s')
  end.

Definition throw {A} (message : string) : Task A := λ s, (Throw message, s).

Definition tryCatch {A} (body : Task A) (handler : string → Task A) : Task A := λ s,
  match body s with
  | (Normal a, s') => (Normal a, s')
  | (Throw e, s') => handler e s'
  end.

Definition tryFinally {A} (body : Task A) (finalizer : State → State) : Task A := λ s,
  match body s with
  | (c, s') => (c, finalizer s')
  end.

Definition gets {A} (f : State → A) : Task A := λ s, (Normal (f s), s).

Definition modify (f : State → State) : Task unit := λ s, (Normal tt, f s).

Definition when (b : bool) (t : Task unit) : Task unit := if b then t else mret tt.

(** [await new Promise(resolve => setTimeout(resolve, ms))] *)
Definition sleep (ms : nat) : Task unit := modify (suspend ms).

Section Pipeline.
Context `{Rendering} `{Backends}.

(** *** Calls of the capability interface *)

Definition settled {A} (o : Outcome A) : Task A :=
  match o with
  | Resolved a => mret a
  | Rejected m => throw m
  end.

(** [await Api.availability()] *)
Definition queryAvailability (api : Api) : Task string :=
  n ← gets calls;
  modify (λ s, withCalls (S n) (record (AvailabilityCalled api) s));;
  let '(elapsed, outcome) := availability (capability api) n in
  sleep elapsed;;
  settled outcome.

(** The [downloadprogress] listener given to [create]. *)
Fixpoint downloadProgress (monitor : nat → State → State) (events : list (nat * nat)) : Task unit :=
  match events with
  | [] => mret tt
  | (delay, percent) :: rest =>
      sleep delay;;
      modify (monitor percent);;
      downloadProgress monitor rest
  end.

(** [await Api.create({..., monitor})] *)
Definition createSession (api : Api) (monitor : nat → State → State) : Task nat :=
  n ← gets calls;
  modify (λ s, withCalls (S n) (record (CreateCalled api) s));;
  let '(progress, (elapsed, outcome)) := create (capability api) n in
  downloadProgress monitor progress;;
  sleep elapsed;;
  settled outcome;;
  session ← gets sessions;
  modify (λ s, withSessions (S session) (record (SessionCreated session) s));;
  mret session.

(** [await session.summarize(input)] / [await session.prompt(input)] *)
Definition generate (api : Api) (session : nat) (input : string) : Task string :=
  n ← gets calls;
  modify (λ s, withCalls (S n) (record (GenerationCalled session input) s));;
  let '(elapsed, outcome) := run (capability api) n input in
  sleep elapsed;;
  settled outcome.

(** [session.destroy()] *)
Definition destroy (session : nat) (s : State) : State :=
  record (SessionDestroyed session) s.

(** The listener that only logs to the console. *)
Definition logProgress (percent : nat) (s : State) : State := s.

(** *** AI overview *)

(** The visible summary block: [summaryBox.innerHTML = ...] builds a
    heading and a [div] holding the summary, taken here as plain text. *)
Definition insertOverview (summary : string) (s : State) : State :=
  let '(summaryBox, d) := createElement (page s) in
  let s := withPage d s in
  let s := setAttributeS summaryBox "role" "status" s in
  let s := setAttributeS summaryBox "aria-live" "polite" s in
  let '(title, d) := createElement (page s) in
  let '(content, d) := createElement d in
  let box :=
    Element summaryBox "DIV"
      [Element title "H1" [Text "🧠 Page Summary"]; Element content "DIV" [Text summary]] in
  record (OverviewInserted summaryBox) (withPage (prependChild (body d) box d) s).

Definition overviewProgress (percent : nat) (s : State) : State :=
  if percent `mod` 25 =? 0
  then announce ("Model downloading: " +:+ ofNat percent +:+ " percent complete.") s
  else s.

Definition generateOverview : Task unit :=
  modify (announce "Starting AI overview generation. Please wait.");;
  tryCatch
    (when (negb (present Summarizer))
       (throw "Summarizer API not found. Need Chrome 138+ with flags enabled.");;
     availability ← queryAvailability SummarizerApi;
     when (String.eqb availability "no")
       (throw "Summarizer API is unavailable. Download model at chrome://components");;
     when (String.eqb availability "after-download")
       (modify (announce "AI model needs to be downloaded. Starting download. This may take a few minutes."));;
     text ← gets (λ s, extractMainContent (page s));
     if isEmpty text || (String.length text <? 50) then
       modify (announce "Page content is too short to summarize.")
     else
       modify (announce "Generating summary. This may take a moment.");;
       summarizer ← createSession SummarizerApi overviewProgress;
       summary ← generate SummarizerApi summarizer text;
       modify (destroy summarizer);;
       if negb (isEmpty summary) && negb (isEmpty (trim summary)) then
         modify (insertOverview summary);;
         modify (setTimeout (DeferredAnnounce ("AI Overview complete. " +:+ summary)) 500)
       else
         throw "Summary generation returned empty result")
    (λ message,
       let errorMsg := orElse message "Unknown error" in
       modify (setTimeout (DeferredAnnounce ("AI Overview failed. Error: " +:+ errorMsg)) 500)).

(** *** Section summaries *)

Definition summaryMarker : string := "data-cognitive-summary".

(** The note inserted after a heading: [summaryBox.innerHTML =
    `<em>📝 ${summary}</em>`], the summary taken as plain text. *)
Definition insertNote (heading : nat) (summary : string) (s : State) : State :=
  let '(summaryBox, d) := createElement (page s) in
  let d := setAttribute summaryBox "class" "cognitive-section-summary" d in
  let s := setAttributeS summaryBox "role" "note" (withPage d s) in
  let '(em, d) := createElement (page s) in
  let box := Element summaryBox "DIV" [Element em "EM" [Text ("📝 " +:+ summary)]] in
  record (NoteInserted heading summaryBox) (withPage (insertAfter heading box d) s).

(** One turn of the loop over the headings; the value is [successCount]. *)
Definition summarizeHeading (total index heading successCount : nat) : Task nat :=
  sleep 1000;;
  tryCatch
    (headingText ← gets (λ s, trim (innerText (page s) heading));
     if isEmpty headingText || (200 <? String.length headingText) then mret successCount
     else
       marked ← gets (λ s, hasAttribute (page s) heading summaryMarker);
       if marked : bool then mret successCount
       else
         sectionContent ← gets (λ s, getSectionContent (page s) heading);
         if isEmpty sectionContent || (String.length sectionContent <? 30) then mret successCount
         else
           modify (announce ("Processing section " +:+ ofNat (index + 1) +:+ " of "
                             +:+ ofNat total +:+ ": " +:+ headingText));;
           summarizer ← createSession SummarizerApi logProgress;
           summary ← generate SummarizerApi summarizer sectionContent;
           modify (destroy summarizer);;
           if negb (isEmpty summary) && negb (isEmpty (trim summary)) then
             modify (setAttributeS heading summaryMarker "true");;
             modify (insertNote heading summary);;
             when ((index + 1) `mod` 5 =? 0)
               (modify (announce ("Processed " +:+ ofNat (index + 1) +:+ " of "
                                  +:+ ofNat total +:+ " sections.")));;
             mret (successCount + 1)
           else mret successCount)
    (λ _, mret successCount).

(** [for (const [index, heading] of Array.from(headings).entries())] *)
Fixpoint summarizeHeadings (total index : nat) (headings : list nat) (successCount : nat) : Task nat :=
  match headings with
  | [] => mret successCount
  | heading :: rest =>
      successCount ← summarizeHeading total index heading successCount;
      summarizeHeadings total (S index) rest successCount
  end.

Definition generateCues : Task unit :=
  modify (announce "Starting section summaries generation. Please wait.");;
  tryCatch
    (when (negb (present Summarizer))
       (throw "Summarizer API not found. Need Chrome 138+ with flags enabled.");;
     availability ← queryAvailability SummarizerApi;
     when (String.eqb availability "no")
       (throw "Summarizer API is unavailable. Download model at chrome://components");;
     when (String.eqb availability "after-download")
       (modify (announce "AI model needs to be downloaded. This may take a few minutes."));;
     headings ← gets (λ s, querySelectorAll (page s) headingTags);
     if length headings =? 0 then
       modify (announce "No section headings found on this page.")
     else
       modify (announce ("Generating summaries for " +:+ ofNat (length headings)
                         +:+ " sections. This will take a moment."));;
       successCount ← summarizeHeadings (length headings) 0 headings 0;
       modify (announce ("Section summaries complete. Generated " +:+ ofNat successCount
                         +:+ " summaries. Navigate the page to see them.")))
    (λ message,
       let errorMsg := orElse message "Unknown error" in
       modify (announce ("Section summaries failed. Error: " +:+ errorMsg))).

End Pipeline.

(** *** Label repair *)

Definition fixedMarker : string := "data-cognitive-fixed".

Definition dquote : string := String (ascii_of_nat 34) EmptyString.

Definition lineBreak : string := String newline EmptyString.

Definition labelPrompt (currentText href context : string) : string :=
  "Generate an aria-label for this element:" +:+ lineBreak
  +:+ "Text: " +:+ dquote +:+ currentText +:+ dquote +:+ lineBreak
  +:+ "URL: " +:+ dquote +:+ href +:+ dquote +:+ lineBreak
  +:+ "Context: " +:+ dquote +:+ prefix 200 context +:+ dquote +:+ lineBreak
  +:+ "Label (3-5 words):".

Section LabelRepair.
Context `{Rendering} `{Backends}.

(** One turn of the loop over [elementsToFix]; the value is
    [successCount].  [element.href] is read as the value of the
    attribute (the browser gives the resolved address); it only goes
    into the text of the prompt. *)
Definition fixLabel (session total index element successCount : nat) : Task nat :=
  sleep 600;;
  tryCatch
    (context ← gets (λ s, getElementContext (page s) element);
     currentText ← gets (λ s, orElse (innerText (page s) element)
                                (orElse (textContent (page s) element) "button"));
     href ← gets (λ s, orElse (default EmptyString (getAttribute (page s) element "href"))
                         EmptyString);
     response ← generate LanguageModelApi session (labelPrompt currentText href context);
     let label := cleanLabel response in
     if acceptLabel label then
       modify (setAttributeS element "aria-label" label);;
       modify (setAttributeS element fixedMarker "true");;
       when ((index + 1) `mod` 10 =? 0)
         (modify (announce ("Processed " +:+ ofNat (index + 1) +:+ " of "
                            +:+ ofNat total +:+ " elements.")));;
       mret (successCount + 1)
     else mret successCount)
    (λ _, mret successCount).

Fixpoint fixLabels (session total index : nat) (elements : list nat) (successCount : nat) : Task nat :=
  match elements with
  | [] => mret successCount
  | element :: rest =>
      successCount ← fixLabel session total index element successCount;
      fixLabels session total (S index) rest successCount
  end.

Definition fixContextLabels : Task unit :=
  modify (announce "Starting to fix ambiguous labels. Please wait.");;
  tryCatch
    (when (negb (present LanguageModel))
       (throw "Language Model API not found. Need Chrome 138+ with flags enabled.");;
     availability ← queryAvailability LanguageModelApi;
     when (String.eqb availability "no")
       (throw "Language Model API is unavailable. Download model at chrome://components");;
     when (String.eqb availability "after-download")
       (modify (announce "AI model needs to be downloaded. Starting download."));;
     elements ← gets (λ s, elementsToFix (page s));
     if length elements =? 0 then
       modify (announce "No ambiguous elements found. All links and buttons have clear labels.")
     else
       modify (announce ("Fixing " +:+ ofNat (length elements)
                         +:+ " ambiguous links and buttons. This may take a moment."));;
       session ← createSession LanguageModelApi logProgress;
       successCount ← tryFinally (fixLabels session (length elements) 0 elements 0)
                                 (destroy session);
       modify (announce ("Label fixing complete. Fixed " +:+ ofNat successCount
                         +:+ " ambiguous elements with descriptive labels. Navigate the page to hear improved descriptions.")))
    (λ message,
       let errorMsg := orElse message "Unknown error" in
       modify (announce ("Label fixing failed. Error: " +:+ errorMsg))).

End LabelRepair.

(** ** The first revision of the section pipeline ([content.js])

    There [generateCues] asks the language model for a one-line cue per
    heading, through one session shared by all headings. *)

Module ContentJs.
Section Cues.
Context `{Rendering} `{Backends}.

Definition cueMarker : string := "data-cognitive-cue".

Definition cleanCue (response : string) : string :=
  let cue := firstPiece newline (trim response) in
  let cue := dropLastIf isEndPunctuation cue in
  prefix 100 cue.

Definition describeHeading (session total index heading successCount : nat) : Task nat :=
  sleep 800;;
  tryCatch
    (headingText ← gets (λ s, trim (innerText (page s) heading));
     if isEmpty headingText || (200 <? String.length headingText) then mret successCount
     else
       marked ← gets (λ s, hasAttribute (page s) heading cueMarker);
       if marked : bool then mret successCount
       else
         response ← generate LanguageModelApi session
                      ("Describe what this section is about: " +:+ dquote +:+ headingText +:+ dquote);
         let cue := cleanCue response in
         if negb (isEmpty cue) then
           modify (setAttributeS heading cueMarker "true");;
           modify (setAttributeS heading "aria-description" cue);;
           when ((index + 1) `mod` 5 =? 0)
             (modify (announce ("Processed " +:+ ofNat (index + 1) +:+ " of "
                                +:+ ofNat total +:+ " sections.")));;
           mret (successCount + 1)
         else mret successCount)
    (λ _, mret successCount).

Fixpoint describeHeadings (session total index : nat) (headings : list nat) (successCount : nat) : Task nat :=
  match headings with
  | [] => mret successCount
  | heading :: rest =>
      successCount ← describeHeading session total index heading successCount;
      describeHeadings session total (S index) rest successCount
  end.

Definition generateCues : Task unit :=
  modify (announce "Starting section cues generation. Please wait.");;
  tryCatch
    (when (negb (present LanguageModel))
       (throw "Language Model API not found. Need Chrome 138+ with flags enabled.");;
     availability ← queryAvailability LanguageModelApi;
     when (String.eqb availability "no")
       (throw "Language Model API is unavailable. Download model at chrome://components");;
     when (String.eqb availability "after-download")
       (modify (announce "AI model needs to be downloaded. This may take a few minutes."));;
     headings ← gets (λ s, querySelectorAll (page s) headingTags);
     if length headings =? 0 then
       modify (announce "No section headings found on this page.")
     else
       modify (announce ("Generating contextual cues for " +:+ ofNat (length headings)
                         +:+ " sections. This will take a moment."));;
       session ← createSession LanguageModelApi logProgress;
       successCount ← tryFinally (describeHeadings session (length headings) 0 headings 0)
                                 (destroy session);
       modify (announce ("Cognitive cues complete. Generated descriptions for "
                         +:+ ofNat successCount +:+ " sections. Navigate to headings to hear them.")))
    (λ message,
       let errorMsg := orElse message "Unknown error" in
       modify (announce ("Section cues failed. Error: " +:+ errorMsg))).

End Cues.
End ContentJs.

(** ** Vocabulary of the specification *)

(** *** Sections *)

(** A following sibling ends the section of a heading of rank
    [headingLevel] when it is a heading of the same or a higher level. *)
Definition endsSection (headingLevel : option nat) (n : Node) : bool :=
  negb (isEmpty (tagOf n)) && isHeading n && levelLe (levelOf n) headingLevel.

(** The siblings before the first one that ends the section, and the
    siblings from that one on. *)
Fixpoint ownSiblings (headingLevel : option nat) (siblings : list Node) : list Node :=
  match siblings with
  | [] => []
  | n :: rest => if endsSection headingLevel n then [] else n :: ownSiblings headingLevel rest
  end.

Fixpoint beyondSection (headingLevel : option nat) (siblings : list Node) : list Node :=
  match siblings with
  | [] => []
  | n :: rest => if endsSection headingLevel n then siblings else beyondSection headingLevel rest
  end.

Section SectionText.
Context `{Rendering}.

(** What one sibling adds to [content] in the first loop. *)
Definition contribution (d : Document) (n : Node) : string :=
  if negb (isEmpty (tagOf n)) && negb (tagIn skippedTags n) then
    let text := textOf d n in
    if isEmpty (trim text) then EmptyString else text +:+ " "
  else EmptyString.

Definition sectionText (d : Document) (l : list Node) : string :=
  foldr (λ n acc, contribution d n +:+ acc) EmptyString l.

(** The following siblings that belong to the section of a heading, and
    those that belong to the sections after it. *)
Definition ownSection (d : Document) (heading : nat) : list Node :=
  match ancestry d heading with
  | f :: _ => ownSiblings (levelOf (self f)) (elementsAmong (after f))
  | [] => []
  end.

Definition followingSections (d : Document) (heading : nat) : list Node :=
  match ancestry d heading with
  | f :: _ => beyondSection (levelOf (self f)) (elementsAmong (after f))
  | [] => []
  end.

(** The property the specification states of [getSectionContent]: the
    result is not empty, has at most 3000 characters, and holds the text
    of no sibling at or after the one that ends the section. *)
Definition sectionProperty (d : Document) (heading : nat) : Prop :=
  let result := getSectionContent d heading in
  result ≠ EmptyString
  ∧ String.length result ≤ 3000
  ∧ ∀ n, n ∈ followingSections d heading →
         isEmpty (trim (textOf d n)) = false →
         includes (textOf d n) result = false.

(** *** Ambiguous controls *)

Definition hasNonEmptyLabel (d : Document) (el : nat) : Prop :=
  ∃ v, getAttribute d el "aria-label" = Some v ∧ v ≠ EmptyString.

Definition hasNonBlankLabel (d : Document) (el : nat) : Prop :=
  ∃ v, getAttribute d el "aria-label" = Some v ∧ trim v ≠ EmptyString.

Definition ambiguousText (text : string) : Prop :=
  text ∈ ambiguousTerms ∨ String.length text < 3 ∨ text = EmptyString.

(** The selection rule as the specification states it. *)
Definition selectionProperty (d : Document) (el : nat) : Prop :=
  el ∈ elementsToFix d ↔
  el ∈ linksAndButtons d ∧ ¬ hasNonEmptyLabel d el ∧ ambiguousText (controlText d el).

End SectionText.

(** *** The effects of a run *)

(** The log entries added between two states. *)
Definition added (s s' : State) : list (nat * Event) := drop (length (log s)) (log s').

Definition isErrorAnnouncement (e : Event) : bool :=
  match e with
  | Announced text => includes "failed. Error: " text
  | _ => false
  end.

(** The calls that reach the generation backend. *)
Definition isCapabilityCall (e : Event) : bool :=
  match e with
  | CreateCalled _ | GenerationCalled _ _ => true
  | _ => false
  end.

Definition isGeneration (e : Event) : bool :=
  match e with
  | GenerationCalled _ _ => true
  | _ => false
  end.

Definition countEvents (p : Event → bool) (entries : list (nat * Event)) : nat :=
  length (List.filter (λ te, p te.2) entries).

(** The clock at each generation call, in order. *)
Definition generationTimes (entries : list (nat * Event)) : list nat :=
  map fst (List.filter (λ te, isGeneration te.2) entries).

(** The inputs of the generation calls, in order. *)
Definition generationInputs (entries : list (nat * Event)) : list string :=
  omap (λ te, match te.2 with
              | GenerationCalled _ input => Some input
              | _ => None
              end) entries.

(** Consecutive times are at least [delay] apart. *)
Fixpoint spaced (delay : nat) (times : list nat) : Prop :=
  match times with
  | t1 :: rest =>
      match rest with
      | t2 :: _ => t1 + delay ≤ t2
      | [] => True
      end ∧ spaced delay rest
  | [] => True
  end.

(** Every call to the backend (creating a session, generating text)
    comes at least [delay] after every earlier generation call. *)
Definition callsPaced (delay : nat) (entries : list (nat * Event)) : Prop :=
  ∀ i j x y,
    i < j → entries !! i = Some x → entries !! j = Some y →
    isGeneration x.2 = true → isCapabilityCall y.2 = true →
    x.1 + delay ≤ y.1.

(** A run is paced when every generation call comes at least [delay]
    after the start of the run and after the previous generation call,
    and no call to the backend comes sooner than [delay] after a
    generation call. *)
Definition paced (delay start : nat) (entries : list (nat * Event)) : Prop :=
  Forall (λ t, start + delay ≤ t) (generationTimes entries)
  ∧ spaced delay (generationTimes entries)
  ∧ callsPaced delay entries.

(** The values written to [aria-label]. *)
Definition labelWrites (entries : list (nat * Event)) : list string :=
  omap (λ te, match te.2 with
              | AttributeSet _ name value =>
                  if String.eqb name "aria-label" then Some value else None
              | _ => None
              end) entries.

(** The writes to the live region: time, region, text. *)
Definition regionWrites (entries : list (nat * Event)) : list (nat * nat * string) :=
  omap (λ te, match te.2 with
              | RegionWritten region text => Some (te.1, region, text)
              | _ => None
              end) entries.


(** The sessions created and not yet destroyed after the entries. *)
Fixpoint liveSessions (live : list nat) (entries : list (nat * Event)) : list nat :=
  match entries with
  | [] => live
  | (_, SessionCreated k) :: rest => liveSessions (live ++ [k]) rest
  | (_, SessionDestroyed k) :: rest =>
      liveSessions (List.filter (λ j, negb (j =? k)) live) rest
  | _ :: rest => liveSessions live rest
  end.

(** The largest number of sessions live at once along the entries. *)
Fixpoint peakLive (live : list nat) (entries : list (nat * Event)) : nat :=
  match entries with
  | [] => length live
  | e :: rest => length live `max` peakLive (liveSessions live [e]) rest
  end.

Definition timesDestroyed (session : nat) (entries : list (nat * Event)) : nat :=
  countEvents (λ e, match e with
                    | SessionDestroyed k => k =? session
                    | _ => false
                    end) entries.

Definition sessionsCreated (entries : list (nat * Event)) : list nat :=
  omap (λ te, match te.2 with
              | SessionCreated k => Some k
              | _ => None
              end) entries.

(** The headings that carry the processed marker. *)
Definition markedHeadings (d : Document) : list nat :=
  List.filter (λ h, hasAttribute d h summaryMarker) (querySelectorAll d headingTags).

Definition noDeferred (q : list Timer) : bool :=
  forallb (λ t, match callback t with
                | DeferredAnnounce _ => false
                | SetRegionText _ _ => true
                end) q.

(** The capability reports that the backend is unavailable. *)
Definition unavailable (c : Capability) (s : State) : Prop :=
  present c = true ∧ (availability c (calls s)).2 = Resolved "no".

(** A run that aborts on the availability check: once the page has
    settled, one error announcement and no call to the backend. *)
Definition abortsCleanly (run : Task unit) (s : State) : Prop :=
  let entries := added s (settle (run s).2) in
  countEvents isErrorAnnouncement entries = 1 ∧ countEvents isCapabilityCall entries = 0.

(** ** Sample pages and capabilities *)

(** A layout engine that renders an element as the concatenation of its
    text nodes. *)
Definition plainRendering : Rendering := {| innerText := textContent |}.

Fixpoint repeatString (n : nat) (unit : string) : string :=
  match n with
  | 0 => EmptyString
  | S n' => unit +:+ repeatString n' unit
  end.

Definition freshState (d : Document) : State :=
  {| page := d; now := 0; timers := []; timerSeq := 0; log := []; calls := 0; sessions := 0 |}.

(** A capability that is available and answers every call. *)
Definition steadyCapability (answer : string) : Capability :=
  {| present := true;
     availability := λ _, (5, Resolved "available");
     create := λ _, ([], (20, Resolved tt));
     run := λ _ _, (300, Resolved answer) |}.

(** A capability whose first generation call is rejected; later calls
    are answered. *)
Definition busyCapability (answer : string) : Capability :=
  {| present := true;
     availability := λ _, (5, Resolved "available");
     create := λ _, ([], (20, Resolved tt));
     run := λ n _, if n <=? 2 then (300, Rejected "The model is busy")
                   else (300, Resolved answer) |}.

(** A capability that reports it cannot be used. *)
Definition offCapability : Capability :=
  {| present := true;
     availability := λ _, (5, Resolved "no");
     create := λ _, ([], (20, Resolved tt));
     run := λ _ _, (300, Resolved "unused") |}.

Definition steadyBackends : Backends :=
  {| Summarizer := steadyCapability "A short summary.";
     LanguageModel := steadyCapability "Open the pricing page." |}.

Definition busyBackends : Backends :=
  {| Summarizer := busyCapability "A short summary.";
     LanguageModel := busyCapability "Open the pricing page." |}.

Definition offBackends : Backends :=
  {| Summarizer := offCapability; LanguageModel := offCapability |}.

(** Two sections of the same rank: the first one is short. *)
Definition articlePage : Document :=
  {| documentElement :=
       Element 0 "HTML"
         [Element 1 "BODY"
            [Element 2 "H2" [Text "Intro"];
             Element 3 "P" [Text "Short."];
             Element 4 "H2" [Text "Details"];
             Element 5 "P" [Text "Long paragraph that belongs to the second section only."]]];
     body := 1;
     attributeTable := ∅ |}.

(** A section with enough text of its own, followed by another one. *)
Definition guidePage : Document :=
  {| documentElement :=
       Element 0 "HTML"
         [Element 1 "BODY"
            [Element 2 "H2" [Text "Setup"];
             Element 3 "P" [Text "Install the extension, then open the popup and pick a command."];
             Element 4 "NAV" [Text "Skip to the end"];
             Element 5 "H3" [Text "Flags"];
             Element 6 "P" [Text "Enable the summarizer flag."];
             Element 7 "H2" [Text "Usage"];
             Element 8 "P" [Text "Press the button."]]];
     body := 1;
     attributeTable := ∅ |}.

(** A heading inside a wrapper; the text of the section is in the
    wrapper's next sibling. *)
Definition wrappedPage : Document :=
  {| documentElement :=
       Element 0 "HTML"
         [Element 1 "BODY"
            [Element 2 "HEADER" [Element 3 "H2" [Text "Title"]];
             Element 4 "DIV" [Text (repeatString 3500 "w")]]];
     body := 1;
     attributeTable := ∅ |}.

(** Three headings whose section texts, as [getSectionContent] returns
    them, have 40, 20 and 200 characters: for the first two the text is
    that of the enclosing [SECTION] (the heading's letter and its
    paragraph), for the third it is the paragraph. *)
Definition threeSections : Document :=
  {| documentElement :=
       Element 0 "HTML"
         [Element 1 "BODY"
            [Element 2 "SECTION"
               [Element 3 "H2" [Text "A"]; Element 4 "P" [Text (repeatString 39 "x")]];
             Element 5 "SECTION"
               [Element 6 "H2" [Text "B"]; Element 7 "P" [Text (repeatString 19 "y")]];
             Element 8 "SECTION"
               [Element 9 "H2" [Text "C"]; Element 10 "P" [Text (repeatString 200 "z")]]]];
     body := 1;
     attributeTable := ∅ |}.

(** Two headings, each with a paragraph of 60 characters. *)
Definition twoSections : Document :=
  {| documentElement :=
       Element 0 "HTML"
         [Element 1 "BODY"
            [Element 2 "H2" [Text "Pricing"];
             Element 3 "P" [Text (repeatString 60 "x")];
             Element 4 "H2" [Text "Support"];
             Element 5 "P" [Text (repeatString 60 "y")]]];
     body := 1;
     attributeTable := ∅ |}.

(** Links and buttons; the link [6] carries an [aria-label] made of one
    space. *)
Definition controlsPage : Document :=
  {| documentElement :=
       Element 0 "HTML"
         [Element 1 "BODY"
            [Element 2 "H2" [Text "Pricing"];
             Element 3 "P" [Text "See our plans "; Element 4 "A" [Text "here"]];
             Element 5 "BUTTON" [Text "Go"];
             Element 6 "A" [Text "Here"];
             Element 7 "A" [Text "Contact the sales team"];
             Element 8 "A" [Text "more"]]];
     body := 1;
     attributeTable :=
       <[8 := [("aria-label", "More about pricing")]]>
         (<[6 := [("aria-label", " ")]]> (<[4 := [("href", "/plans")]]> ∅)) |}.

(** A page on which the script has already created its live region. *)
Definition loadedPage : Document :=
  {| documentElement :=
       Element 0 "HTML"
         [Element 1 "BODY"
            [Element 2 "H1" [Text "News"];
             Element 3 "P" [Text "Nothing happened today."];
             Element 4 "DIV" []]];
     body := 1;
     attributeTable :=
       <[4 := [("id", announcerId); ("role", "status"); ("aria-live", "assertive");
               ("aria-atomic", "true"); ("style", announcerStyle)]]> ∅ |}.

(** ** Reasoning about tasks *)

(** The events of the announcement channel: they are the only ones the
    timer queue produces. *)
Definition ambient (e : Event) : Prop :=
  match e with
  | Announced _ | RegionWritten _ _ => True
  | AttributeSet _ name _ => name ∈ ["role"; "aria-live"; "aria-atomic"]
  | _ => False
  end.

(** Events that are neither announcements nor calls. *)
Definition silent (e : Event) : Prop :=
  match e with
  | RegionWritten _ _ | AttributeSet _ _ _ => True
  | _ => False
  end.

Definition keepsAttributes (d d' : Document) : Prop :=
  ∀ el name, hasAttribute d el name = true → hasAttribute d' el name = true.

(** [s'] is a later state of [s]: the log has grown by entries of kind
    [K] stamped between the two clocks, the clock has not gone back, and
    every attribute that was present still is. *)
Definition later (K : Event → Prop) (s s' : State) : Prop :=
  ∃ entries,
    log s' = log s ++ entries
    ∧ Forall (λ te, K te.2 ∧ now s ≤ te.1 ∧ te.1 ≤ now s') entries
    ∧ now s ≤ now s'
    ∧ keepsAttributes (page s) (page s').

(** A task whose every run leads to a later state. *)
Definition runs {A} (K : Event → Prop) (t : Task A) : Prop :=
  ∀ s, later K s (t s).2.

(** Hoare triples for tasks. *)
Definition triple {A} (P : State → Prop) (t : Task A) (Q : Completion A → State → Prop) : Prop :=
  ∀ s, P s → Q (t s).1 (t s).2.

(** The number of pending deferred announcements that report an error. *)
Definition deferredErrors (q : list Timer) : nat :=
  length (List.filter (λ t, match callback t with
                            | DeferredAnnounce text => isErrorAnnouncement (Announced text)
                            | SetRegionText _ _ => false
                            end) q).

(** Kinds of events. *)
Definition shortLabel (e : Event) : Prop :=
  match e with
  | AttributeSet _ name value =>
      name = "aria-label" → String.length value ≤ 60 ∧ wordCount value ≤ 8
  | _ => True
  end.

Definition notGeneration (e : Event) : Prop := isGeneration e = false.

Definition notCall (e : Event) : Prop := isCapabilityCall e = false.


Definition anyEvent (e : Event) : Prop := True.

(** The run that started in [s0] has been paced so far; the same, when
    every generation call lies at least [delay] back; the same, when the
    run itself started at least [delay] ago (a generation call may
    follow). *)
Definition pacedSoFar (delay : nat) (s0 s : State) : Prop :=
  length (log s0) ≤ length (log s)
  ∧ now s0 ≤ now s
  ∧ Forall (λ t, now s0 + delay ≤ t ∧ t ≤ now s) (generationTimes (added s0 s))
  ∧ spaced delay (generationTimes (added s0 s))
  ∧ callsPaced delay (added s0 s).

Definition rested (delay : nat) (s0 s : State) : Prop :=
  pacedSoFar delay s0 s
  ∧ Forall (λ t, t + delay ≤ now s) (generationTimes (added s0 s)).

Definition readyToCall (delay : nat) (s0 s : State) : Prop :=
  rested delay s0 s ∧ now s0 + delay ≤ now s.

(** A state property kept by every later state reached through events
    of kind [K]. *)
Definition stable (K : Event → Prop) (P : State → Prop) : Prop :=
  ∀ s s', later K s s' → P s → P s'.




Section Idempotence.
Context `{Rendering} `{Backends}.


End Idempotence.

(** The text of the last announcement. *)
Definition lastAnnouncement (entries : list (nat * Event)) : option string :=
  last (omap (λ te, match te.2 with
                    | Announced text => Some text
                    | _ => None
                    end) entries).

Section Scenario.
Context `{Rendering} `{Backends}.

(** The three-heading scenario as the specification states it: one
    generation call, for the section of the third heading, and a final
    count of one. *)
Definition onlyThirdSummarized (d : Document) (third : nat) : Prop :=
  let entries := added (freshState d) (generateCues (freshState d)).2 in
  generationInputs entries = [getSectionContent d third]
  ∧ lastAnnouncement entries
    = Some "Section summaries complete. Generated 1 summaries. Navigate the page to see them.".

(** A capability that creates every session asked for and answers every
    generation call with a summary that is not blank. *)
Definition accepting (c : Capability) : Prop :=
  (∀ n, (create c n).2.2 = Resolved tt)
  ∧ (∀ n input, ∃ summary, (run c n input).2 = Resolved summary ∧ trim summary ≠ EmptyString).

(** The section text of a heading when its turn comes in a loop that is
    in state [s]: the pipeline reads it after its pause of one second. *)
Definition sectionAt (heading : nat) (s : State) : string :=
  getSectionContent (page (suspend 1000 s)) heading.

(** At its turn the heading passes the two tests that come before the
    one on the section text: its own text is not blank and has at most
    200 characters, and it does not carry the marker. *)
Definition summarizable (heading : nat) (s : State) : Prop :=
  let d := page (suspend 1000 s) in
  trim (innerText d heading) ≠ EmptyString
  ∧ String.length (trim (innerText d heading)) ≤ 200
  ∧ hasAttribute d heading summaryMarker = false.

End Scenario.

Section Tail.
Context `{Rendering} `{Backends}.

(** What [summarizeHeading] does once a summary has come back. *)
Definition afterSummary (total index heading successCount summarizer : nat)
    (summary : string) : Task nat :=
  modify (destroy summarizer);;
  if negb (isEmpty summary) && negb (isEmpty (trim summary)) then
    modify (setAttributeS heading summaryMarker "true");;
    modify (insertNote heading summary);;
    when ((index + 1) `mod` 5 =? 0)
      (modify (announce ("Processed " +:+ ofNat (index + 1) +:+ " of "
                         +:+ ofNat total +:+ " sections.")));;
    mret (successCount + 1)
  else mret successCount.

End Tail.

(** Events that are neither an error announcement nor a call to the
    backend. *)
Definition harmless (e : Event) : Prop :=
  isErrorAnnouncement e = false ∧ isCapabilityCall e = false.

(** A step that, when no deferred announcement is pending, adds
    harmless events only and leaves none pending. *)
Definition calm (s s' : State) : Prop :=
  noDeferred (timers s) = true →
  later harmless s s' ∧ noDeferred (timers s') = true.

(** A test on elements that looks at the handle only. *)
Definition byHandle (q : nat → bool) (n : Node) : bool :=
  match handleOf n with
  | Some h => q h
  | None => false
  end.

(** The creations and releases of sessions, in order. *)
Definition isSessionEvent (e : Event) : bool :=
  match e with
  | SessionCreated _ | SessionDestroyed _ => true
  | _ => false
  end.

Definition sessionEvents (entries : list (nat * Event)) : list Event :=
  List.filter isSessionEvent (map snd entries).

Definition notSession (e : Event) : Prop := isSessionEvent e = false.

(** The session events since [s0] are exactly [events]. *)
Definition sessionLog (events : list Event) (s0 s : State) : Prop :=
  length (log s0) ≤ length (log s) ∧ sessionEvents (added s0 s) = events.

(** Since [s0], no session was created, or one was and it was released
    once. *)
Definition sessionsSettled (s0 s : State) : Prop :=
  sessionLog [] s0 s
  ∨ ∃ session, sessionLog [SessionCreated session; SessionDestroyed session] s0 s.

(** A run that created no session, or created one and released it
    once. *)
Definition releasedOnce (entries : list (nat * Event)) : Prop :=
  sessionEvents entries = []
  ∨ ∃ session, sessionEvents entries = [SessionCreated session; SessionDestroyed session].

(** The writes a queue of region timers makes when it runs to its end. *)
Fixpoint writesOf (clock : nat) (q : list Timer) : list (nat * Event) :=
  match q with
  | [] => []
  | t :: rest =>
      match callback t with
      | SetRegionText region text =>
          (clock `max` due t, RegionWritten region text) :: writesOf (clock `max` due t) rest
      | DeferredAnnounce _ => []
      end
  end.

(** ** Further vocabulary *)

(** *** Characters at the ends of a string *)

(** The string holds a line feed. *)
Definition hasLineBreak (s : string) : bool :=
  existsb (Ascii.eqb newline) (list_ascii_of_string s).

(** The first and the last character of a string. *)
Definition firstChar (s : string) : option ascii := String.get 0 s.

Fixpoint lastChar (s : string) : option ascii :=
  match s with
  | EmptyString => None
  | String c EmptyString => Some c
  | String _ r => lastChar r
  end.

Definition holds (p : ascii → bool) (c : option ascii) : bool :=
  match c with
  | Some a => p a
  | None => false
  end.

(** *** Labels, clones and ancestors *)


Definition cleanTag (n : Node) : bool := negb (tagIn removedFromClone n).

Section ContextVocabulary.
Context `{Rendering}.

(** [el.parentElement], [el.parentElement.parentElement], ... *)
Definition ancestorElements (d : Document) (el : nat) : list Node :=
  map self (tail (ancestry d el)).

(** The following element siblings of the heading's parent: what the
    second loop of [getSectionContent] walks. *)
Definition parentSiblings (d : Document) (heading : nat) : list Node :=
  match ancestry d heading with
  | _ :: p :: _ => elementsAmong (after p)
  | _ => []
  end.

(** The length of the longest text among some elements. *)
Definition longestText (d : Document) (l : list Node) : nat :=
  foldr (λ n m, String.length (textOf d n) `max` m) 0 l.

End ContextVocabulary.

(** An element six levels below the only element that holds a heading. *)
Definition deepPage : Document :=
  {| documentElement :=
       Element 0 "HTML"
         [Element 1 "BODY"
            [Element 2 "H1" [Text "Catalogue"];
             Element 3 "DIV"
               [Element 4 "DIV"
                  [Element 5 "DIV"
                     [Element 6 "UL"
                        [Element 7 "LI"
                           [Element 8 "P" [Text "Spare parts "; Element 9 "A" [Text "more"]]]]]]]]];
     body := 1;
     attributeTable := ∅ |}.

(** *** The live region *)

(** The attributes of the live region, as [createPersistentLiveRegion]
    sets them. *)
Definition announcerAttributes : list (string * string) :=
  [("id", announcerId); ("role", "status"); ("aria-live", "assertive");
   ("aria-atomic", "true"); ("style", announcerStyle)].

(** The element with its children replaced. *)
Definition retagged (new : list Node) (n : Node) : Node :=
  match n with
  | Text s => Text s
  | Element h t _ => Element h t new
  end.

(** *** What the announcement channel leaves of a page *)

Definition announcerNames : list string := map fst announcerAttributes.

(** What the announcement channel leaves of a page: it adds no element
    but its own [DIV], and sets no attribute but the five of that
    [DIV]. *)
Definition undisturbed (d d' : Document) : Prop :=
  (∀ tags, "DIV" ∉ tags → querySelectorAll d' tags `sublist_of` querySelectorAll d tags)
  ∧ (∀ el name, name ∉ announcerNames → getAttribute d' el name = getAttribute d el name).

Definition gentle (s s' : State) : Prop := undisturbed (page s) (page s').

(** A task every run of which is related to its start by [R]. *)
Definition keeps (R : State → State → Prop) {A} (t : Task A) : Prop :=
  ∀ s, R s (t s).2.

(** The handles of the elements of a tree with one of the tags, in
    document order. *)
Definition matching (tags : list string) (n : Node) : list nat :=
  omap handleOf (filter (λ x, tagIn tags x = true) (elementsOf n)).

(** *** Calls, errors and loops *)

(** The two calls that use the generation backend. *)
Inductive CallKind := Creation | Generation.

Definition isCall (kind : CallKind) (e : Event) : bool :=
  match kind, e with
  | Creation, CreateCalled _ => true
  | Generation, GenerationCalled _ _ => true
  | _, _ => false
  end.

Definition creations (kind : CallKind) : nat :=
  match kind with Creation => 1 | Generation => 0 end.

Definition generations (kind : CallKind) : nat :=
  match kind with Creation => 0 | Generation => 1 end.

Definition notKind (kind : CallKind) (e : Event) : Prop := isCall kind e = false.

(** Since [s0], at most [n] calls of the kind were made. *)
Definition budget (kind : CallKind) (n : nat) (s0 s : State) : Prop :=
  length (log s0) ≤ length (log s) ∧ countEvents (isCall kind) (added s0 s) ≤ n.


(** The values a task can return. *)
Definition returns {A} (ok : A → Prop) (t : Task A) : Prop :=
  ∀ s, match (t s).1 with
       | Normal a => ok a
       | Throw _ => True
       end.

(** A loop over [n] items that waits [delay] before each: it ends
    normally, counts at most one success per item, and takes at least
    [n] delays. *)
Definition visitsAll (delay n successCount : nat) (loop : Task nat) : Prop :=
  ∀ s, ∃ count,
    (loop s).1 = Normal count
    ∧ successCount ≤ count ≤ successCount + n
    ∧ now s + delay * n ≤ now (loop s).2.

(** *** Headings left unmarked *)

(** The headings that do not carry the processed marker. *)
Definition unmarkedHeadings (d : Document) : list nat :=
  filter (λ h, hasAttribute d h summaryMarker = false) (querySelectorAll d headingTags).




(** *** Throttling *)

(** The clock at each event of a kind, in order. *)
Definition timesOf (p : Event → bool) (entries : list (nat * Event)) : list nat :=
  map fst (List.filter (λ te, p te.2) entries).

(** Throttling as the specification states it: any two consecutive
    calls to the backend (creating a session, generating text) are at
    least [delay] apart. *)
Definition separated (delay : nat) (entries : list (nat * Event)) : Prop :=
  spaced delay (timesOf isCapabilityCall entries).

(** The events of kind [p] come no sooner than [start], and any two
    consecutive ones are at least [delay] apart. *)
Definition separatedFrom (p : Event → bool) (delay start : nat)
    (entries : list (nat * Event)) : Prop :=
  Forall (λ t, start ≤ t) (timesOf p entries) ∧ spaced delay (timesOf p entries).

Definition quietFor (p : Event → bool) (e : Event) : Prop := p e = false.

(** Since [s0] the events of kind [p] have come no sooner than [lead]
    after the start and [delay] apart; the same, when each of them lies
    at least [delay] back and the lead has passed (another one may
    follow). *)
Definition spacedSoFar (p : Event → bool) (delay lead : nat) (s0 s : State) : Prop :=
  length (log s0) ≤ length (log s)
  ∧ now s0 ≤ now s
  ∧ Forall (λ t, now s0 + lead ≤ t ∧ t ≤ now s) (timesOf p (added s0 s))
  ∧ spaced delay (timesOf p (added s0 s)).

Definition restedFrom (p : Event → bool) (delay lead : nat) (s0 s : State) : Prop :=
  spacedSoFar p delay lead s0 s
  ∧ now s0 + lead ≤ now s
  ∧ Forall (λ t, t + delay ≤ now s) (timesOf p (added s0 s)).

(** *** Timers one at a time *)

(** The state once the first [k] pending timers have fired. *)
Definition afterTimers (k : nat) (s : State) : State := eventLoop k (λ _, true) s.

(** What a callback that writes the region does to the page. *)
Definition written (cb : Callback) (d : Document) : Document :=
  match cb with
  | SetRegionText region text => setInnerText region text d
  | DeferredAnnounce _ => d
  end.

(** *** What is sent to the backend *)

(** A generation call of this kind submits an input that is [ok]. *)
Definition submits (ok : string → Prop) (e : Event) : Prop :=
  match e with
  | GenerationCalled _ input => ok input
  | _ => True
  end.

(** What the overview submits: the trimmed text of the content area,
    of 50 to 5000 characters. *)
Definition overviewInput (input : string) : Prop :=
  50 ≤ String.length input ≤ 5000 ∧ trim input = input.

(** What the section summaries submit: trimmed text of at least 30
    characters. *)
Definition sectionInput (input : string) : Prop :=
  30 ≤ String.length input ∧ trim input = input.

(** What the cues of the first revision submit: the fixed question
    about the trimmed text of a heading, of 1 to 200 characters. *)
Definition cueInput (input : string) : Prop :=
  ∃ headingText,
    input = "Describe what this section is about: " +:+ dquote +:+ headingText +:+ dquote
    ∧ 1 ≤ String.length headingText ≤ 200
    ∧ trim headingText = headingText.

(** *** Where a pipeline writes *)

(** The values written to an attribute, with the elements they are
    written on. *)
Definition attributeWrites (name : string) (entries : list (nat * Event)) : list (nat * string) :=
  omap (λ te, match te.2 with
              | AttributeSet el n value => if String.eqb n name then Some (el, value) else None
              | _ => None
              end) entries.

(** The headings after which a note was inserted. *)
Definition noteTargets (entries : list (nat * Event)) : list nat :=
  omap (λ te, match te.2 with
              | NoteInserted heading _ => Some heading
              | _ => None
              end) entries.

(** A link or button of the page that has no [aria-label], or a blank
    one. *)
Definition labelTarget (d : Document) (el : nat) : Prop :=
  el ∈ linksAndButtons d ∧ hasLabel d el = false.

(** A heading of the page that does not carry the marker. *)
Definition headingTarget (marker : string) (d : Document) (heading : nat) : Prop :=
  heading ∈ querySelectorAll d headingTags ∧ hasAttribute d heading marker = false.

(** A value that is not empty and holds no line feed. *)
Definition oneLine (value : string) : Prop :=
  value ≠ EmptyString ∧ hasLineBreak value = false.

(** Kinds of events: what each pipeline may write, given the page [d] it
    started from. *)
Definition labelsConfined (d : Document) (e : Event) : Prop :=
  match e with
  | AttributeSet el name value =>
      (name = "aria-label" → labelTarget d el ∧ oneLine value)
      ∧ (name = fixedMarker → labelTarget d el ∧ value = "true")
  | NoteInserted _ _ => False
  | _ => True
  end.

Definition summariesConfined (d : Document) (e : Event) : Prop :=
  match e with
  | AttributeSet el name value =>
      name = summaryMarker → headingTarget summaryMarker d el ∧ value = "true"
  | NoteInserted heading _ => headingTarget summaryMarker d heading
  | _ => True
  end.

Definition cuesConfined (d : Document) (e : Event) : Prop :=
  match e with
  | AttributeSet el name value =>
      (name = ContentJs.cueMarker → headingTarget ContentJs.cueMarker d el ∧ value = "true")
      ∧ (name = "aria-description"
         → headingTarget ContentJs.cueMarker d el ∧ oneLine value ∧ String.length value ≤ 100)
  | NoteInserted _ _ => False
  | _ => True
  end.

(** ** The popup ([popup.js])

    The popup shows a status line, and on a click asks the content
    script of the active tab to start a pipeline.  The browser interface
    ([chrome.tabs], [chrome.scripting]) is external: a [Browser] gives the
    answer to each call, with the time the call takes. *)

Module Popup.

(** The second argument of [showStatus]; the script passes these four
    constants only. *)
Inductive StatusKind := info | error | loading | success.

(** The element of id [status]: its text and its [className], which is
    [show kind] until a timer removes [show]. *)
Record Status := {
  statusText : string;
  shown : bool;
  statusKind : StatusKind
}.

Inductive PopupCallback :=
| HideStatus
| CloseWindow.

Record PopupTimer := {
  fireAt : nat;
  onFire : PopupCallback
}.

(** The actions the popup sends. *)
Inductive Action := GenerateOverview | GenerateCues | FixLabels.

Definition actionName (a : Action) : string :=
  match a with
  | GenerateOverview => "generateOverview"
  | GenerateCues => "generateCues"
  | FixLabels => "fixLabels"
  end.

Inductive PopupEvent :=
| StatusReported (kind : StatusKind) (message : string)
| TabsQueried
| Pinged (tab : nat)
| ScriptInjected (tab : nat)
| MessageSent (tab : nat) (a : Action).

Record PopupState := {
  statusElement : option Status;
  clock : nat;
  pendingTimers : list PopupTimer;
  closed : bool;
  events : list PopupEvent
}.

Definition withStatus (st : option Status) (p : PopupState) : PopupState :=
  {| statusElement := st; clock := clock p; pendingTimers := pendingTimers p;
     closed := closed p; events := events p |}.

Definition withClock (t : nat) (p : PopupState) : PopupState :=
  {| statusElement := statusElement p; clock := t; pendingTimers := pendingTimers p;
     closed := closed p; events := events p |}.

Definition withPending (q : list PopupTimer) (p : PopupState) : PopupState :=
  {| statusElement := statusElement p; clock := clock p; pendingTimers := q;
     closed := closed p; events := events p |}.

Definition withClosed (b : bool) (p : PopupState) : PopupState :=
  {| statusElement := statusElement p; clock := clock p; pendingTimers := pendingTimers p;
     closed := b; events := events p |}.

Definition report (e : PopupEvent) (p : PopupState) : PopupState :=
  {| statusElement := statusElement p; clock := clock p; pendingTimers := pendingTimers p;
     closed := closed p; events := events p ++ [e] |}.

(** Timers run in the order of their time, and for equal times in the
    order they were set. *)
Fixpoint schedule (t : PopupTimer) (q : list PopupTimer) : list PopupTimer :=
  match q with
  | [] => [t]
  | x :: rest => if fireAt x <=? fireAt t then x :: schedule t rest else t :: x :: rest
  end.

(** [setTimeout(callback, delay)] *)
Definition setTimer (cb : PopupCallback) (delay : nat) (p : PopupState) : PopupState :=
  withPending (schedule {| fireAt := clock p + delay; onFire := cb |} (pendingTimers p)) p.

Definition hide (st : Status) : Status :=
  {| statusText := statusText st; shown := false; statusKind := statusKind st |}.

Definition runCallback (cb : PopupCallback) (p : PopupState) : PopupState :=
  match cb with
  | HideStatus => withStatus (hide <$> statusElement p) p
  | CloseWindow => withClosed true p
  end.

(** The timers due by [target] fire in turn; once the window is closed
    nothing runs any more. *)
Fixpoint fireDue (target : nat) (q : list PopupTimer) (p : PopupState) : PopupState :=
  match q with
  | [] => p
  | t :: rest =>
      if closed p then p
      else if fireAt t <=? target then
        fireDue target rest
          (runCallback (onFire t) (withClock (clock p `max` fireAt t) (withPending rest p)))
      else p
  end.

(** The popup [ms] later. *)
Definition elapse (ms : nat) (p : PopupState) : PopupState :=
  let target := clock p + ms in
  let p' := fireDue target (pendingTimers p) p in
  if closed p' then p' else withClock (clock p' `max` target) p'.

(** [showStatus(message, type)] *)
Definition showStatus (message : string) (kind : StatusKind) (p : PopupState) : PopupState :=
  let p := report (StatusReported kind message) p in
  match statusElement p with
  | None => p
  | Some _ =>
      let p := withStatus (Some {| statusText := message; shown := true; statusKind := kind |}) p in
      match kind with
      | loading => p
      | _ => setTimer HideStatus 5000 p
      end
  end.

(** [getActionLabel(action)], on the actions the popup sends. *)
Definition getActionLabel (a : Action) : string :=
  match a with
  | GenerateOverview => "Generating overview"
  | GenerateCues => "Generating cues"
  | FixLabels => "Fixing labels"
  end.

(** A tab as [chrome.tabs.query] gives it: [id] and [url] may be
    missing. *)
Record Tab := {
  tabId : option nat;
  tabUrl : option string
}.

Record Browser := {
  queryTabs : nat * Outcome (list Tab);
  (** [chrome.tabs.sendMessage(tabId, {action: "ping"})]: the [status]
      of the response, when it has one *)
  ping : nat → nat * Outcome (option string);
  executeScript : nat → nat * Outcome unit;
  sendMessage : nat → Action → nat * Outcome unit;
  (** [document.getElementById("keepOpen")?.checked] *)
  keepOpen : bool
}.

(** How a part of an [async] function ends: with a value, by a thrown
    error, by [return], or because the window was closed while it
    waited. *)
Inductive FlowEnd (A : Type) :=
| Went (a : A)
| Threw (message : string)
| Returned
| Unloaded.
Arguments Went {A} a.
Arguments Threw {A} message.
Arguments Returned {A}.
Arguments Unloaded {A}.

Definition Flow (A : Type) : Type := PopupState → FlowEnd A * PopupState.

#[global] Instance Flow_ret : MRet Flow := λ A a p, (Went a, p).

#[global] Instance Flow_bind : MBind Flow := λ A B k m p,
  match m p with
  | (Went a, p') => k a p'
  | (Threw e, p') => (Threw e, p')
  | (Returned, p') => (Returned, p')
  | (Unloaded, p') => (Unloaded, p')
  end.

Definition act (f : PopupState → PopupState) : Flow unit := λ p, (Went tt, f p).

Definition leave {A} : Flow A := λ p, (Returned, p).

Definition raise {A} (message : string) : Flow A := λ p, (Threw message, p).

Definition catch {A} (body : Flow A) (handler : string → Flow A) : Flow A := λ p,
  match body p with
  | (Threw e, p') => handler e p'
  | other => other
  end.

(** [await promise]: the popup waits for the answer; its timers run
    meanwhile. *)
Definition await {A} (answer : nat * Outcome A) : Flow A := λ p,
  let p' := elapse answer.1 p in
  if closed p' then (Unloaded, p')
  else match answer.2 with
       | Resolved a => (Went a, p')
       | Rejected message => (Threw message, p')
       end.

(** [await new Promise(resolve => setTimeout(resolve, ms))] *)
Definition pause (ms : nat) : Flow unit := λ p,
  let p' := elapse ms p in
  if closed p' then (Unloaded, p') else (Went tt, p').

(** [isContentScriptLoaded(tabId)] *)
Definition isContentScriptLoaded (b : Browser) (tab : nat) : Flow bool :=
  catch
    (act (report (Pinged tab));;
     status ← await (ping b tab);
     mret (match status with
           | Some s => String.eqb s "pong"
           | None => false
           end))
    (λ _, mret false).

(** The pages on which the popup refuses to run. *)
Definition internalPage (u : string) : bool :=
  String.prefix "chrome://" u || String.prefix "chrome-extension://" u
  || String.prefix "edge://" u.

(** The message of the error that [tab.url.startsWith] throws when the
    tab has no [url]. *)
Definition noUrlMessage : string :=
  "Cannot read properties of undefined (reading 'startsWith')".

(** [sendMessageToTab(action)] *)
Definition sendMessageToTab (b : Browser) (a : Action) : Flow unit :=
  catch
    (act (report TabsQueried);;
     tabs ← await (queryTabs b);
     match tabs with
     | [] => act (showStatus "❌ No active tab found" error);; leave
     | tab :: _ =>
         match tabId tab with
         | None | Some 0 => act (showStatus "❌ Invalid tab ID" error);; leave
         | Some id =>
             u ← match tabUrl tab with
                 | Some u => mret u
                 | None => raise noUrlMessage
                 end;
             if internalPage u then
               act (showStatus "❌ Cannot run on browser internal pages" error);; leave
             else
               act (showStatus ("⏳ " +:+ getActionLabel a +:+ "...") loading);;
               isLoaded ← isContentScriptLoaded b id;
               (if isLoaded : bool then mret tt
                else
                  catch
                    (act (report (ScriptInjected id));;
                     await (executeScript b id);;
                     pause 500)
                    (λ message,
                       act (showStatus ("❌ Failed to inject script: " +:+ message) error);;
                       leave));;
               act (report (MessageSent id a));;
               await (sendMessage b id a);;
               act (showStatus "✅ Processing... Check page for results" success);;
               if keepOpen b then mret tt else act (setTimer CloseWindow 2500)
         end
     end)
    (λ message, act (showStatus ("❌ Error: " +:+ message) error)).

(** The state a click leaves, at each step. *)
Definition pinged (b : Browser) (a : Action) (id : nat) (p : PopupState) : PopupState :=
  elapse (ping b id).1
    (report (Pinged id)
       (showStatus ("⏳ " +:+ getActionLabel a +:+ "...") loading
          (elapse (queryTabs b).1 (report TabsQueried p)))).

Definition injected (b : Browser) (id : nat) (p : PopupState) : PopupState :=
  elapse 500 (elapse (executeScript b id).1 (report (ScriptInjected id) p)).

Definition sent (b : Browser) (a : Action) (id : nat) (p : PopupState) : PopupState :=
  let p := elapse (sendMessage b id a).1 (report (MessageSent id a) p) in
  match (sendMessage b id a).2 with
  | Resolved _ =>
      let p := showStatus "✅ Processing... Check page for results" success p in
      if keepOpen b then p else setTimer CloseWindow 2500 p
  | Rejected message => showStatus ("❌ Error: " +:+ message) error p
  end.

(** The popup before its script has run, and when its document has
    loaded: the welcome message is shown. *)
Definition blank : PopupState :=
  {| statusElement := Some {| statusText := EmptyString; shown := false; statusKind := info |};
     clock := 0; pendingTimers := []; closed := false; events := [] |}.

Definition welcome : string :=
  "👋 Extension loaded successfully!
Click 'Check AI Status' to begin.".

Definition opened : PopupState := showStatus welcome success blank.

(** *** The listener of the content script *)

(** The two revisions of the content script. *)
Inductive Script := FirstRevision | LaterRevision.

Inductive Pipeline := Overview | Cues | Labels.

(** [chrome.runtime.onMessage]: the status of the response, and the
    pipeline the listener starts. *)
Definition dispatch (name : string) : string * option Pipeline :=
  if String.eqb name "generateOverview" then ("started", Some Overview)
  else if String.eqb name "generateCues" then ("started", Some Cues)
  else if String.eqb name "fixLabels" then ("started", Some Labels)
  else ("unknown_action", None).

Definition onMessage (script : Script) (name : string) : string * option Pipeline :=
  match script with
  | FirstRevision => dispatch name
  | LaterRevision => if String.eqb name "ping" then ("pong", None) else dispatch name
  end.

(** A browser that answers every call, with a tab whose content script
    is of the given revision. *)
Definition steadyBrowser (script : Script) : Browser :=
  {| queryTabs := (3, Resolved [{| tabId := Some 7; tabUrl := Some "https://example.org/" |}]);
     ping := λ _, (2, Resolved (Some (onMessage script "ping").1));
     executeScript := λ _, (40, Resolved tt);
     sendMessage := λ _ _, (2, Resolved tt);
     keepOpen := false |}.

(** The same, on a page of the browser itself. *)
Definition settingsBrowser : Browser :=
  {| queryTabs := (3, Resolved [{| tabId := Some 7; tabUrl := Some "chrome://settings/" |}]);
     ping := λ _, (2, Resolved None);
     executeScript := λ _, (40, Resolved tt);
     sendMessage := λ _ _, (2, Resolved tt);
     keepOpen := false |}.

(** *** Vocabulary *)

(** The tab the popup may talk to: the first tab, when it has an id
    and its page is not internal to the browser. *)
Definition accessibleTab (b : Browser) : option nat :=
  match (queryTabs b).2 with
  | Resolved (tab :: _) =>
      match tabId tab, tabUrl tab with
      | Some (S n), Some u => if internalPage u then None else Some (S n)
      | _, _ => None
      end
  | _ => None
  end.

Definition isBrowserCall (e : PopupEvent) : bool :=
  match e with
  | StatusReported _ _ => false
  | _ => true
  end.

(** The calls to the browser made between two states. *)
Definition browserCalls (p p' : PopupState) : list PopupEvent :=
  List.filter isBrowserCall (drop (length (events p)) (events p')).

(** The calls a click makes when nothing stops it: the query for the
    active tab, then, on an accessible tab, the ping, the injection of
    the content script unless the ping was answered by [pong], and the
    message. *)
Definition answersPong (b : Browser) (tab : nat) : bool :=
  match (ping b tab).2 with
  | Resolved (Some s) => String.eqb s "pong"
  | _ => false
  end.

Definition plannedCalls (b : Browser) (a : Action) : list PopupEvent :=
  match accessibleTab b with
  | None => [TabsQueried]
  | Some id =>
      [TabsQueried; Pinged id]
      ++ (if answersPong b id then [] else [ScriptInjected id])
      ++ [MessageSent id a]
  end.

(** The timers are in the order of their times. *)
Fixpoint ordered (q : list PopupTimer) : Prop :=
  match q with
  | [] => True
  | t :: rest => Forall (λ x, fireAt t ≤ fireAt x) rest ∧ ordered rest
  end.

Definition onlyHides (q : list PopupTimer) : Prop :=
  Forall (λ t, onFire t = HideStatus) q.

(** A popup at rest: it has its status line, it is open, and its
    pending timers only hide the status. *)
Definition atRest (p : PopupState) : Prop :=
  is_Some (statusElement p) ∧ closed p = false
  ∧ ordered (pendingTimers p) ∧ onlyHides (pendingTimers p).

End Popup.

(** * Properties *)

(** ** Strings *)

Lemma prefix_length_max n s : String.length (prefix n s) ≤ n.
Proof.
  unfold prefix. revert s. induction n as [|n IH]; intros [|c s]; simpl; try lia.
  specialize (IH s). lia.
Qed.

Lemma prefix_length_le n s : String.length (prefix n s) ≤ String.length s.
Proof.
  unfold prefix. revert s. induction n as [|n IH]; intros [|c s]; simpl; try lia.
  specialize (IH s). lia.
Qed.

Lemma prefix_all n s : String.length s ≤ n → prefix n s = s.
Proof.
  unfold prefix. revert s. induction n as [|n IH]; intros [|c s]; simpl; intros Hl;
    try reflexivity; try lia.
  f_equal. apply IH. lia.
Qed.

Lemma append_cons c a b : String c a +:+ b = String c (a +:+ b).
Proof. reflexivity. Qed.

Lemma append_nil b : EmptyString +:+ b = b.
Proof. reflexivity. Qed.

Lemma prefix_app n a b : n ≤ String.length a → prefix n (a +:+ b) = prefix n a.
Proof.
  unfold prefix. revert a. induction n as [|n IH]; intros [|c a]; simpl; intros Hl;
    try lia.
  - destruct b; reflexivity.
  - reflexivity.
  - f_equal. apply IH. lia.
Qed.

Lemma append_length a b : String.length (a +:+ b) = String.length a + String.length b.
Proof.
  induction a as [|c a IH]; [reflexivity|].
  rewrite append_cons. simpl. now rewrite IH.
Qed.

Lemma append_assoc a b c : (a +:+ b) +:+ c = a +:+ (b +:+ c).
Proof.
  induction a as [|x a IH]; [reflexivity|].
  rewrite !append_cons. now rewrite IH.
Qed.

Lemma append_empty_r a : a +:+ EmptyString = a.
Proof.
  induction a as [|x a IH]; [reflexivity|].
  rewrite append_cons. now rewrite IH.
Qed.

Lemma trimStart_length s : String.length (trimStart s) ≤ String.length s.
Proof.
  induction s as [|c s IH]; simpl; [lia|].
  destruct (isWhiteSpace c); simpl; lia.
Qed.

Lemma trimEnd_length s : String.length (trimEnd s) ≤ String.length s.
Proof.
  induction s as [|c s IH]; simpl; [lia|].
  destruct (trimEnd s); [destruct (isWhiteSpace c)|]; simpl in *; lia.
Qed.

Lemma trim_length s : String.length (trim s) ≤ String.length s.
Proof.
  unfold trim. pose proof (trimEnd_length (trimStart s)). pose proof (trimStart_length s). lia.
Qed.

Lemma trimStart_blank s : isEmpty (trimStart s) = blank s.
Proof.
  induction s as [|c s IH]; simpl; [reflexivity|].
  destruct (isWhiteSpace c); simpl; [exact IH | reflexivity].
Qed.

Lemma trimEnd_blank s : isEmpty (trimEnd s) = blank s.
Proof.
  induction s as [|c s IH]; simpl; [reflexivity|].
  destruct (trimEnd s) eqn:E; simpl in *.
  - rewrite <- IH. destruct (isWhiteSpace c); reflexivity.
  - rewrite <- IH. now rewrite andb_false_r.
Qed.

Lemma blank_trimStart s : blank (trimStart s) = blank s.
Proof.
  induction s as [|c s IH]; simpl; [reflexivity|].
  destruct (isWhiteSpace c) eqn:E; simpl; [exact IH | now rewrite E].
Qed.

Lemma trim_blank s : isEmpty (trim s) = blank s.
Proof. unfold trim. now rewrite trimEnd_blank, blank_trimStart. Qed.

Lemma blank_app a b : blank (a +:+ b) = blank a && blank b.
Proof.
  induction a as [|c a IH]; [reflexivity|].
  rewrite append_cons. simpl. rewrite IH. now rewrite andb_assoc.
Qed.

Lemma isEmpty_false s : isEmpty s = false ↔ s ≠ EmptyString.
Proof. destruct s; simpl; split; congruence. Qed.

Lemma isEmpty_true s : isEmpty s = true ↔ s = EmptyString.
Proof. destruct s; simpl; split; congruence. Qed.

Lemma dropLastIf_length p s : String.length (dropLastIf p s) ≤ String.length s.
Proof.
  induction s as [|c s IH]; simpl; [lia|].
  destruct s as [|c' s'].
  - destruct (p c); simpl; lia.
  - simpl in *. lia.
Qed.

(** ** Label cleaning *)

Lemma cleanLabel_length response : String.length (cleanLabel response) ≤ 60.
Proof. unfold cleanLabel. apply prefix_length_max. Qed.

Lemma acceptLabel_words label : acceptLabel label = true → wordCount label ≤ 8.
Proof.
  unfold acceptLabel. intros [_ Hw]%andb_prop. now apply Nat.leb_le in Hw.
Qed.

(** ** Segmentation *)

Section SegmentationProperties.
Context `{Rendering}.

Lemma walkSiblings_cons d level n rest content :
  walkSiblings d level (n :: rest) content =
  if endsSection level n then content
  else
    let content' := content +:+ contribution d n in
    if 3000 <? String.length content' then prefix 3000 content'
    else walkSiblings d level rest content'.
Proof.
  unfold endsSection, contribution. cbn [walkSiblings].
  destruct (negb (isEmpty (tagOf n)) && isHeading n && levelLe (levelOf n) level);
    [reflexivity|].
  destruct (negb (isEmpty (tagOf n)) && negb (tagIn skippedTags n)); cbn zeta.
  - destruct (isEmpty (trim (textOf d n))); [|reflexivity].
    now rewrite append_empty_r.
  - now rewrite append_empty_r.
Qed.

(** The first loop yields the text of the heading's own siblings, cut
    to 3000 characters: it reads nothing at or after the sibling that
    ends the section. *)
Lemma walkSiblings_own d level siblings content :
  String.length content ≤ 3000 →
  walkSiblings d level siblings content =
  prefix 3000 (content +:+ sectionText d (ownSiblings level siblings)).
Proof.
  revert content. induction siblings as [|n rest IH]; intros content Hc.
  - cbn. rewrite append_empty_r. symmetry. now apply prefix_all.
  - rewrite walkSiblings_cons. cbn [ownSiblings].
    destruct (endsSection level n).
    + cbn. rewrite append_empty_r. symmetry. now apply prefix_all.
    + cbn [sectionText foldr]. fold (sectionText d (ownSiblings level rest)).
      cbn zeta. rewrite <- append_assoc.
      destruct (3000 <? String.length (content +:+ contribution d n)) eqn:E.
      * apply Nat.ltb_lt in E. symmetry. apply prefix_app. lia.
      * apply Nat.ltb_ge in E. now apply IH.
Qed.

Lemma contribution_blank d n : blank (contribution d n) = true → contribution d n = EmptyString.
Proof.
  unfold contribution.
  destruct (negb (isEmpty (tagOf n)) && negb (tagIn skippedTags n)); [|reflexivity].
  cbn zeta. destruct (isEmpty (trim (textOf d n))) eqn:E; [reflexivity|].
  rewrite blank_app, <- trim_blank, E. discriminate.
Qed.

Lemma sectionText_blank d l : blank (sectionText d l) = true → sectionText d l = EmptyString.
Proof.
  induction l as [|n l IH]; [reflexivity|].
  cbn [sectionText foldr]. fold (sectionText d l).
  rewrite blank_app. intros [Hn Hl]%andb_prop.
  now rewrite (contribution_blank _ _ Hn), (IH Hl).
Qed.

(** ** C1 (as amended): when the heading's own siblings hold at least 50
    characters, [getSectionContent] returns exactly their text, cut to
    3000 characters and trimmed: at most 3000 characters, nothing from
    the sibling heading of the same or a higher level that ends the
    section nor from anything after it, and not empty when no cut was
    needed. *)
Theorem getSectionContent_own_section (d : Document) (heading : nat) :
  50 ≤ String.length (prefix 3000 (sectionText d (ownSection d heading))) →
  getSectionContent d heading = trim (prefix 3000 (sectionText d (ownSection d heading)))
  ∧ String.length (getSectionContent d heading) ≤ 3000
  ∧ (String.length (sectionText d (ownSection d heading)) ≤ 3000 →
     getSectionContent d heading ≠ EmptyString).
Proof.
  unfold getSectionContent, ownSection.
  destruct (ancestry d heading) as [|f up]; [cbn; lia|].
  set (own := ownSiblings (levelOf (self f)) (elementsAmong (after f))).
  intros Hlen.
  assert (Hwalk : walkSiblings d (levelOf (self f)) (elementsAmong (after f)) EmptyString
                  = prefix 3000 (sectionText d own)).
  { rewrite walkSiblings_own by (cbn; lia). now rewrite append_nil. }
  assert (Hres : sectionContentAt d (self f) (elementsAmong (after f))
                   match up with
                   | p :: _ => Some (self p, elementsAmong (after p))
                   | [] => None
                   end
                 = trim (prefix 3000 (sectionText d own))).
  { unfold sectionContentAt, gathered. cbn zeta. rewrite Hwalk.
    assert (E : (String.length (prefix 3000 (sectionText d own)) <? 50) = false)
      by (apply Nat.ltb_ge; lia).
    rewrite E. destruct up as [|p ?]; [reflexivity|]. now rewrite E. }
  rewrite Hres. split; [reflexivity|]. split.
  - pose proof (trim_length (prefix 3000 (sectionText d own))).
    pose proof (prefix_length_max 3000 (sectionText d own)). lia.
  - intros Hshort. rewrite prefix_all in * by exact Hshort.
    apply isEmpty_false. rewrite trim_blank.
    destruct (blank (sectionText d own)) eqn:B; [|reflexivity].
    apply sectionText_blank in B. rewrite B in Hlen. cbn in Hlen. lia.
Qed.

End SegmentationProperties.

Lemma getSectionContent_own_section_witness :
  @getSectionContent plainRendering guidePage 2
  = "Install the extension, then open the popup and pick a command. Flags Enable the summarizer flag."
  ∧ String.length (@getSectionContent plainRendering guidePage 2) ≤ 3000.
Proof.
  destruct (@getSectionContent_own_section plainRendering guidePage 2) as (E & L & _).
  - vm_compute. lia.
  - split; [rewrite E; vm_compute; reflexivity | exact L].
Defined.

(** C1 as stated fails: the first section of [articlePage] is short, so
    the function falls back to the whole text of the parent, which holds
    the paragraph of the following section of the same rank. *)
Lemma getSectionContent_reads_following_section :
  ¬ @sectionProperty plainRendering articlePage 2.
Proof.
  intros (_ & _ & Hex).
  specialize (Hex (Element 5 "P" [Text "Long paragraph that belongs to the second section only."])).
  assert (Hin : Element 5 "P" [Text "Long paragraph that belongs to the second section only."]
                ∈ followingSections articlePage 2).
  { vm_compute. repeat constructor. }
  specialize (Hex Hin eq_refl). vm_compute in Hex. discriminate.
Qed.

Example getSectionContent_articlePage :
  @getSectionContent plainRendering articlePage 2
  = "IntroShort.DetailsLong paragraph that belongs to the second section only.".
Proof. vm_compute. reflexivity. Qed.

(** The second loop tests the bound before it adds a sibling's text and
    never cuts afterwards. *)
Example getSectionContent_wrappedPage :
  String.length (@getSectionContent plainRendering wrappedPage 3) = 3500.
Proof. vm_compute. reflexivity. Qed.

(** ** Ambiguous controls *)

Section SelectorProperties.
Context `{Rendering}.

Lemma hasLabel_false d el : hasLabel d el = false ↔ ¬ hasNonBlankLabel d el.
Proof.
  unfold hasLabel, hasNonBlankLabel, hasAttribute.
  destruct (getAttribute d el "aria-label") as [v|] eqn:E.
  - rewrite bool_decide_eq_true_2 by eauto. cbn.
    rewrite negb_false_iff, isEmpty_true. split.
    + intros Hv (v' & [= <-] & Hne). contradiction.
    + intros Hno. destruct (decide (trim v = EmptyString)) as [|Hne]; [assumption|].
      exfalso. apply Hno. eauto.
  - rewrite bool_decide_eq_false_2 by (intros [? ?]; discriminate). cbn.
    split; [|reflexivity]. intros _ (v & [=] & _).
Qed.

Lemma ambiguous_spec text :
  existsb (String.eqb text) ambiguousTerms || (String.length text <? 3) || isEmpty text = true
  ↔ ambiguousText text.
Proof.
  unfold ambiguousText.
  rewrite !orb_true_iff, existsb_exists, Nat.ltb_lt, isEmpty_true.
  split.
  - intros [[(x & Hin & Heq)|Hlt]|He]; [left|right; left|right; right]; try assumption.
    apply String.eqb_eq in Heq. subst x. now apply list_elem_of_In.
  - intros [Hin|[Hlt|He]]; [left; left|left; right|right]; try assumption.
    exists text. split; [now apply list_elem_of_In | apply String.eqb_refl].
Qed.

(** ** C6 (as amended): a link or button is selected exactly when it has
    no [aria-label] that is non-empty after trimming and its trimmed,
    lower-cased text is an ambiguous phrase, is shorter than 3
    characters, or is empty; the selected controls keep the document
    order of [querySelectorAll]. *)
Theorem elementsToFix_rule (d : Document) :
  (∀ el, el ∈ elementsToFix d ↔
         el ∈ linksAndButtons d ∧ ¬ hasNonBlankLabel d el ∧ ambiguousText (controlText d el))
  ∧ elementsToFix d `sublist_of` linksAndButtons d.
Proof.
  split.
  - intros el. unfold elementsToFix. rewrite list_elem_of_filter.
    unfold needsFixing. rewrite andb_true_iff, negb_true_iff, hasLabel_false, ambiguous_spec.
    tauto.
  - apply sublist_filter.
Qed.

End SelectorProperties.

(** C6 as stated fails: the link [6] of [controlsPage] has the
    [aria-label] [" "], which is not empty, and is selected. *)
Lemma elementsToFix_selects_blank_label :
  ¬ @selectionProperty plainRendering controlsPage 6.
Proof.
  unfold selectionProperty. intros [Hsel _].
  assert (Hin : 6 ∈ @elementsToFix plainRendering controlsPage).
  { vm_compute. repeat constructor. }
  destruct (Hsel Hin) as (_ & Hno & _). apply Hno.
  exists " ". split; [vm_compute; reflexivity | discriminate].
Qed.

Example elementsToFix_controlsPage :
  @elementsToFix plainRendering controlsPage = [4; 5; 6].
Proof. vm_compute. reflexivity. Qed.

(** ** Later states *)

Lemma later_refl K s : later K s s.
Proof.
  exists []. rewrite app_nil_r. repeat split; [constructor | lia | intros ? ? ?; assumption].
Qed.

Lemma later_trans K s1 s2 s3 : later K s1 s2 → later K s2 s3 → later K s1 s3.
Proof.
  intros (e1 & L1 & F1 & N1 & A1) (e2 & L2 & F2 & N2 & A2).
  exists (e1 ++ e2). repeat split.
  - rewrite L2, L1. now rewrite app_assoc.
  - apply Forall_app. split.
    + eapply Forall_impl; [exact F1|]. cbn. intros te (? & ? & ?). repeat split; [assumption|lia..].
    + eapply Forall_impl; [exact F2|]. cbn. intros te (? & ? & ?). repeat split; [assumption|lia..].
  - lia.
  - intros el name Hh. apply A2, A1, Hh.
Qed.

Lemma later_weaken (K K' : Event → Prop) s s' :
  (∀ e, K e → K' e) → later K s s' → later K' s s'.
Proof.
  intros HK (e & L & F & N & A). exists e. repeat split; try assumption.
  eapply Forall_impl; [exact F|]. cbn. intros te (? & ? & ?). auto.
Qed.

Lemma later_added K s0 s s' :
  length (log s0) ≤ length (log s) → later K s s' →
  ∃ entries, added s0 s' = added s0 s ++ entries
             ∧ Forall (λ te, K te.2 ∧ now s ≤ te.1 ∧ te.1 ≤ now s') entries.
Proof.
  intros Hl (e & L & F & _). exists e. split; [|exact F].
  unfold added. rewrite L. now apply drop_app_le.
Qed.

Lemma later_added_self K s s' :
  later K s s' → Forall (λ te, K te.2 ∧ now s ≤ te.1 ∧ te.1 ≤ now s') (added s s').
Proof.
  intros (e & L & F & _). unfold added. rewrite L.
  rewrite drop_app_length. exact F.
Qed.

Lemma later_log_length K s s' : later K s s' → length (log s) ≤ length (log s').
Proof. intros (e & L & _). rewrite L, length_app. lia. Qed.

(** *** Attributes only grow *)

Lemma lookupAttr_putAttr name value l name' :
  lookupAttr name' (putAttr name value l) =
  if String.eqb name name' then Some value else lookupAttr name' l.
Proof.
  induction l as [|[k v] l IH]; cbn.
  - reflexivity.
  - destruct (String.eqb k name) eqn:E; cbn.
    + apply String.eqb_eq in E. subst k.
      destruct (String.eqb name name'); reflexivity.
    + destruct (String.eqb k name') eqn:E'.
      * apply String.eqb_eq in E'. subst k. rewrite eqb_sym in E. now rewrite E.
      * exact IH.
Qed.

Lemma attributesOf_setAttribute el name value d el' :
  attributesOf (setAttribute el name value d) el' =
  if decide (el = el') then putAttr name value (attributesOf d el) else attributesOf d el'.
Proof.
  unfold attributesOf, setAttribute. cbn. rewrite lookup_insert.
  destruct (decide (el = el')); reflexivity.
Qed.

Lemma keepsAttributes_refl d : keepsAttributes d d.
Proof. intros ? ? ?. assumption. Qed.

Lemma keepsAttributes_trans d1 d2 d3 :
  keepsAttributes d1 d2 → keepsAttributes d2 d3 → keepsAttributes d1 d3.
Proof. intros H1 H2 el name Hh. apply H2, H1, Hh. Qed.

Lemma hasAttribute_setAttribute el name value d el' name' :
  hasAttribute (setAttribute el name value d) el' name' =
  (bool_decide (el = el') && String.eqb name name') || hasAttribute d el' name'.
Proof.
  unfold hasAttribute, getAttribute. rewrite attributesOf_setAttribute.
  destruct (decide (el = el')) as [->|Hne].
  - rewrite (bool_decide_eq_true_2 (el' = el')) by reflexivity. cbn.
    rewrite lookupAttr_putAttr.
    destruct (String.eqb name name'); cbn; reflexivity.
  - rewrite (bool_decide_eq_false_2 (el = el')) by assumption. reflexivity.
Qed.

Lemma keepsAttributes_setAttribute el name value d :
  keepsAttributes d (setAttribute el name value d).
Proof.
  intros el' name' Hh. rewrite hasAttribute_setAttribute, Hh. apply orb_true_r.
Qed.

Lemma keepsAttributes_withTree t d : keepsAttributes d (withTree t d).
Proof. intros ? ? ?. assumption. Qed.

Lemma freshHandle_unused d : attributeTable d !! freshHandle d = None.
Proof.
  apply not_elem_of_dom. unfold freshHandle.
  intros Hin.
  apply (is_fresh (dom (attributeTable d)
                   ∪ list_to_set (omap handleOf (elementsOf (documentElement d))))).
  apply elem_of_union. left. exact Hin.
Qed.

Lemma keepsAttributes_createElement d : keepsAttributes d (createElement d).2.
Proof.
  intros el name. unfold createElement, hasAttribute, getAttribute, attributesOf. cbn.
  destruct (decide (freshHandle d = el)) as [<-|Hne].
  - rewrite freshHandle_unused, lookup_insert_eq. trivial.
  - rewrite lookup_insert_ne by assumption. trivial.
Qed.

(** *** The primitive state changes *)

Lemma later_record K e s : K e → later K s (record e s).
Proof.
  intros HK. exists [(now s, e)]. cbn. repeat split; try lia.
  - repeat constructor; cbn; [assumption|lia..].
  - apply keepsAttributes_refl.
Qed.

Lemma later_page K d s : keepsAttributes (page s) d → later K s (withPage d s).
Proof.
  intros HA. exists []. cbn. rewrite app_nil_r. repeat split; [constructor|lia|exact HA].
Qed.

Lemma later_setTimeout K cb delay s : later K s (setTimeout cb delay s).
Proof.
  exists []. cbn. rewrite app_nil_r. repeat split; [constructor|lia|apply keepsAttributes_refl].
Qed.

Lemma later_timers K q n s : later K s (withTimers q n s).
Proof.
  exists []. cbn. rewrite app_nil_r. repeat split; [constructor|lia|apply keepsAttributes_refl].
Qed.

Lemma later_clock K t s : now s ≤ t → later K s (withNow t s).
Proof.
  intros Ht. exists []. cbn. rewrite app_nil_r.
  repeat split; [constructor|lia|apply keepsAttributes_refl].
Qed.

Lemma later_calls K n s : later K s (withCalls n s).
Proof.
  exists []. cbn. rewrite app_nil_r. repeat split; [constructor|lia|apply keepsAttributes_refl].
Qed.

Lemma later_sessions K n s : later K s (withSessions n s).
Proof.
  exists []. cbn. rewrite app_nil_r. repeat split; [constructor|lia|apply keepsAttributes_refl].
Qed.

Ltac later_then lemma := eapply later_trans; [|apply lemma].

Lemma later_setAttributeS K el name value s :
  K (AttributeSet el name value) → later K s (setAttributeS el name value s).
Proof.
  intros HK. unfold setAttributeS.
  later_then later_record; [|exact HK].
  apply later_page, keepsAttributes_setAttribute.
Qed.

Lemma later_writeRegion K region text s :
  K (RegionWritten region text) → later K s (writeRegion region text s).
Proof.
  intros HK. unfold writeRegion.
  later_then later_record; [|exact HK].
  apply later_page, keepsAttributes_withTree.
Qed.

Lemma ambient_role el value : ambient (AttributeSet el "role" value).
Proof. cbn. apply list_elem_of_In. cbn. tauto. Qed.

Lemma ambient_live el value : ambient (AttributeSet el "aria-live" value).
Proof. cbn. apply list_elem_of_In. cbn. tauto. Qed.

Lemma ambient_atomic el value : ambient (AttributeSet el "aria-atomic" value).
Proof. cbn. apply list_elem_of_In. cbn. tauto. Qed.

Lemma later_createRegion K s :
  (∀ el name value, name ∈ ["role"; "aria-live"; "aria-atomic"] → K (AttributeSet el name value)) →
  later K s (createPersistentLiveRegion s).2.
Proof.
  intros HK. unfold createPersistentLiveRegion.
  destruct (getElementById (page s) announcerId) as [[?|region ? ?]|];
    [|apply later_refl|].
  all: destruct (createElement (page s)) as [region d] eqn:E; cbn.
  all: later_then later_page; [|apply keepsAttributes_trans with (d2 := setAttribute region "style" announcerStyle (page (setAttributeS region "aria-atomic" "true" (setAttributeS region "aria-live" "assertive" (setAttributeS region "role" "status" (withPage (setAttribute region "id" announcerId d) s)))))); [apply keepsAttributes_setAttribute | apply keepsAttributes_withTree]].
  all: later_then later_setAttributeS; [|apply HK, list_elem_of_In; cbn; tauto].
  all: later_then later_setAttributeS; [|apply HK, list_elem_of_In; cbn; tauto].
  all: later_then later_setAttributeS; [|apply HK, list_elem_of_In; cbn; tauto].
  all: apply later_page.
  all: eapply keepsAttributes_trans; [|apply keepsAttributes_setAttribute].
  all: replace d with (createElement (page s)).2 by now rewrite E.
  all: apply keepsAttributes_createElement.
Qed.

Lemma later_createPersistentLiveRegion K s :
  (∀ e, ambient e → K e) → later K s (createPersistentLiveRegion s).2.
Proof. intros HK. apply later_createRegion. intros el name value Hin. now apply HK. Qed.

Lemma later_announce K text s : (∀ e, ambient e → K e) → later K s (announce text s).
Proof.
  intros HK. unfold announce.
  destruct (createPersistentLiveRegion (record (Announced text) s)) as [region s1] eqn:E.
  later_then later_setTimeout. later_then later_setTimeout.
  later_then later_writeRegion; [|now apply HK].
  replace s1 with (createPersistentLiveRegion (record (Announced text) s)).2 by now rewrite E.
  later_then later_createPersistentLiveRegion; [|exact HK].
  apply later_record. now apply HK.
Qed.

Lemma later_fire K cb s : (∀ e, ambient e → K e) → later K s (fire cb s).
Proof.
  intros HK. destruct cb as [region text|text]; cbn.
  - apply later_writeRegion. now apply HK.
  - now apply later_announce.
Qed.

Lemma later_eventLoop K fuel ready s :
  (∀ e, ambient e → K e) → later K s (eventLoop fuel ready s).
Proof.
  intros HK. revert s. induction fuel as [|fuel IH]; intros s; cbn; [apply later_refl|].
  destruct (timers s) as [|t rest]; [apply later_refl|].
  destruct (ready t); [|apply later_refl].
  eapply later_trans; [|apply IH].
  later_then later_fire; [|exact HK].
  later_then later_clock; [|cbn; lia].
  apply later_timers.
Qed.

Lemma later_suspend K ms s : (∀ e, ambient e → K e) → later K s (suspend ms s).
Proof.
  intros HK. unfold suspend.
  later_then later_clock; [|lia].
  now apply later_eventLoop.
Qed.

Lemma later_settle K s : (∀ e, ambient e → K e) → later K s (settle s).
Proof. intros HK. now apply later_eventLoop. Qed.

Lemma suspend_now ms s : now s + ms ≤ now (suspend ms s).
Proof. unfold suspend. cbn. lia. Qed.

Lemma later_destroy K session s : K (SessionDestroyed session) → later K s (destroy session s).
Proof. apply later_record. Qed.

(** ** Rules for tasks *)

Lemma run_bind {A B} (m : Task A) (k : A → Task B) s :
  (m ≫= k) s = match m s with
               | (Normal a, s') => k a s'
               | (Throw e, s') => (Throw e, s')
               end.
Proof. reflexivity. Qed.

Lemma runs_ret {A} K (a : A) : runs K (mret a).
Proof. intros s. apply later_refl. Qed.

Lemma runs_throw {A} K message : runs K (@throw A message).
Proof. intros s. apply later_refl. Qed.

Lemma runs_gets {A} K (f : State → A) : runs K (gets f).
Proof. intros s. apply later_refl. Qed.

Lemma runs_modify K f : (∀ s, later K s (f s)) → runs K (modify f).
Proof. intros Hf s. apply Hf. Qed.

Lemma runs_bind {A B} K (m : Task A) (k : A → Task B) :
  runs K m → (∀ a, runs K (k a)) → runs K (m ≫= k).
Proof.
  intros Hm Hk s. rewrite run_bind. specialize (Hm s).
  destruct (m s) as [[a|e] s']; cbn in *; [|exact Hm].
  eapply later_trans; [exact Hm | apply Hk].
Qed.

Lemma runs_tryCatch {A} K (body : Task A) handler :
  runs K body → (∀ e, runs K (handler e)) → runs K (tryCatch body handler).
Proof.
  intros Hb Hh s. unfold tryCatch. specialize (Hb s).
  destruct (body s) as [[a|e] s']; cbn in *; [exact Hb|].
  eapply later_trans; [exact Hb | apply Hh].
Qed.

Lemma runs_tryFinally {A} K (body : Task A) finalizer :
  runs K body → (∀ s, later K s (finalizer s)) → runs K (tryFinally body finalizer).
Proof.
  intros Hb Hf s. unfold tryFinally. specialize (Hb s).
  destruct (body s) as [c s']; cbn in *.
  eapply later_trans; [exact Hb | apply Hf].
Qed.

Lemma runs_when K b t : runs K t → runs K (when b t).
Proof. intros Ht. destruct b; [exact Ht | apply runs_ret]. Qed.

Lemma runs_sleep K ms : (∀ e, ambient e → K e) → runs K (sleep ms).
Proof. intros HK. apply runs_modify. intros s. now apply later_suspend. Qed.

Lemma runs_settled {A} K (o : Outcome A) : runs K (settled o).
Proof. destruct o; [apply runs_ret | apply runs_throw]. Qed.

Lemma runs_weaken {A} (K K' : Event → Prop) (t : Task A) :
  (∀ e, K e → K' e) → runs K t → runs K' t.
Proof. intros HK Ht s. eapply later_weaken; [exact HK | apply Ht]. Qed.

(** Decompose a goal [runs K t] along the structure of [t]. *)
Ltac runs_step :=
  lazymatch goal with
  | |- runs _ (mret _) => apply runs_ret
  | |- runs _ (throw _) => apply runs_throw
  | |- runs _ (gets _) => apply runs_gets
  | |- runs _ (settled _) => apply runs_settled
  | |- runs _ (when _ _) => apply runs_when
  | |- runs _ (modify _) => apply runs_modify; intros ?
  | |- runs _ (_ ≫= _) => apply runs_bind; [|intros ?]
  | |- runs _ (tryCatch _ _) => apply runs_tryCatch; [|intros ?]
  | |- runs _ (tryFinally _ _) => apply runs_tryFinally; [|intros ?]
  | |- runs _ (if ?b then _ else _) => destruct b eqn:?
  | |- runs _ (match ?p with (_, _) => _ end) => destruct p
  end.

Section TaskProperties.
Context `{Rendering} `{Backends}.

Lemma runs_queryAvailability K api :
  (∀ e, ambient e → K e) → K (AvailabilityCalled api) → runs K (queryAvailability api).
Proof.
  intros HK Ha. unfold queryAvailability. repeat runs_step.
  - later_then later_calls. now apply later_record.
  - now apply runs_sleep.
Qed.

Lemma runs_downloadProgress K monitor events :
  (∀ e, ambient e → K e) → (∀ p s, later K s (monitor p s)) →
  runs K (downloadProgress monitor events).
Proof.
  intros HK Hm. induction events as [|[delay percent] rest IH]; cbn [downloadProgress].
  - apply runs_ret.
  - repeat runs_step; [now apply runs_sleep | apply Hm | exact IH].
Qed.

Lemma runs_createSession K api monitor :
  (∀ e, ambient e → K e) → (∀ p s, later K s (monitor p s)) →
  K (CreateCalled api) → (∀ k, K (SessionCreated k)) →
  runs K (createSession api monitor).
Proof.
  intros HK Hm Hc Hs. unfold createSession. repeat runs_step.
  - later_then later_calls. now apply later_record.
  - now apply runs_downloadProgress.
  - now apply runs_sleep.
  - later_then later_sessions. now apply later_record.
Qed.

Lemma runs_generate K api session input :
  (∀ e, ambient e → K e) → K (GenerationCalled session input) →
  runs K (generate api session input).
Proof.
  intros HK Hg. unfold generate. repeat runs_step.
  - later_then later_calls. now apply later_record.
  - now apply runs_sleep.
Qed.

Lemma later_logProgress K percent s : later K s (logProgress percent s).
Proof. apply later_refl. Qed.

Lemma later_overviewProgress K percent s :
  (∀ e, ambient e → K e) → later K s (overviewProgress percent s).
Proof.
  intros HK. unfold overviewProgress.
  destruct (percent `mod` 25 =? 0); [now apply later_announce | apply later_refl].
Qed.

Lemma later_insertNote K heading summary s :
  (∀ e, ambient e → K e) → (∀ note, K (NoteInserted heading note)) →
  later K s (insertNote heading summary s).
Proof.
  intros HK Hn. unfold insertNote.
  destruct (createElement (page s)) as [summaryBox d] eqn:E.
  destruct (createElement (page (setAttributeS summaryBox "role" "note"
              (withPage (setAttribute summaryBox "class" "cognitive-section-summary" d) s))))
    as [em d'] eqn:E'.
  later_then later_record; [|apply Hn].
  eapply later_trans; [|apply later_page].
  - later_then later_setAttributeS; [|apply HK, ambient_role].
    apply later_page. eapply keepsAttributes_trans; [|apply keepsAttributes_setAttribute].
    replace d with (createElement (page s)).2 by now rewrite E.
    apply keepsAttributes_createElement.
  - eapply keepsAttributes_trans; [|apply keepsAttributes_withTree].
    match type of E' with createElement ?p = _ =>
      replace d' with (createElement p).2 by now rewrite E' end.
    apply keepsAttributes_createElement.
Qed.

Lemma later_insertOverview K summary s :
  (∀ e, ambient e → K e) → (∀ box, K (OverviewInserted box)) →
  later K s (insertOverview summary s).
Proof.
  intros HK Hn. unfold insertOverview.
  destruct (createElement (page s)) as [summaryBox d] eqn:E.
  match goal with |- context [createElement (page ?st)] =>
    destruct (createElement (page st)) as [title d1] eqn:E1 end.
  destruct (createElement d1) as [content d2] eqn:E2.
  later_then later_record; [|apply Hn].
  eapply later_trans; [|apply later_page].
  - later_then later_setAttributeS; [|apply HK, ambient_live].
    later_then later_setAttributeS; [|apply HK, ambient_role].
    apply later_page.
    replace d with (createElement (page s)).2 by now rewrite E.
    apply keepsAttributes_createElement.
  - eapply keepsAttributes_trans; [|apply keepsAttributes_withTree].
    apply keepsAttributes_trans with (d2 := d1).
    + match type of E1 with createElement ?p = _ =>
        replace d1 with (createElement p).2 by now rewrite E1 end.
      apply keepsAttributes_createElement.
    + replace d2 with (createElement d1).2 by now rewrite E2.
      apply keepsAttributes_createElement.
Qed.

End TaskProperties.

(** ** Generated labels *)

Lemma ambient_shortLabel e : ambient e → shortLabel e.
Proof.
  destruct e; cbn; try tauto.
  intros Hin ->. exfalso. apply list_elem_of_In in Hin. cbn in Hin.
  intuition discriminate.
Qed.

Lemma labelWrites_shortLabel entries :
  Forall (λ te : nat * Event, shortLabel te.2) entries →
  Forall (λ v, String.length v ≤ 60 ∧ wordCount v ≤ 8) (labelWrites entries).
Proof.
  induction 1 as [|[t e] entries He _ IH]; cbn; [constructor|].
  destruct e; cbn in *; try exact IH.
  destruct (String.eqb name "aria-label") eqn:E; [|exact IH].
  apply String.eqb_eq in E. constructor; [now apply He | exact IH].
Qed.

Section LabelProperties.
Context `{Rendering} `{Backends}.

Lemma runs_fixLabel session total index element successCount :
  runs shortLabel (fixLabel session total index element successCount).
Proof.
  unfold fixLabel. repeat runs_step.
  - apply runs_sleep, ambient_shortLabel.
  - apply runs_generate; [apply ambient_shortLabel | exact I].
  - apply later_setAttributeS. cbn. intros _. split.
    + apply cleanLabel_length.
    + now apply acceptLabel_words.
  - apply later_setAttributeS. cbn. discriminate.
  - apply later_announce, ambient_shortLabel.
Qed.

Lemma runs_fixLabels session total index elements successCount :
  runs shortLabel (fixLabels session total index elements successCount).
Proof.
  revert index successCount.
  induction elements as [|element rest IH]; intros index successCount; cbn [fixLabels].
  - apply runs_ret.
  - apply runs_bind; [apply runs_fixLabel | intros ?; apply IH].
Qed.

Lemma runs_fixContextLabels : runs shortLabel fixContextLabels.
Proof.
  unfold fixContextLabels. repeat runs_step.
  all: try (apply later_announce, ambient_shortLabel).
  - apply runs_queryAvailability; [apply ambient_shortLabel | exact I].
  - apply runs_createSession;
      [apply ambient_shortLabel | intros; apply later_logProgress | exact I | intros; exact I].
  - apply runs_fixLabels.
  - now apply later_destroy.
Qed.

(** ** C10: every [aria-label] that [fixContextLabels] writes has at most
    60 characters, and at most 8 space-separated words. *)
Theorem fixContextLabels_label_length (s : State) :
  Forall (λ v, String.length v ≤ 60 ∧ wordCount v ≤ 8)
         (labelWrites (added s (fixContextLabels s).2)).
Proof.
  apply labelWrites_shortLabel.
  eapply Forall_impl; [apply (later_added_self shortLabel), runs_fixContextLabels|].
  cbn. tauto.
Qed.

End LabelProperties.

Example fixContextLabels_controlsPage :
  labelWrites (added (freshState controlsPage)
                 (@fixContextLabels plainRendering steadyBackends (freshState controlsPage)).2)
  = ["Open the pricing page"; "Open the pricing page"; "Open the pricing page"].
Proof. vm_compute. reflexivity. Qed.

(** ** Hoare rules *)

Lemma triple_ret {A} (P : State → Prop) (a : A) Q :
  (∀ s, P s → Q (Normal a) s) → triple P (mret a) Q.
Proof. intros HQ s HP. now apply HQ. Qed.

Lemma triple_throw {A} (P : State → Prop) message (Q : Completion A → State → Prop) :
  (∀ s, P s → Q (Throw message) s) → triple P (throw message) Q.
Proof. intros HQ s HP. now apply HQ. Qed.

Lemma triple_gets {A} (P : State → Prop) (f : State → A) Q :
  (∀ s, P s → Q (Normal (f s)) s) → triple P (gets f) Q.
Proof. intros HQ s HP. now apply HQ. Qed.

Lemma triple_modify (P : State → Prop) f Q :
  (∀ s, P s → Q (Normal tt) (f s)) → triple P (modify f) Q.
Proof. intros HQ s HP. now apply HQ. Qed.

Lemma triple_bind {A B} (P : State → Prop) (R : Completion A → State → Prop)
    (Q : Completion B → State → Prop) (m : Task A) (k : A → Task B) :
  triple P m R →
  (∀ a, triple (R (Normal a)) (k a) Q) →
  (∀ e s, R (Throw e) s → Q (Throw e) s) →
  triple P (m ≫= k) Q.
Proof.
  intros Hm Hk He s HP. rewrite run_bind. specialize (Hm s HP).
  destruct (m s) as [[a|e] s']; cbn in *; [now apply Hk | now apply He].
Qed.

Lemma triple_tryCatch {A} (P : State → Prop) (R Q : Completion A → State → Prop) body handler :
  triple P body R →
  (∀ a s, R (Normal a) s → Q (Normal a) s) →
  (∀ e, triple (R (Throw e)) (handler e) Q) →
  triple P (tryCatch body handler) Q.
Proof.
  intros Hb Hn Hh s HP. unfold tryCatch. specialize (Hb s HP).
  destruct (body s) as [[a|e] s']; cbn in *; [now apply Hn | now apply Hh].
Qed.

Lemma triple_tryFinally {A} (P : State → Prop) (R Q : Completion A → State → Prop) body finalizer :
  triple P body R →
  (∀ c s, R c s → Q c (finalizer s)) →
  triple P (tryFinally body finalizer) Q.
Proof.
  intros Hb Hf s HP. unfold tryFinally. specialize (Hb s HP).
  destruct (body s) as [c s']; cbn in *. now apply Hf.
Qed.

Lemma triple_runs {A} K (P : State → Prop) (t : Task A) :
  stable K P → runs K t → triple P t (λ _, P).
Proof. intros HS Ht s HP. eapply HS; [apply Ht | exact HP]. Qed.

Lemma triple_pre {A} (P P' : State → Prop) (t : Task A) Q :
  (∀ s, P' s → P s) → triple P t Q → triple P' t Q.
Proof. intros HP Ht s Hs. apply Ht, HP, Hs. Qed.

(** After [modify], the state has changed; no exception comes out. *)
Lemma triple_modify_bind {B} (P R : State → Prop) (Q : Completion B → State → Prop)
    f (k : unit → Task B) :
  (∀ s, P s → R (f s)) → triple R (k tt) Q → triple P (modify f ≫= k) Q.
Proof.
  intros Hf Hk s HP. rewrite run_bind. cbn. now apply Hk, Hf.
Qed.

(** Sequencing after a task that only leads to later states. *)
Lemma triple_after {A B} K (P : State → Prop) (Q : Completion B → State → Prop)
    (m : Task A) (k : A → Task B) :
  stable K P → runs K m →
  (∀ a, triple P (k a) Q) →
  (∀ e s, P s → Q (Throw e) s) →
  triple P (m ≫= k) Q.
Proof.
  intros HS Hm Hk He. eapply triple_bind with (R := λ _, P).
  - now apply (triple_runs K).
  - exact Hk.
  - exact He.
Qed.

(** After [gets], the value is known. *)
Lemma triple_gets_bind {A B} (P : State → Prop) (Q : Completion B → State → Prop)
    (f : State → A) (k : A → Task B) :
  (∀ a, triple (λ s, P s ∧ f s = a) (k a) Q) → triple P (gets f ≫= k) Q.
Proof.
  intros Hk s HP. rewrite run_bind. cbn. now apply Hk.
Qed.

(** ** Pacing *)

Lemma generationTimes_app a b : generationTimes (a ++ b) = generationTimes a ++ generationTimes b.
Proof. unfold generationTimes. now rewrite List.filter_app, map_app. Qed.

Lemma notCall_notGeneration e : notCall e → notGeneration e.
Proof. destruct e; cbn; (reflexivity || discriminate). Qed.

Lemma generationTimes_quiet entries :
  Forall (λ te : nat * Event, notGeneration te.2) entries → generationTimes entries = [].
Proof.
  induction 1 as [|[t e] entries He _ IH]; [reflexivity|].
  unfold generationTimes in *. cbn in *. unfold notGeneration in He. now rewrite He.
Qed.

Lemma generationTimes_elem entries i x :
  entries !! i = Some x → isGeneration x.2 = true → x.1 ∈ generationTimes entries.
Proof.
  revert i. induction entries as [|y entries IH]; intros [|i] Hi Hx; try discriminate.
  - injection Hi as ->. unfold generationTimes. cbn. rewrite Hx. cbn. apply list_elem_of_here.
  - unfold generationTimes in *. cbn.
    destruct (isGeneration y.2); cbn; [apply list_elem_of_further|]; eapply IH; eassumption.
Qed.

Lemma spaced_snoc delay times t :
  spaced delay times → Forall (λ x, x + delay ≤ t) times → spaced delay (times ++ [t]).
Proof.
  induction times as [|a rest IH]; intros Hs Hf; cbn; [tauto|].
  destruct Hs as [Hhead Hrest]. apply Forall_cons in Hf as [Ha Hf].
  split; [|now apply IH].
  destruct rest as [|b rest']; cbn; [exact Ha | exact Hhead].
Qed.

Lemma callsPaced_quiet delay entries more :
  callsPaced delay entries → Forall (λ te : nat * Event, notCall te.2) more →
  callsPaced delay (entries ++ more).
Proof.
  intros Hp Hq i j x y Hij Hi Hj Hx Hy.
  destruct (decide (j < length entries)) as [Hlt|Hge].
  - rewrite lookup_app_l in Hi, Hj by lia. now apply (Hp i j).
  - rewrite lookup_app_r in Hj by lia.
    rewrite Forall_lookup in Hq. specialize (Hq _ _ Hj). unfold notCall in Hq. congruence.
Qed.

Lemma callsPaced_snoc delay entries t e :
  callsPaced delay entries → Forall (λ g, g + delay ≤ t) (generationTimes entries) →
  callsPaced delay (entries ++ [(t, e)]).
Proof.
  intros Hp Hg i j x y Hij Hi Hj Hx Hy.
  destruct (decide (j < length entries)) as [Hlt|Hge].
  - rewrite lookup_app_l in Hi, Hj by lia. now apply (Hp i j).
  - rewrite lookup_app_r in Hj by lia.
    destruct (j - length entries) as [|k] eqn:Ek; [|destruct k; discriminate].
    injection Hj as <-. cbn.
    rewrite lookup_app_l in Hi by lia.
    rewrite Forall_forall in Hg. apply Hg. eapply generationTimes_elem; eassumption.
Qed.

Lemma callsPaced_nil delay : callsPaced delay [].
Proof. intros i j x y _ Hi. discriminate. Qed.

Lemma added_quiet s0 s s' :
  length (log s0) ≤ length (log s) → later notCall s s' →
  generationTimes (added s0 s') = generationTimes (added s0 s).
Proof.
  intros Hl Hlater. destruct (later_added _ s0 s s' Hl Hlater) as (entries & -> & F).
  rewrite generationTimes_app, (generationTimes_quiet entries), app_nil_r; [reflexivity|].
  eapply Forall_impl; [exact F|]. cbn. intros te [Hk _]. now apply notCall_notGeneration.
Qed.

Lemma later_now K s s' : later K s s' → now s ≤ now s'.
Proof. intros (? & _ & _ & N & _). exact N. Qed.

Lemma paced_stable delay s0 : stable notCall (pacedSoFar delay s0).
Proof.
  intros s s' Hlater (Hl & Hn & Hb & Hs & Hc).
  pose proof (later_log_length _ _ _ Hlater). pose proof (later_now _ _ _ Hlater).
  unfold pacedSoFar. rewrite (added_quiet s0 s s' Hl Hlater).
  repeat split; [lia | lia | | exact Hs |].
  - eapply Forall_impl; [exact Hb|]. cbn. lia.
  - destruct (later_added _ s0 s s' Hl Hlater) as (entries & -> & F).
    apply callsPaced_quiet; [exact Hc|].
    eapply Forall_impl; [exact F|]. cbn. tauto.
Qed.

Lemma rested_stable delay s0 : stable notCall (rested delay s0).
Proof.
  intros s s' Hlater (Hp & Hf).
  pose proof (later_now _ _ _ Hlater).
  split; [now apply (paced_stable delay s0 s s')|].
  rewrite (added_quiet s0 s s') by (assumption || apply Hp).
  eapply Forall_impl; [exact Hf|]. cbn. lia.
Qed.

Lemma ready_stable delay s0 : stable notCall (readyToCall delay s0).
Proof.
  intros s s' Hlater (Hr & Hn).
  pose proof (later_now _ _ _ Hlater).
  split; [now apply (rested_stable delay s0 s s') | lia].
Qed.

Lemma rested_paced delay s0 s : rested delay s0 s → pacedSoFar delay s0 s.
Proof. now intros [Hp _]. Qed.

Lemma ready_rested delay s0 s : readyToCall delay s0 s → rested delay s0 s.
Proof. now intros [Hr _]. Qed.

Lemma ready_paced delay s0 s : readyToCall delay s0 s → pacedSoFar delay s0 s.
Proof. intros Hr. now apply rested_paced, ready_rested. Qed.

Lemma ready_after_wait delay s0 s s' :
  pacedSoFar delay s0 s → later notCall s s' → now s + delay ≤ now s' →
  readyToCall delay s0 s'.
Proof.
  intros Hp Hlater Hw.
  pose proof (paced_stable delay s0 s s' Hlater Hp) as Hp'.
  destruct Hp as (Hl & Hn & Hb & Hs & Hc).
  split; [split; [exact Hp'|] | lia].
  rewrite (added_quiet s0 s s' Hl Hlater).
  eapply Forall_impl; [exact Hb|]. cbn. lia.
Qed.

(** Creating a session when every generation call lies [delay] back. *)
Lemma rested_created delay s0 s api :
  rested delay s0 s → rested delay s0 (record (CreateCalled api) s).
Proof.
  intros ((Hl & Hn & Hb & Hs & Hc) & Hf). unfold rested, pacedSoFar, added. cbn.
  rewrite length_app, drop_app_le by exact Hl. fold (added s0 s).
  rewrite generationTimes_app. cbn. rewrite app_nil_r.
  repeat split; try assumption; [lia|].
  now apply callsPaced_snoc.
Qed.

Lemma ready_created delay s0 s api :
  readyToCall delay s0 s → readyToCall delay s0 (record (CreateCalled api) s).
Proof. intros [Hr Hn]. split; [now apply rested_created | exact Hn]. Qed.

Lemma paced_generation delay s0 s session input :
  readyToCall delay s0 s → pacedSoFar delay s0 (record (GenerationCalled session input) s).
Proof.
  intros (((Hl & Hn & Hb & Hs & Hc) & Hf) & Hr). unfold pacedSoFar, added. cbn.
  rewrite length_app, drop_app_le by exact Hl. fold (added s0 s).
  rewrite generationTimes_app. cbn.
  repeat split; [lia | lia | | now apply spaced_snoc | now apply callsPaced_snoc].
  apply Forall_app. split; [exact Hb|]. repeat constructor; lia.
Qed.

Lemma rested_start delay s : rested delay s s.
Proof.
  unfold rested, pacedSoFar, added. rewrite drop_all. cbn.
  repeat split; try lia; try constructor. apply callsPaced_nil.
Qed.

Lemma paced_conclusion delay s0 s : pacedSoFar delay s0 s → paced delay (now s0) (added s0 s).
Proof.
  intros (_ & _ & Hb & Hs & Hc). split; [|split; assumption].
  eapply Forall_impl; [exact Hb|]. cbn. lia.
Qed.

Lemma ambient_notGeneration e : ambient e → notGeneration e.
Proof. destruct e; cbn; (reflexivity || tauto). Qed.

Lemma ambient_notCall e : ambient e → notCall e.
Proof. destruct e; cbn; (reflexivity || tauto). Qed.

Ltac kind_leaf := first [reflexivity | exact I | assumption | discriminate].

(** Solve [runs K t] for the tasks of the script, given the lemma that
    places the ambient events in [K]. *)
Ltac runs_with ambientLemma :=
  repeat runs_step;
  try first
    [ apply runs_sleep, ambientLemma
    | apply runs_queryAvailability; [apply ambientLemma | kind_leaf]
    | apply runs_createSession;
        [ apply ambientLemma
        | intros; first [apply later_logProgress | apply later_overviewProgress, ambientLemma]
        | kind_leaf
        | intros; kind_leaf ]
    | apply runs_generate; [apply ambientLemma | kind_leaf]
    | apply later_announce, ambientLemma
    | apply later_setAttributeS; kind_leaf
    | apply later_insertNote; [apply ambientLemma | intros; kind_leaf]
    | apply later_insertOverview; [apply ambientLemma | intros; kind_leaf]
    | apply later_destroy; kind_leaf
    | apply later_setTimeout ].

Section PacingProperties.
Context `{Rendering} `{Backends}.

(** A session may be created in any state that stays as it is when the
    call is logged. *)
Lemma triple_createSession (P : State → Prop) api monitor :
  stable notCall P →
  (∀ s, P s → P (record (CreateCalled api) s)) →
  (∀ percent s, later notCall s (monitor percent s)) →
  triple P (createSession api monitor) (λ _, P).
Proof.
  intros HS Hc Hm. unfold createSession. apply triple_gets_bind. intros n.
  eapply triple_bind with (R := λ _, P).
  - apply triple_modify. intros s [HP _].
    eapply HS; [apply later_calls | now apply Hc].
  - intros ?. destruct (create (capability api) n) as [progress [elapsed outcome]].
    apply (triple_runs notCall); [exact HS|].
    repeat runs_step.
    + now apply runs_downloadProgress; [apply ambient_notCall|].
    + apply runs_sleep, ambient_notCall.
    + later_then later_sessions. now apply later_record.
  - cbn. auto.
Qed.

Lemma triple_generate delay s0 api session input :
  triple (readyToCall delay s0) (generate api session input) (λ _, pacedSoFar delay s0).
Proof.
  unfold generate. apply triple_gets_bind. intros n.
  eapply triple_bind with (R := λ _, pacedSoFar delay s0).
  - apply triple_modify. intros s [Hr _].
    eapply paced_stable; [apply later_calls | now apply paced_generation].
  - intros ?. destruct (run (capability api) n input) as [elapsed outcome].
    apply (triple_runs notCall); [apply paced_stable|].
    runs_with ambient_notCall.
  - cbn. intros ? ? ?. assumption.
Qed.

(** The delay at the head of a turn. *)
Lemma triple_pacing_delay delay s0 :
  triple (pacedSoFar delay s0) (sleep delay) (λ _, readyToCall delay s0).
Proof.
  apply triple_modify. intros s Hp.
  eapply ready_after_wait;
    [exact Hp | apply later_suspend, ambient_notCall | apply suspend_now].
Qed.

(** One step of a proof that a task keeps the run paced: the
    precondition is one of the three phases, the postcondition is
    [pacedSoFar]. *)
Ltac paced_step :=
  cbv beta;
  lazymatch goal with
  | |- triple _ (mret _) _ =>
      apply triple_ret; intros ? ?; eauto using ready_paced, rested_paced
  | |- triple _ (if ?b then _ else _) _ => destruct b eqn:?
  | |- triple (readyToCall ?d ?s0) (generate _ _ _ ≫= _) _ =>
      eapply triple_bind with (R := λ _, pacedSoFar d s0);
        [apply triple_generate | intros ? | cbn; intros ? ? ?; assumption]
  | |- triple (readyToCall ?d ?s0) (createSession _ _ ≫= _) _ =>
      eapply triple_bind with (R := λ _, readyToCall d s0);
        [ apply triple_createSession;
            [ apply ready_stable
            | intros ? ?; now apply ready_created
            | intros; first [apply later_logProgress | apply later_overviewProgress, ambient_notCall] ]
        | intros ?
        | cbn; intros ? ? ?; eauto using ready_paced ]
  | |- triple (rested ?d ?s0) (createSession _ _ ≫= _) _ =>
      eapply triple_bind with (R := λ _, rested d s0);
        [ apply triple_createSession;
            [ apply rested_stable
            | intros ? ?; now apply rested_created
            | intros; first [apply later_logProgress | apply later_overviewProgress, ambient_notCall] ]
        | intros ?
        | cbn; intros ? ? ?; eauto using rested_paced ]
  | |- triple (readyToCall _ _) (_ ≫= _) _ =>
      eapply (triple_after notCall);
        [ apply ready_stable
        | runs_with ambient_notCall
        | intros ?
        | intros ? ? ?; eauto using ready_paced ]
  | |- triple (rested _ _) (_ ≫= _) _ =>
      eapply (triple_after notCall);
        [ apply rested_stable
        | runs_with ambient_notCall
        | intros ?
        | intros ? ? ?; eauto using rested_paced ]
  | |- triple (pacedSoFar _ _) (_ ≫= _) _ =>
      eapply (triple_after notCall);
        [ apply paced_stable
        | runs_with ambient_notCall
        | intros ?
        | intros ? ? ?; assumption ]
  | |- triple (pacedSoFar _ _) _ _ =>
      apply (triple_runs notCall); [apply paced_stable | runs_with ambient_notCall]
  | |- triple (rested ?d ?s0) _ _ =>
      apply (triple_pre (pacedSoFar d s0)); [apply rested_paced|];
      apply (triple_runs notCall); [apply paced_stable | runs_with ambient_notCall]
  end.

Ltac paced_turn :=
  eapply triple_bind;
    [ apply triple_pacing_delay
    | intros ?;
      lazymatch goal with
      | |- triple _ _ (λ _, pacedSoFar ?d ?s0) =>
          eapply triple_tryCatch with (R := λ _, pacedSoFar d s0)
      end;
        [ repeat paced_step
        | cbn; intros ? ? ?; assumption
        | intros ?; apply triple_ret; intros ? ?; assumption ]
    | cbn; intros ? ? ?; eauto using ready_paced ].

Lemma summarizeHeading_paced s0 total index heading successCount :
  triple (pacedSoFar 1000 s0) (summarizeHeading total index heading successCount)
         (λ _, pacedSoFar 1000 s0).
Proof. unfold summarizeHeading. paced_turn. Qed.

Lemma fixLabel_paced s0 session total index element successCount :
  triple (pacedSoFar 600 s0) (fixLabel session total index element successCount)
         (λ _, pacedSoFar 600 s0).
Proof. unfold fixLabel. paced_turn. Qed.

Lemma describeHeading_paced s0 session total index heading successCount :
  triple (pacedSoFar 800 s0) (ContentJs.describeHeading session total index heading successCount)
         (λ _, pacedSoFar 800 s0).
Proof. unfold ContentJs.describeHeading. paced_turn. Qed.

Lemma summarizeHeadings_paced s0 total index headings successCount :
  triple (pacedSoFar 1000 s0) (summarizeHeadings total index headings successCount)
         (λ _, pacedSoFar 1000 s0).
Proof.
  revert index successCount.
  induction headings as [|heading rest IH]; intros index successCount; cbn [summarizeHeadings].
  - apply triple_ret. auto.
  - eapply triple_bind; [apply summarizeHeading_paced | intros ?; apply IH | auto].
Qed.

Lemma fixLabels_paced s0 session total index elements successCount :
  triple (pacedSoFar 600 s0) (fixLabels session total index elements successCount)
         (λ _, pacedSoFar 600 s0).
Proof.
  revert index successCount.
  induction elements as [|element rest IH]; intros index successCount; cbn [fixLabels].
  - apply triple_ret. auto.
  - eapply triple_bind; [apply fixLabel_paced | intros ?; apply IH | auto].
Qed.

Lemma describeHeadings_paced s0 session total index headings successCount :
  triple (pacedSoFar 800 s0) (ContentJs.describeHeadings session total index headings successCount)
         (λ _, pacedSoFar 800 s0).
Proof.
  revert index successCount.
  induction headings as [|heading rest IH]; intros index successCount;
    cbn [ContentJs.describeHeadings].
  - apply triple_ret. auto.
  - eapply triple_bind; [apply describeHeading_paced | intros ?; apply IH | auto].
Qed.

(** The loops start from [rested]: it implies [pacedSoFar]. *)
Ltac loop_step :=
  cbv beta;
  lazymatch goal with
  | |- triple (rested ?d ?s0) (summarizeHeadings _ _ _ _ ≫= _) _ =>
      eapply triple_bind with (R := λ _, pacedSoFar d s0);
        [ apply (triple_pre (pacedSoFar d s0)); [apply rested_paced|];
          apply summarizeHeadings_paced
        | intros ?
        | cbn; auto ]
  | |- triple (rested ?d ?s0) (tryFinally (fixLabels _ _ _ _ _) _ ≫= _) _ =>
      eapply triple_bind with (R := λ _, pacedSoFar d s0);
        [ apply (triple_pre (pacedSoFar d s0)); [apply rested_paced|];
          eapply triple_tryFinally; [apply fixLabels_paced|];
          cbn; intros ? ? ?; eapply paced_stable; [now apply later_destroy | assumption]
        | intros ?
        | cbn; auto ]
  | |- triple (rested ?d ?s0) (tryFinally (ContentJs.describeHeadings _ _ _ _ _) _ ≫= _) _ =>
      eapply triple_bind with (R := λ _, pacedSoFar d s0);
        [ apply (triple_pre (pacedSoFar d s0)); [apply rested_paced|];
          eapply triple_tryFinally; [apply describeHeadings_paced|];
          cbn; intros ? ? ?; eapply paced_stable; [now apply later_destroy | assumption]
        | intros ?
        | cbn; auto ]
  | _ => paced_step
  end.

Ltac paced_pipeline :=
  eapply (triple_after notCall);
    [ apply rested_stable
    | runs_with ambient_notCall
    | intros ?;
      lazymatch goal with
      | |- triple _ _ (λ _, pacedSoFar ?d ?s0) =>
          eapply triple_tryCatch with (R := λ _, pacedSoFar d s0)
      end;
        [ repeat loop_step
        | cbn; intros ? ? ?; assumption
        | intros ?; apply (triple_runs notCall);
            [apply paced_stable | runs_with ambient_notCall] ]
    | cbn; intros ? ? ?; eauto using rested_paced ].

Lemma generateCues_paced s0 : triple (rested 1000 s0) generateCues (λ _, pacedSoFar 1000 s0).
Proof. unfold generateCues. paced_pipeline. Qed.

Lemma fixContextLabels_paced s0 :
  triple (rested 600 s0) fixContextLabels (λ _, pacedSoFar 600 s0).
Proof. unfold fixContextLabels. paced_pipeline. Qed.

Lemma contentJs_generateCues_paced s0 :
  triple (rested 800 s0) ContentJs.generateCues (λ _, pacedSoFar 800 s0).
Proof. unfold ContentJs.generateCues. paced_pipeline. Qed.

(** Within a run, every generation call comes after the pacing delay of
    its turn: at least the delay after the start of the run and after
    the previous generation call, and no call to the backend (creating a
    session, generating text) comes sooner than the delay after a
    generation call. *)
Lemma generation_calls_paced (s : State) :
  paced 1000 (now s) (added s (generateCues s).2)
  ∧ paced 800 (now s) (added s (ContentJs.generateCues s).2)
  ∧ paced 600 (now s) (added s (fixContextLabels s).2).
Proof.
  split; [|split]; apply paced_conclusion.
  - apply (generateCues_paced s s), rested_start.
  - apply (contentJs_generateCues_paced s s), rested_start.
  - apply (fixContextLabels_paced s s), rested_start.
Qed.

End PacingProperties.

(** ** Marked headings and their notes *)

Lemma countEvents_app p a b : countEvents p (a ++ b) = countEvents p a + countEvents p b.
Proof. unfold countEvents. now rewrite List.filter_app, length_app. Qed.

Lemma countEvents_none p (K : Event → Prop) entries :
  (∀ e, K e → p e = false) →
  Forall (λ te : nat * Event, K te.2) entries → countEvents p entries = 0.
Proof.
  intros HK. induction 1 as [|[t e] entries He _ IH]; [reflexivity|].
  unfold countEvents in *. cbn in *. now rewrite (HK e He).
Qed.

Lemma later_count p (K : Event → Prop) s0 s s' :
  (∀ e, K e → p e = false) →
  length (log s0) ≤ length (log s) → later K s s' →
  countEvents p (added s0 s') = countEvents p (added s0 s).
Proof.
  intros HK Hl Hlater. destruct (later_added _ s0 s s' Hl Hlater) as (entries & -> & F).
  rewrite countEvents_app, (countEvents_none p K entries HK); [lia|].
  eapply Forall_impl; [exact F|]. cbn. tauto.
Qed.

Lemma later_keeps K s s' el name :
  later K s s' → hasAttribute (page s) el name = true → hasAttribute (page s') el name = true.
Proof. intros (? & _ & _ & _ & HA). apply HA. Qed.





Section NoteProperties.
Context `{Rendering} `{Backends}.










Lemma runs_summarizeHeading total index heading successCount :
  runs anyEvent (summarizeHeading total index heading successCount).
Proof. unfold summarizeHeading. runs_with (λ e (_ : ambient e), I : anyEvent e). Qed.



End NoteProperties.


Example marks_after_each_run :
  let s1 := (@generateCues plainRendering busyBackends (freshState twoSections)).2 in
  let s2 := (@generateCues plainRendering busyBackends s1).2 in
  markedHeadings (page s1) = [4] ∧ markedHeadings (page s2) = [2; 4].
Proof. vm_compute. split; reflexivity. Qed.

(** ** Sessions *)

(** C3 at its failing input: [summarize] is rejected in
    [generateOverview]; the session the run created is never destroyed. *)
Lemma generateOverview_leaks_session :
  let s := freshState twoSections in
  let entries := added s (settle (@generateOverview plainRendering busyBackends s).2) in
  sessionsCreated entries = [0]
  ∧ timesDestroyed 0 entries = 0
  ∧ lastAnnouncement entries = Some "AI Overview failed. Error: The model is busy".
Proof. vm_compute. repeat split; reflexivity. Qed.

(** C2 at its failing input: [summarize] is rejected for the first
    heading of [generateCues]; its session stays live, and the turn of
    the second heading creates another one. *)
Lemma generateCues_second_session_while_first_live :
  let s := freshState twoSections in
  let entries := added s (@generateCues plainRendering busyBackends s).2 in
  sessionsCreated entries = [0; 1]
  ∧ peakLive [] entries = 2
  ∧ liveSessions [] entries = [0].
Proof. vm_compute. repeat split; reflexivity. Qed.

(** With a capability that answers every call, the sessions of
    [generateCues] follow one another. *)
Example generateCues_sessions_in_turn :
  let s := freshState twoSections in
  let entries := added s (@generateCues plainRendering steadyBackends s).2 in
  sessionsCreated entries = [0; 1]
  ∧ peakLive [] entries = 1
  ∧ liveSessions [] entries = [].
Proof. vm_compute. repeat split; reflexivity. Qed.

(** ** The three-heading scenario *)

(** C4 as stated fails: on [threeSections] the section of 40 characters
    is submitted as well as the one of 200 characters; only the section
    of 20 characters is skipped, and the final count is 2. *)
Lemma threeSections_first_heading_submitted :
  ¬ @onlyThirdSummarized plainRendering steadyBackends threeSections 9.
Proof.
  intros [Hg _]. vm_compute in Hg. discriminate.
Qed.

Example threeSections_run :
  let s := freshState threeSections in
  let entries := added s (@generateCues plainRendering steadyBackends s).2 in
  map String.length (generationInputs entries) = [40; 200]
  ∧ lastAnnouncement entries
    = Some "Section summaries complete. Generated 2 summaries. Navigate the page to see them.".
Proof. vm_compute. split; reflexivity. Qed.

Example threeSections_lengths :
  querySelectorAll threeSections headingTags = [3; 6; 9]
  ∧ map (λ h, String.length (@getSectionContent plainRendering threeSections h)) [3; 6; 9]
    = [40; 20; 200].
Proof. vm_compute. split; reflexivity. Qed.

(** ** Evaluating tasks *)

Lemma run_ret {A} (a : A) s : (mret a : Task A) s = (Normal a, s).
Proof. reflexivity. Qed.

Lemma run_gets {A} (f : State → A) s : gets f s = (Normal (f s), s).
Proof. reflexivity. Qed.

Lemma run_modify f s : modify f s = (Normal tt, f s).
Proof. reflexivity. Qed.

Lemma run_gets_bind {A B} (f : State → A) (k : A → Task B) s : (gets f ≫= k) s = k (f s) s.
Proof. reflexivity. Qed.

Lemma run_modify_bind {B} f (k : unit → Task B) s : (modify f ≫= k) s = k tt (f s).
Proof. reflexivity. Qed.

Lemma run_sleep_bind {B} ms (k : unit → Task B) s : (sleep ms ≫= k) s = k tt (suspend ms s).
Proof. reflexivity. Qed.

Lemma run_ret_bind {A B} (a : A) (k : A → Task B) s : (mret a ≫= k) s = k a s.
Proof. reflexivity. Qed.

Lemma run_throw_bind {A B} message (k : A → Task B) s :
  (throw message ≫= k) s = (Throw message, s).
Proof. reflexivity. Qed.

(** *** The backend call counter *)

Lemma calls_createPersistentLiveRegion s : calls (createPersistentLiveRegion s).2 = calls s.
Proof.
  unfold createPersistentLiveRegion.
  destruct (getElementById (page s) announcerId) as [[?|? ? ?]|]; try reflexivity.
  all: destruct (createElement (page s)); reflexivity.
Qed.

Lemma calls_announce text s : calls (announce text s) = calls s.
Proof.
  unfold announce.
  destruct (createPersistentLiveRegion (record (Announced text) s)) as [region s1] eqn:E.
  cbn. change s1 with (region, s1).2. rewrite <- E.
  now rewrite calls_createPersistentLiveRegion.
Qed.

Lemma calls_fire cb s : calls (fire cb s) = calls s.
Proof. destruct cb; [reflexivity | apply calls_announce]. Qed.

Lemma calls_eventLoop fuel ready s : calls (eventLoop fuel ready s) = calls s.
Proof.
  revert s. induction fuel as [|fuel IH]; intros s; cbn; [reflexivity|].
  destruct (timers s) as [|t rest]; [reflexivity|].
  destruct (ready t); [|reflexivity].
  now rewrite IH, calls_fire.
Qed.

Lemma calls_suspend ms s : calls (suspend ms s) = calls s.
Proof. unfold suspend. cbn. apply calls_eventLoop. Qed.

Section EvaluationProperties.
Context `{Rendering} `{Backends}.

Lemma downloadProgress_log events s :
  ∃ s', downloadProgress logProgress events s = (Normal tt, s')
        ∧ calls s' = calls s ∧ later notGeneration s s'.
Proof.
  revert s. induction events as [|[delay percent] rest IH]; intros s; cbn [downloadProgress].
  - exists s. repeat split. apply later_refl.
  - rewrite run_sleep_bind, run_modify_bind. unfold logProgress at 1.
    destruct (IH (suspend delay s)) as (s' & E & Hc & Hl).
    exists s'. split; [exact E|]. split.
    + now rewrite Hc, calls_suspend.
    + eapply later_trans; [|exact Hl]. apply later_suspend, ambient_notGeneration.
Qed.

Lemma createSession_resolved api s :
  (create (capability api) (calls s)).2.2 = Resolved tt →
  ∃ session s', createSession api logProgress s = (Normal session, s')
                ∧ calls s' = S (calls s) ∧ later notGeneration s s'.
Proof.
  intros Hres. unfold createSession.
  rewrite run_gets_bind, run_modify_bind.
  destruct (create (capability api) (calls s)) as [progress [elapsed outcome]].
  cbn in Hres. subst outcome.
  rewrite run_bind.
  destruct (downloadProgress_log progress
              (withCalls (S (calls s)) (record (CreateCalled api) s))) as (s1 & E & Hc & Hl).
  rewrite E. rewrite run_sleep_bind. cbn [settled]. rewrite run_ret_bind.
  rewrite run_gets_bind, run_modify_bind, run_ret.
  eexists _, _. split; [reflexivity|]. split.
  - cbn -[suspend]. now rewrite calls_suspend, Hc.
  - later_then later_sessions. later_then later_record; [|reflexivity].
    later_then later_suspend; [|apply ambient_notGeneration].
    eapply later_trans; [|exact Hl].
    later_then later_calls. now apply later_record.
Qed.

Lemma generate_resolved api session input output s :
  (run (capability api) (calls s) input).2 = Resolved output →
  ∃ s', generate api session input s = (Normal output, s')
        ∧ later notGeneration (record (GenerationCalled session input) s) s'.
Proof.
  intros Hres. unfold generate.
  rewrite run_gets_bind, run_modify_bind.
  destruct (run (capability api) (calls s) input) as [elapsed outcome].
  cbn in Hres. subst outcome.
  rewrite run_sleep_bind. cbn [settled]. rewrite run_ret.
  eexists. split; [reflexivity|].
  later_then later_suspend; [|apply ambient_notGeneration].
  apply later_calls.
Qed.

Lemma generationInputs_app a b :
  generationInputs (a ++ b) = generationInputs a ++ generationInputs b.
Proof. unfold generationInputs. apply omap_app. Qed.

Lemma generationInputs_quiet entries :
  Forall (λ te : nat * Event, notGeneration te.2) entries → generationInputs entries = [].
Proof.
  induction 1 as [|[t e] entries He _ IH]; [reflexivity|].
  unfold generationInputs in *. cbn in *. destruct e; cbn; try exact IH. discriminate.
Qed.

Lemma generationInputs_later s0 s s' :
  length (log s0) ≤ length (log s) → later notGeneration s s' →
  generationInputs (added s0 s') = generationInputs (added s0 s).
Proof.
  intros Hl Hlater. destruct (later_added _ s0 s s' Hl Hlater) as (entries & -> & F).
  rewrite generationInputs_app, (generationInputs_quiet entries), app_nil_r; [reflexivity|].
  eapply Forall_impl; [exact F|]. cbn. tauto.
Qed.

End EvaluationProperties.

Section ThresholdProperties.
Context `{Rendering} `{Backends}.

Lemma afterSummary_accepted total index heading successCount summarizer summary s :
  trim summary ≠ EmptyString →
  (afterSummary total index heading successCount summarizer summary s).1
  = Normal (successCount + 1)
  ∧ later notGeneration s (afterSummary total index heading successCount summarizer summary s).2.
Proof.
  intros Hs. split.
  - unfold afterSummary. rewrite run_modify_bind.
    assert (E : negb (isEmpty summary) && negb (isEmpty (trim summary)) = true).
    { apply andb_true_intro. split; apply negb_true_iff, isEmpty_false; [|exact Hs].
      intros ->. now apply Hs. }
    rewrite E, !run_modify_bind.
    destruct ((index + 1) `mod` 5 =? 0); cbn [when].
    + now rewrite run_modify_bind, run_ret.
    + now rewrite run_ret_bind, run_ret.
  - assert (Hr : runs notGeneration
                   (afterSummary total index heading successCount summarizer summary)).
    { unfold afterSummary. runs_with ambient_notGeneration. }
    apply Hr.
Qed.

(** One turn of the loop.  A heading that passes the tests on its own
    text and on the marker is skipped when its section text has fewer
    than 30 characters: nothing happens but the pause.  Otherwise the
    section text is submitted in one generation call, and the counter
    goes up by one when the summary is accepted. *)
Lemma summarizeHeading_turn (total index heading successCount : nat) (s : State) :
  let s1 := suspend 1000 s in
  let content := getSectionContent (page s1) heading in
  let turn := summarizeHeading total index heading successCount s in
  trim (innerText (page s1) heading) ≠ EmptyString →
  String.length (trim (innerText (page s1) heading)) ≤ 200 →
  hasAttribute (page s1) heading summaryMarker = false →
  (String.length content < 30 → turn = (Normal successCount, s1))
  ∧ (30 ≤ String.length content →
     ∀ summary,
       (create Summarizer (calls s1)).2.2 = Resolved tt →
       (run Summarizer (S (calls s1)) content).2 = Resolved summary →
       trim summary ≠ EmptyString →
       turn.1 = Normal (successCount + 1)
       ∧ generationInputs (added s turn.2) = [content]).
Proof.
  cbv zeta. intros Htext Hlen Hunmarked.
  set (s1 := suspend 1000 s) in *.
  set (content := getSectionContent (page s1) heading).
  assert (Hvalid : isEmpty (trim (innerText (page s1) heading))
                   || (200 <? String.length (trim (innerText (page s1) heading))) = false).
  { apply orb_false_intro; [now apply isEmpty_false | apply Nat.ltb_ge; lia]. }
  assert (Hturn : summarizeHeading total index heading successCount s =
    tryCatch
      (if isEmpty content || (String.length content <? 30) then mret successCount
       else
         modify (announce ("Processing section " +:+ ofNat (index + 1) +:+ " of "
                           +:+ ofNat total +:+ ": " +:+ trim (innerText (page s1) heading)));;
         summarizer ← createSession SummarizerApi logProgress;
         summary ← generate SummarizerApi summarizer content;
         afterSummary total index heading successCount summarizer summary)
      (λ _, mret successCount) s1).
  { unfold summarizeHeading. rewrite run_sleep_bind. fold s1.
    unfold tryCatch. rewrite run_gets_bind, Hvalid, run_gets_bind, Hunmarked.
    rewrite run_gets_bind. fold content. reflexivity. }
  rewrite Hturn. clear Hturn. unfold tryCatch. split.
  - intros Hshort.
    assert (E : isEmpty content || (String.length content <? 30) = true)
      by (apply orb_true_intro; right; now apply Nat.ltb_lt).
    now rewrite E, run_ret.
  - intros Hlong summary Hcreate Hrun Hsummary.
    assert (E : isEmpty content || (String.length content <? 30) = false).
    { apply orb_false_intro; [|apply Nat.ltb_ge; lia].
      destruct content; [cbn in Hlong; lia | reflexivity]. }
    rewrite E, run_modify_bind.
    set (s2 := announce _ s1).
    assert (Hc2 : calls s2 = calls s1) by apply calls_announce.
    assert (L2 : later notGeneration s s2).
    { later_then later_announce; [|apply ambient_notGeneration].
      apply later_suspend, ambient_notGeneration. }
    destruct (createSession_resolved SummarizerApi s2) as (summarizer & s3 & E3 & Hc3 & L3).
    { now rewrite Hc2. }
    rewrite run_bind, E3.
    destruct (generate_resolved SummarizerApi summarizer content summary s3)
      as (s4 & E4 & L4).
    { now rewrite Hc3, Hc2. }
    rewrite run_bind, E4.
    destruct (afterSummary_accepted total index heading successCount summarizer summary s4
                Hsummary) as [Hvalue L5].
    destruct (afterSummary total index heading successCount summarizer summary s4)
      as [c s5] eqn:E5.
    cbn in Hvalue, L5. subst c. cbn. split; [reflexivity|].
    pose proof (later_trans _ _ _ _ L2 L3) as L23.
    pose proof (later_log_length _ _ _ L23) as Hlen3.
    rewrite (generationInputs_later s (record (GenerationCalled summarizer content) s3) s5);
      [|cbn; rewrite length_app; lia|exact (later_trans _ _ _ _ L4 L5)].
    unfold added. cbn. rewrite drop_app_le by exact Hlen3.
    rewrite generationInputs_app. fold (added s s3).
    rewrite (generationInputs_later s s s3 (le_n _) L23).
    unfold added. now rewrite drop_all.
Qed.

Lemma added_later K K' s s1 s2 :
  later K s s1 → later K' s1 s2 → added s s2 = added s s1 ++ added s1 s2.
Proof.
  intros (e1 & L1 & _) (e2 & L2 & _). unfold added.
  rewrite L2, L1, (drop_app_length (log s ++ e1)), <- app_assoc, !drop_app_length.
  reflexivity.
Qed.

(** ** C4 (as amended): the pipeline skips a heading for insufficient
    content when its section text has fewer than 30 characters, not 50.
    With three headings that pass the other tests and whose section
    texts, when their turns come, have at least 30, fewer than 30 and at
    least 30 characters (40, 20 and 200 for instance), and a capability
    that accepts every call, the loop submits the first and the third
    section text, in this order, makes no other generation call, and ends
    with a success counter of 2. *)
Theorem three_headings_scenario (h1 h2 h3 : nat) (s : State) :
  let s1 := (summarizeHeading 3 0 h1 0 s).2 in
  let s2 := (summarizeHeading 3 1 h2 1 s1).2 in
  let run := summarizeHeadings 3 0 [h1; h2; h3] 0 s in
  accepting Summarizer →
  summarizable h1 s → 30 ≤ String.length (sectionAt h1 s) →
  summarizable h2 s1 → String.length (sectionAt h2 s1) < 30 →
  summarizable h3 s2 → 30 ≤ String.length (sectionAt h3 s2) →
  run.1 = Normal 2
  ∧ generationInputs (added s run.2) = [sectionAt h1 s; sectionAt h3 s2].
Proof.
  cbv zeta. intros [Hcreate Hrun] (T1 & N1 & M1) L1 (T2 & N2 & M2) L2 (T3 & N3 & M3) L3.
  (* first turn: submitted *)
  destruct (summarizeHeading_turn 3 0 h1 0 s T1 N1 M1) as [_ Hcall1].
  destruct (Hrun (S (calls (suspend 1000 s))) (sectionAt h1 s)) as (summary1 & R1 & A1).
  destruct (Hcall1 L1 summary1 (Hcreate _) R1 A1) as [V1 G1].
  pose proof (runs_summarizeHeading 3 0 h1 0 s) as Later1.
  cbn [summarizeHeadings]. rewrite run_bind.
  destruct (summarizeHeading 3 0 h1 0 s) as [c1 s1]. cbn [fst snd] in *. subst c1.
  change (0 + 1) with 1.
  (* second turn: skipped *)
  destruct (summarizeHeading_turn 3 1 h2 1 s1 T2 N2 M2) as [Hskip2 _].
  specialize (Hskip2 L2).
  pose proof (runs_summarizeHeading 3 1 h2 1 s1) as Later2.
  rewrite run_bind, Hskip2. rewrite Hskip2 in Later2, T3, N3, M3, L3.
  cbn [fst snd] in *.
  set (s2 := suspend 1000 s1) in *.
  assert (G2 : generationInputs (added s1 s2) = []).
  { apply generationInputs_quiet.
    eapply Forall_impl; [apply (later_added_self notGeneration), later_suspend,
                           ambient_notGeneration|].
    cbn. tauto. }
  (* third turn: submitted *)
  destruct (summarizeHeading_turn 3 2 h3 1 s2 T3 N3 M3) as [_ Hcall3].
  destruct (Hrun (S (calls (suspend 1000 s2))) (sectionAt h3 s2)) as (summary3 & R3 & A3).
  destruct (Hcall3 L3 summary3 (Hcreate _) R3 A3) as [V3 G3].
  pose proof (runs_summarizeHeading 3 2 h3 1 s2) as Later3.
  rewrite run_bind.
  destruct (summarizeHeading 3 2 h3 1 s2) as [c3 s3]. cbn [fst snd] in *. subst c3.
  rewrite run_ret. cbn [fst snd]. split; [reflexivity|].
  rewrite (added_later _ _ s s2 s3 (later_trans _ _ _ _ Later1 Later2) Later3).
  rewrite (added_later _ _ s s1 s2 Later1 Later2).
  rewrite !generationInputs_app, G1, G2, G3. reflexivity.
Qed.

End ThresholdProperties.

Lemma three_headings_scenario_witness :
  let s := freshState threeSections in
  let run := @summarizeHeadings plainRendering steadyBackends 3 0 [3; 6; 9] 0 s in
  run.1 = Normal 2
  ∧ map String.length (generationInputs (added s run.2)) = [40; 200].
Proof.
  cbv zeta.
  destruct (@three_headings_scenario plainRendering steadyBackends 3 6 9
              (freshState threeSections)) as [Hcount Hinputs].
  - split; [reflexivity|].
    intros n input. exists "A short summary.". split; [reflexivity | vm_compute; discriminate].
  - vm_compute. repeat split; [discriminate | lia].
  - vm_compute. lia.
  - vm_compute. repeat split; [discriminate | lia].
  - vm_compute. lia.
  - vm_compute. repeat split; [discriminate | lia].
  - vm_compute. lia.
  - split; [exact Hcount|]. rewrite Hinputs. vm_compute. reflexivity.
Defined.

(** ** Aborting when the capability is unavailable *)

Lemma silent_harmless e : silent e → harmless e.
Proof. destruct e; cbn; try tauto; intros _; split; reflexivity. Qed.

Lemma noDeferred_enqueue t q :
  noDeferred (enqueue t q)
  = match callback t with
    | DeferredAnnounce _ => false
    | SetRegionText _ _ => true
    end && noDeferred q.
Proof.
  unfold noDeferred. induction q as [|x q IH]; cbn.
  - reflexivity.
  - destruct (due x <=? due t); cbn; [|reflexivity].
    rewrite IH. destruct (callback x), (callback t); reflexivity.
Qed.

Lemma pending_cons t q : pending (t :: q) = weight t + pending q.
Proof. reflexivity. Qed.

Lemma pending_enqueue t q : pending (enqueue t q) = weight t + pending q.
Proof.
  induction q as [|x q IH]; cbn [enqueue]; [reflexivity|].
  destruct (due x <=? due t); rewrite !pending_cons; [rewrite IH|]; lia.
Qed.

Lemma deferredErrors_cons t q :
  deferredErrors (t :: q)
  = match callback t with
    | DeferredAnnounce text => if isErrorAnnouncement (Announced text) then 1 else 0
    | SetRegionText _ _ => 0
    end + deferredErrors q.
Proof.
  unfold deferredErrors. cbn [List.filter].
  destruct (callback t) as [? ?|text]; [reflexivity|].
  destruct (isErrorAnnouncement (Announced text)); reflexivity.
Qed.

Lemma deferredErrors_enqueue t q :
  deferredErrors (enqueue t q)
  = match callback t with
    | DeferredAnnounce text => if isErrorAnnouncement (Announced text) then 1 else 0
    | SetRegionText _ _ => 0
    end + deferredErrors q.
Proof.
  induction q as [|x q IH]; cbn [enqueue].
  - apply deferredErrors_cons.
  - destruct (due x <=? due t).
    + rewrite !deferredErrors_cons, IH. lia.
    + now rewrite !deferredErrors_cons.
Qed.

Lemma noDeferred_errors q : noDeferred q = true → deferredErrors q = 0.
Proof.
  unfold noDeferred, deferredErrors. induction q as [|x q IH]; cbn; [reflexivity|].
  destruct (callback x); cbn; [exact IH | discriminate].
Qed.

Lemma timers_createPersistentLiveRegion s :
  timers (createPersistentLiveRegion s).2 = timers s
  ∧ timerSeq (createPersistentLiveRegion s).2 = timerSeq s
  ∧ now (createPersistentLiveRegion s).2 = now s.
Proof.
  unfold createPersistentLiveRegion.
  destruct (getElementById (page s) announcerId) as [[?|? ? ?]|]; try (repeat split; reflexivity).
  all: destruct (createElement (page s)); repeat split; reflexivity.
Qed.

(** The two timers an announcement sets. *)
Lemma timers_announce text s :
  ∃ region,
    timers (announce text s)
    = enqueue {| due := now s + 10 * 1000; seq := S (timerSeq s);
                 callback := SetRegionText region EmptyString |}
        (enqueue {| due := now s + 100; seq := timerSeq s;
                    callback := SetRegionText region text |} (timers s)).
Proof.
  unfold announce.
  destruct (timers_createPersistentLiveRegion (record (Announced text) s)) as (Ht & Hs & Hn).
  destruct (createPersistentLiveRegion (record (Announced text) s)) as [region s1].
  cbn in Ht, Hs, Hn. exists region. unfold setTimeout. cbn. now rewrite Ht, Hs, Hn.
Qed.

(** The fuel [suspend] and [settle] give the event loop is enough: the
    loop stops only when the queue is empty or its head is not ready. *)
Lemma eventLoop_drains fuel ready s :
  pending (timers s) ≤ fuel →
  match timers (eventLoop fuel ready s) with
  | [] => True
  | t :: _ => ready t = false
  end.
Proof.
  revert s. induction fuel as [|fuel IH]; intros s Hf.
  - cbn. destruct (timers s) as [|t rest]; [exact I|].
    rewrite pending_cons in Hf. unfold weight in Hf. destruct (callback t); lia.
  - cbn [eventLoop]. destruct (timers s) as [|t rest] eqn:Et; [now rewrite Et|].
    destruct (ready t) eqn:Er; [|now rewrite Et].
    apply IH. rewrite pending_cons in Hf. unfold weight in Hf.
    set (s1 := withNow (now s `max` due t) (withTimers rest (timerSeq s) s)).
    destruct (callback t) as [region text|text]; cbn [fire].
    + change (timers (writeRegion region text s1)) with rest. lia.
    + destruct (timers_announce text s1) as (region & ->).
      rewrite !pending_enqueue. unfold weight. cbn [callback].
      change (timers s1) with rest. lia.
Qed.

Lemma settle_drains s : timers (settle s) = [].
Proof.
  pose proof (eventLoop_drains (pending (timers s)) (λ _, true) s (le_n _)) as Hd.
  unfold settle. destruct (timers (eventLoop _ _ s)); [reflexivity | discriminate].
Qed.

Lemma suspend_drains ms s :
  match timers (suspend ms s) with
  | [] => True
  | t :: _ => dueBefore (now s + ms) (timerSeq s) t = false
  end.
Proof.
  exact (eventLoop_drains (pending (timers s)) (dueBefore (now s + ms) (timerSeq s)) s (le_n _)).
Qed.

(** An announcement logs its text, then silent events only. *)
Lemma announce_after_record text s : later silent (record (Announced text) s) (announce text s).
Proof.
  unfold announce.
  destruct (createPersistentLiveRegion (record (Announced text) s)) as [region s1] eqn:E.
  later_then later_setTimeout. later_then later_setTimeout.
  later_then later_writeRegion; [|exact I].
  replace s1 with (createPersistentLiveRegion (record (Announced text) s)).2 by now rewrite E.
  apply later_createRegion. intros; exact I.
Qed.

Lemma announce_count p text s0 s :
  (∀ e, silent e → p e = false) →
  length (log s0) ≤ length (log s) →
  countEvents p (added s0 (announce text s))
  = countEvents p (added s0 s) + (if p (Announced text) then 1 else 0).
Proof.
  intros Hp Hl.
  rewrite (later_count p silent s0 (record (Announced text) s) (announce text s) Hp);
    [|cbn; rewrite length_app; lia|apply announce_after_record].
  unfold added. cbn. rewrite drop_app_le by exact Hl.
  rewrite countEvents_app. unfold countEvents at 2. cbn.
  destruct (p (Announced text)); reflexivity.
Qed.

Lemma calm_refl s : calm s s.
Proof. intros Hn. split; [apply later_refl | exact Hn]. Qed.

Lemma calm_trans s1 s2 s3 : calm s1 s2 → calm s2 s3 → calm s1 s3.
Proof.
  intros H12 H23 Hn. destruct (H12 Hn) as [L12 Hn2]. destruct (H23 Hn2) as [L23 Hn3].
  split; [eapply later_trans; eassumption | exact Hn3].
Qed.

Lemma calm_announce text s :
  isErrorAnnouncement (Announced text) = false → calm s (announce text s).
Proof.
  intros He Hn. split.
  - eapply later_trans; [apply later_record|].
    + split; [exact He | reflexivity].
    + eapply later_weaken; [apply silent_harmless | apply announce_after_record].
  - destruct (timers_announce text s) as (region & ->).
    rewrite !noDeferred_enqueue. cbn. exact Hn.
Qed.

Lemma calm_eventLoop fuel ready s : calm s (eventLoop fuel ready s).
Proof.
  revert s. induction fuel as [|fuel IH]; intros s; cbn; [apply calm_refl|].
  destruct (timers s) as [|t rest] eqn:Et; [apply calm_refl|].
  destruct (ready t); [|apply calm_refl].
  eapply calm_trans; [|apply IH].
  intros Hn. rewrite Et in Hn. unfold noDeferred in Hn. cbn in Hn.
  destruct (callback t) as [region text|text]; [|discriminate]. cbn in *.
  split; [|exact Hn].
  later_then later_writeRegion; [|split; reflexivity].
  later_then later_clock; [|cbn; lia].
  apply later_timers.
Qed.

Lemma calm_suspend ms s : calm s (suspend ms s).
Proof.
  unfold suspend. intros Hn.
  destruct (calm_eventLoop (pending (timers s)) (dueBefore (now s + ms) (timerSeq s)) s Hn)
    as [L Hn'].
  split; [|exact Hn']. later_then later_clock; [exact L | lia].
Qed.

Section AbortProperties.
Context `{Rendering} `{Backends}.

(** [queryAvailability] when the call resolves. *)
Lemma queryAvailability_resolved api value s :
  (availability (capability api) (calls s)).2 = Resolved value →
  ∃ s', queryAvailability api s = (Normal value, s') ∧ calm s s'.
Proof.
  intros Hres. unfold queryAvailability.
  rewrite run_gets_bind, run_modify_bind.
  destruct (availability (capability api) (calls s)) as [elapsed outcome].
  cbn in Hres. subst outcome.
  rewrite run_sleep_bind. cbn [settled]. rewrite run_ret.
  eexists. split; [reflexivity|].
  eapply calm_trans; [|apply calm_suspend].
  intros Hn. split; [|exact Hn].
  later_then later_calls. apply later_record. split; reflexivity.
Qed.

(** The number of error announcements once the page has settled. *)
Lemma eventLoop_errors fuel s0 s :
  length (log s0) ≤ length (log s) → pending (timers s) ≤ fuel →
  countEvents isErrorAnnouncement (added s0 (eventLoop fuel (λ _, true) s))
  = countEvents isErrorAnnouncement (added s0 s) + deferredErrors (timers s).
Proof.
  revert s. induction fuel as [|fuel IH]; intros s Hl Hf.
  - cbn. destruct (timers s) as [|t rest]; [cbn; lia|].
    rewrite pending_cons in Hf. unfold weight in Hf. destruct (callback t); lia.
  - cbn [eventLoop]. destruct (timers s) as [|t rest] eqn:Et; [cbn; lia|].
    rewrite pending_cons in Hf. rewrite deferredErrors_cons.
    set (s1 := withNow (now s `max` due t) (withTimers rest (timerSeq s) s)).
    assert (Hl1 : length (log s0) ≤ length (log s1)) by exact Hl.
    assert (Hadd : added s0 s1 = added s0 s) by reflexivity.
    unfold weight in Hf.
    destruct (callback t) as [region text|text]; cbn [fire].
    + rewrite IH.
      * change (timers (writeRegion region text s1)) with rest.
        rewrite (later_count isErrorAnnouncement silent s0 s1 (writeRegion region text s1));
          [rewrite Hadd; lia | now intros [] | exact Hl1 | now apply later_writeRegion].
      * cbn. rewrite length_app. lia.
      * change (timers (writeRegion region text s1)) with rest. lia.
    + destruct (timers_announce text s1) as (region & Ht).
      rewrite IH.
      * rewrite Ht, !deferredErrors_enqueue. cbn [callback].
        change (timers s1) with rest.
        rewrite announce_count by (exact Hl1 || now intros []).
        rewrite Hadd.
        destruct (isErrorAnnouncement (Announced text)); lia.
      * pose proof (later_log_length _ _ _ (later_announce anyEvent text s1 (λ _ _, I))). lia.
      * rewrite Ht, !pending_enqueue. unfold weight. cbn [callback].
        change (timers s1) with rest. lia.
Qed.

Lemma settle_errors s0 s :
  length (log s0) ≤ length (log s) →
  countEvents isErrorAnnouncement (added s0 (settle s))
  = countEvents isErrorAnnouncement (added s0 s) + deferredErrors (timers s).
Proof. intros Hl. now apply eventLoop_errors. Qed.

Lemma ambient_not_call e : ambient e → isCapabilityCall e = false.
Proof. destruct e; cbn; (reflexivity || tauto). Qed.

Lemma settle_calls s0 s :
  length (log s0) ≤ length (log s) →
  countEvents isCapabilityCall (added s0 (settle s)) = countEvents isCapabilityCall (added s0 s).
Proof.
  intros Hl. apply (later_count isCapabilityCall ambient); [apply ambient_not_call | exact Hl|].
  now apply later_settle.
Qed.

Lemma harmless_counts s0 s s' :
  length (log s0) ≤ length (log s) → later harmless s s' →
  countEvents isErrorAnnouncement (added s0 s') = countEvents isErrorAnnouncement (added s0 s)
  ∧ countEvents isCapabilityCall (added s0 s') = countEvents isCapabilityCall (added s0 s).
Proof.
  intros Hl L. split.
  - apply (later_count _ harmless); [now intros e [? ?] | exact Hl | exact L].
  - apply (later_count _ harmless); [now intros e [? ?] | exact Hl | exact L].
Qed.

End AbortProperties.

Section AbortTheorem.
Context `{Rendering} `{Backends}.

Lemma added_self s : added s s = [].
Proof. unfold added. apply drop_all. Qed.

Lemma calm_counts s s' :
  noDeferred (timers s) = true → calm s s' →
  countEvents isErrorAnnouncement (added s s') = 0
  ∧ countEvents isCapabilityCall (added s s') = 0
  ∧ length (log s) ≤ length (log s')
  ∧ noDeferred (timers s') = true.
Proof.
  intros Hn Hc. destruct (Hc Hn) as [L Hn'].
  destruct (harmless_counts s s s' (le_n _) L) as [He Hk].
  rewrite He, Hk, added_self. repeat split; try assumption.
  now apply later_log_length in L.
Qed.

(** The run ends with an error announcement. *)
Lemma abort_announced text s s' :
  noDeferred (timers s) = true → calm s s' →
  isErrorAnnouncement (Announced text) = true →
  let entries := added s (settle (announce text s')) in
  countEvents isErrorAnnouncement entries = 1 ∧ countEvents isCapabilityCall entries = 0.
Proof.
  intros Hn Hc He. destruct (calm_counts s s' Hn Hc) as (E0 & K0 & Hl & Hn').
  assert (Hl' : length (log s) ≤ length (log (announce text s'))).
  { pose proof (later_log_length _ _ _ (later_announce anyEvent text s' (λ _ _, I))). lia. }
  cbv zeta. rewrite settle_errors, settle_calls by exact Hl'.
  rewrite !announce_count by (exact Hl || now intros []).
  rewrite E0, K0, He. cbn [isCapabilityCall].
  destruct (timers_announce text s') as (region & ->).
  rewrite noDeferred_errors; [lia|].
  rewrite !noDeferred_enqueue. exact Hn'.
Qed.

(** The run ends with an error announcement set to come 500 ms later. *)
Lemma abort_deferred text s s' :
  noDeferred (timers s) = true → calm s s' →
  isErrorAnnouncement (Announced text) = true →
  let entries := added s (settle (setTimeout (DeferredAnnounce text) 500 s')) in
  countEvents isErrorAnnouncement entries = 1 ∧ countEvents isCapabilityCall entries = 0.
Proof.
  intros Hn Hc He. destruct (calm_counts s s' Hn Hc) as (E0 & K0 & Hl & Hn').
  cbv zeta. rewrite settle_errors, settle_calls by exact Hl.
  change (added s (setTimeout (DeferredAnnounce text) 500 s')) with (added s s').
  rewrite E0, K0. unfold setTimeout. cbn [timers withTimers].
  rewrite deferredErrors_enqueue. cbn [callback]. rewrite He.
  rewrite (noDeferred_errors _ Hn'). lia.
Qed.

(** The head of every pipeline, when the capability is there and
    reports ["no"]. *)
Lemma availability_no api start s :
  (availability (capability api) (calls s)).2 = Resolved "no" →
  isErrorAnnouncement (Announced start) = false →
  ∃ s', queryAvailability api (announce start s) = (Normal "no", s') ∧ calm s s'.
Proof.
  intros Hres Hstart.
  destruct (queryAvailability_resolved api "no" (announce start s)) as (s' & E & Hc).
  { now rewrite calls_announce. }
  exists s'. split; [exact E|].
  apply calm_trans with (s2 := announce start s); [now apply calm_announce | exact Hc].
Qed.

(** ** C5: when the availability check reports that the backend cannot
    be used, the run aborts before any call that creates a session or
    generates text: once the page has settled, the run has made exactly
    one error announcement and no such call.  (The run is started while
    no deferred announcement of an earlier run is pending.) *)
Theorem unavailable_aborts (s : State) :
  noDeferred (timers s) = true →
  (unavailable Summarizer s →
   abortsCleanly generateOverview s ∧ abortsCleanly generateCues s)
  ∧ (unavailable LanguageModel s →
     abortsCleanly fixContextLabels s ∧ abortsCleanly ContentJs.generateCues s).
Proof.
  intros Hn. split; intros [Hp Hno]; split; unfold abortsCleanly.
  - destruct (availability_no SummarizerApi "Starting AI overview generation. Please wait." s
                Hno eq_refl) as (s' & E & Hc).
    unfold generateOverview, tryCatch. rewrite run_modify_bind, Hp. cbn [negb when].
    rewrite run_ret_bind, run_bind, E. cbn [String.eqb Ascii.eqb Bool.eqb when].
    rewrite run_throw_bind, run_modify. cbn [fst snd].
    now apply abort_deferred.
  - destruct (availability_no SummarizerApi "Starting section summaries generation. Please wait." s
                Hno eq_refl) as (s' & E & Hc).
    unfold generateCues, tryCatch. rewrite run_modify_bind, Hp. cbn [negb when].
    rewrite run_ret_bind, run_bind, E. cbn [String.eqb Ascii.eqb Bool.eqb when].
    rewrite run_throw_bind, run_modify. cbn [fst snd].
    now apply abort_announced.
  - destruct (availability_no LanguageModelApi "Starting to fix ambiguous labels. Please wait." s
                Hno eq_refl) as (s' & E & Hc).
    unfold fixContextLabels, tryCatch. rewrite run_modify_bind, Hp. cbn [negb when].
    rewrite run_ret_bind, run_bind, E. cbn [String.eqb Ascii.eqb Bool.eqb when].
    rewrite run_throw_bind, run_modify. cbn [fst snd].
    now apply abort_announced.
  - destruct (availability_no LanguageModelApi "Starting section cues generation. Please wait." s
                Hno eq_refl) as (s' & E & Hc).
    unfold ContentJs.generateCues, tryCatch. rewrite run_modify_bind, Hp. cbn [negb when].
    rewrite run_ret_bind, run_bind, E. cbn [String.eqb Ascii.eqb Bool.eqb when].
    rewrite run_throw_bind, run_modify. cbn [fst snd].
    now apply abort_announced.
Qed.

End AbortTheorem.

Lemma unavailable_aborts_witness :
  let s := freshState articlePage in
  (abortsCleanly (@generateOverview plainRendering offBackends) s
   ∧ abortsCleanly (@generateCues plainRendering offBackends) s)
  ∧ (abortsCleanly (@fixContextLabels plainRendering offBackends) s
     ∧ abortsCleanly (@ContentJs.generateCues plainRendering offBackends) s).
Proof.
  cbv zeta.
  destruct (@unavailable_aborts plainRendering offBackends (freshState articlePage) eq_refl)
    as [Hs Hl].
  split; [apply Hs | apply Hl]; split; reflexivity.
Defined.

(** ** Announcements *)

Lemma Node_induction (P : Node → Prop) :
  (∀ s, P (Text s)) →
  (∀ h t cs, Forall P cs → P (Element h t cs)) →
  ∀ n, P n.
Proof.
  intros HT HE. fix IH 1. intros [s|h t cs]; [apply HT|].
  apply HE. induction cs as [|c cs IHcs]; constructor; [apply IH | exact IHcs].
Qed.

Lemma find_app {A} (p : A → bool) (a b : list A) :
  List.find p (a ++ b) = match List.find p a with
                         | Some x => Some x
                         | None => List.find p b
                         end.
Proof. induction a as [|x a IH]; cbn; [reflexivity|]. destruct (p x); [reflexivity | exact IH]. Qed.

Lemma find_byHandle q l x : List.find (byHandle q) l = Some x → ∃ h, handleOf x = Some h.
Proof.
  intros Hf. apply find_some in Hf as [_ Hp]. unfold byHandle in Hp.
  destruct (handleOf x) as [h|]; [eauto | discriminate].
Qed.

(** Replacing the children of an element that passes the test does not
    change which element is found first. *)
Lemma find_rewriteChildren q r new n :
  q r = true →
  List.find (byHandle q) (elementsOf (rewriteChildren (λ i cs, if i =? r then new else cs) n))
    ≫= handleOf
  = List.find (byHandle q) (elementsOf n) ≫= handleOf.
Proof.
  intros Hq. induction n as [s|h t cs IH] using Node_induction; [reflexivity|].
  cbn [rewriteChildren elementsOf List.find]. unfold byHandle at 1 3. cbn [handleOf].
  destruct (q h) eqn:Eh; [reflexivity|].
  assert (Hne : (h =? r) = false).
  { apply Nat.eqb_neq. intros ->. congruence. }
  rewrite Hne. clear Hne Eh.
  induction IH as [|c cs Hc _ IHcs]; [reflexivity|].
  cbn [map flat_map]. rewrite !find_app.
  destruct (List.find (byHandle q) (elementsOf c)) as [x|] eqn:E;
    destruct (List.find (byHandle q) (elementsOf (rewriteChildren _ c))) as [y|] eqn:E'.
  - exact Hc.
  - apply find_byHandle in E as [hx Hx]. cbn in Hc. rewrite Hx in Hc. discriminate.
  - apply find_byHandle in E' as [hy Hy]. cbn in Hc. rewrite Hy in Hc. discriminate.
  - exact IHcs.
Qed.

Lemma getElementById_byHandle d id :
  getElementById d id
  = List.find (byHandle (λ h, bool_decide (getAttribute d h "id" = Some id)))
      (elementsOf (documentElement d)).
Proof. reflexivity. Qed.

(** Writing the text of the live region leaves it in place. *)
Lemma getElementById_setInnerText d id region tag cs text :
  getElementById d id = Some (Element region tag cs) →
  ∃ tag' cs', getElementById (setInnerText region text d) id = Some (Element region tag' cs').
Proof.
  intros Hfound.
  assert (Hq : bool_decide (getAttribute d region "id" = Some id) = true).
  { rewrite getElementById_byHandle in Hfound. apply find_some in Hfound as [_ Hp].
    exact Hp. }
  pose proof (find_rewriteChildren
                (λ h, bool_decide (getAttribute d h "id" = Some id)) region
                (if isEmpty text then [] else [Text text]) (documentElement d) Hq) as Hsame.
  rewrite <- getElementById_byHandle in Hsame. rewrite Hfound in Hsame. cbn in Hsame.
  change (List.find _ _) with (getElementById (setInnerText region text d) id) in Hsame.
  destruct (getElementById (setInnerText region text d) id) as [[?|h t c]|];
    cbn in Hsame; try discriminate.
  injection Hsame as ->. eauto.
Qed.

Lemma announce_found text s region tag cs :
  getElementById (page s) announcerId = Some (Element region tag cs) →
  announce text s
  = setTimeout (SetRegionText region EmptyString) (10 * 1000)
      (setTimeout (SetRegionText region text) 100
         (writeRegion region EmptyString (record (Announced text) s))).
Proof.
  intros Hfound. unfold announce, createPersistentLiveRegion.
  cbn [page record]. now rewrite Hfound.
Qed.

Lemma noDeferred_cons t q :
  noDeferred (t :: q) = true →
  (∃ region text, callback t = SetRegionText region text) ∧ noDeferred q = true.
Proof.
  unfold noDeferred. cbn. destruct (callback t) as [region text|?]; [|discriminate].
  intros Hq. split; [eauto | exact Hq].
Qed.

Lemma eventLoop_writes fuel s :
  noDeferred (timers s) = true → length (timers s) ≤ fuel →
  log (eventLoop fuel (λ _, true) s) = log s ++ writesOf (now s) (timers s).
Proof.
  revert s. induction fuel as [|fuel IH]; intros s Hn Hf.
  - destruct (timers s); [cbn; now rewrite app_nil_r | cbn in Hf; lia].
  - cbn [eventLoop]. destruct (timers s) as [|t rest] eqn:Et; [cbn; now rewrite app_nil_r|].
    apply noDeferred_cons in Hn as [(region & text & Hcb) Hn].
    cbn [writesOf]. rewrite Hcb. cbn [fire].
    rewrite IH; [|exact Hn|cbn in *; lia].
    cbn [log writeRegion record withPage withNow withTimers now timers].
    now rewrite <- app_assoc.
Qed.

Lemma pending_noDeferred q : noDeferred q = true → pending q = length q.
Proof.
  induction q as [|t q IH]; [reflexivity|].
  intros Hn. apply noDeferred_cons in Hn as [(region & text & Hcb) Hn].
  rewrite pending_cons, (IH Hn). unfold weight. now rewrite Hcb.
Qed.

(** What settling adds to the log when only region timers are pending. *)
Lemma settle_writes s :
  noDeferred (timers s) = true → log (settle s) = log s ++ writesOf (now s) (timers s).
Proof.
  intros Hn. unfold settle. apply eventLoop_writes; [exact Hn|].
  now rewrite pending_noDeferred.
Qed.

(** The queue after two announcements made at the same time on an idle
    page. *)
Lemma enqueue_twice (t1 t2 c1 c2 : Timer) :
  due t1 = due t2 → due c1 = due c2 → due t1 < due c1 →
  enqueue c2 (enqueue t2 (enqueue c1 (enqueue t1 []))) = [t1; t2; c1; c2].
Proof.
  intros Ht Hc Hlt. cbn [enqueue].
  assert (E1 : (due t1 <=? due c1) = true) by (apply Nat.leb_le; lia).
  rewrite E1. cbn [enqueue].
  assert (E2 : (due t1 <=? due t2) = true) by (apply Nat.leb_le; lia).
  assert (E3 : (due c1 <=? due t2) = false) by (apply Nat.leb_gt; lia).
  rewrite E2, E3. cbn [enqueue].
  assert (E4 : (due t1 <=? due c2) = true) by (apply Nat.leb_le; lia).
  assert (E5 : (due t2 <=? due c2) = true) by (apply Nat.leb_le; lia).
  assert (E6 : (due c1 <=? due c2) = true) by (apply Nat.leb_le; lia).
  now rewrite E4, E5, E6.
Qed.

(** The writes of two announcements of the same text made one after the
    other on an idle page: the region is cleared twice when the calls
    are made, set to the text twice 100 ms later, and cleared twice
    after 10 s.  No clear comes between the two sets. *)
Theorem repeated_announcement_cycles (text : string) (s : State) (region : nat)
    (tag : string) (cs : list Node) :
  timers s = [] →
  getElementById (page s) announcerId = Some (Element region tag cs) →
  regionWrites (added s (settle (announce text (announce text s))))
  = [(now s, region, EmptyString); (now s, region, EmptyString);
     (now s + 100, region, text); (now s + 100, region, text);
     (now s + 10 * 1000, region, EmptyString); (now s + 10 * 1000, region, EmptyString)].
Proof.
  intros Hidle Hfound.
  rewrite (announce_found text s region tag cs Hfound).
  destruct (getElementById_setInnerText (page s) announcerId region tag cs EmptyString Hfound)
    as (tag' & cs' & Hfound').
  erewrite announce_found by exact Hfound'.
  generalize (10 * 1000) (eq_refl : (100 <? 10 * 1000) = true).
  intros late Hlate. apply Nat.ltb_lt in Hlate.
  set (t1 := {| due := now s + 100; seq := timerSeq s; callback := SetRegionText region text |}).
  set (c1 := {| due := now s + late; seq := S (timerSeq s);
                callback := SetRegionText region EmptyString |}).
  set (t2 := {| due := now s + 100; seq := S (S (timerSeq s));
                callback := SetRegionText region text |}).
  set (c2 := {| due := now s + late; seq := S (S (S (timerSeq s)));
                callback := SetRegionText region EmptyString |}).
  match goal with |- context [settle ?st] => set (s4 := st) end.
  assert (Hq : timers s4 = [t1; t2; c1; c2]).
  { change (timers s4) with (enqueue c2 (enqueue t2 (enqueue c1 (enqueue t1 (timers s))))).
    rewrite Hidle. apply enqueue_twice; cbn; lia. }
  assert (Hlog : log s4 = log s ++ [(now s, Announced text);
                                    (now s, RegionWritten region EmptyString);
                                    (now s, Announced text);
                                    (now s, RegionWritten region EmptyString)]).
  { subst s4. cbn [log setTimeout withTimers writeRegion record withPage now].
    now rewrite <- !app_assoc. }
  unfold added. rewrite settle_writes by (rewrite Hq; reflexivity).
  rewrite Hlog, Hq, <- app_assoc, drop_app_length.
  change (now s4) with (now s).
  cbn [writesOf callback due t1 t2 c1 c2 app].
  replace (now s `max` (now s + 100)) with (now s + 100) by lia.
  replace ((now s + 100) `max` (now s + 100)) with (now s + 100) by lia.
  replace ((now s + 100) `max` (now s + late)) with (now s + late) by lia.
  replace ((now s + late) `max` (now s + late)) with (now s + late) by lia.
  reflexivity.
Qed.

Lemma repeated_announcement_cycles_witness :
  regionWrites (added (freshState loadedPage)
                  (settle (announce "X" (announce "X" (freshState loadedPage)))))
  = [(0, 4, EmptyString); (0, 4, EmptyString); (100, 4, "X"); (100, 4, "X");
     (10 * 1000, 4, EmptyString); (10 * 1000, 4, EmptyString)].
Proof.
  exact (repeated_announcement_cycles "X" (freshState loadedPage) 4 "DIV" [] eq_refl eq_refl).
Defined.

(** ** The session of label repair *)

Lemma sessionEvents_app a b : sessionEvents (a ++ b) = sessionEvents a ++ sessionEvents b.
Proof. unfold sessionEvents. now rewrite map_app, List.filter_app. Qed.

Lemma sessionEvents_quiet entries :
  Forall (λ te : nat * Event, notSession te.2) entries → sessionEvents entries = [].
Proof.
  induction 1 as [|[t e] entries He _ IH]; [reflexivity|].
  unfold sessionEvents in *. cbn in *. unfold notSession in He. now rewrite He.
Qed.

Lemma sessionLog_stable events s0 : stable notSession (sessionLog events s0).
Proof.
  intros s s' Hlater [Hl He].
  pose proof (later_log_length _ _ _ Hlater). split; [lia|].
  destruct (later_added _ s0 s s' Hl Hlater) as (entries & -> & F).
  rewrite sessionEvents_app, He, (sessionEvents_quiet entries), app_nil_r; [reflexivity|].
  eapply Forall_impl; [exact F|]. cbn. tauto.
Qed.

Lemma sessionLog_record events s0 s e :
  isSessionEvent e = true → sessionLog events s0 s → sessionLog (events ++ [e]) s0 (record e s).
Proof.
  intros He [Hl Hev]. split; [cbn; rewrite length_app; lia|].
  unfold added. cbn. rewrite drop_app_le by exact Hl. fold (added s0 s).
  rewrite sessionEvents_app, Hev. unfold sessionEvents. cbn. now rewrite He.
Qed.

Lemma ambient_notSession e : ambient e → notSession e.
Proof. destruct e; cbn; (reflexivity || tauto). Qed.

Section SessionProperties.
Context `{Rendering} `{Backends}.

(** [create] either fails and leaves no session, or yields the one
    session that the log shows as created. *)
Lemma createSession_sessions s0 api :
  triple (sessionLog [] s0) (createSession api logProgress)
         (λ c s, match c with
                 | Normal session => sessionLog [SessionCreated session] s0 s
                 | Throw _ => sessionLog [] s0 s
                 end).
Proof.
  unfold createSession. apply triple_gets_bind. intros n.
  apply (triple_pre (sessionLog [] s0)); [tauto|].
  eapply (triple_after notSession); [apply sessionLog_stable| |intros ?|auto].
  { apply runs_modify. intros s. later_then later_calls. now apply later_record. }
  destruct (create (capability api) n) as [progress [elapsed outcome]].
  eapply (triple_after notSession); [apply sessionLog_stable| |intros ?|auto].
  { apply runs_downloadProgress; [apply ambient_notSession | intros; apply later_logProgress]. }
  eapply (triple_after notSession);
    [apply sessionLog_stable | runs_with ambient_notSession | intros ? | auto].
  eapply (triple_after notSession);
    [apply sessionLog_stable | runs_with ambient_notSession | intros ? | auto].
  apply triple_gets_bind. intros session.
  eapply triple_modify_bind with (R := sessionLog [SessionCreated session] s0).
  - intros s [Hs _].
    eapply sessionLog_stable; [apply later_sessions|].
    now apply (sessionLog_record [] s0 s (SessionCreated session)).
  - apply triple_ret. auto.
Qed.

Lemma runs_fixLabels_sessions session total index elements successCount :
  runs notSession (fixLabels session total index elements successCount).
Proof.
  revert index successCount.
  induction elements as [|element rest IH]; intros index successCount; cbn [fixLabels].
  - apply runs_ret.
  - apply runs_bind; [|intros ?; apply IH].
    unfold fixLabel. runs_with ambient_notSession.
Qed.

Lemma runs_describeHeadings_sessions session total index headings successCount :
  runs notSession (ContentJs.describeHeadings session total index headings successCount).
Proof.
  revert index successCount.
  induction headings as [|heading rest IH]; intros index successCount;
    cbn [ContentJs.describeHeadings].
  - apply runs_ret.
  - apply runs_bind; [|intros ?; apply IH].
    unfold ContentJs.describeHeading. runs_with ambient_notSession.
Qed.

(** The shape shared by [fixContextLabels] and the first revision of
    [generateCues]: one session, a loop inside [try], [destroy] in
    [finally]. *)
Lemma session_released s0 api (loop : nat → Task nat) (finish : nat → nat → State → State) :
  (∀ session, runs notSession (loop session)) →
  (∀ session n s, later notSession s (finish session n s)) →
  triple (sessionLog [] s0)
    (session ← createSession api logProgress;
     successCount ← tryFinally (loop session) (destroy session);
     modify (finish session successCount))
    (λ _, sessionsSettled s0).
Proof.
  intros Hloop Hfinish.
  eapply triple_bind; [apply createSession_sessions | | cbn; intros ? ? ?; now left].
  intros session. cbv beta.
  eapply triple_bind with
    (R := λ _, sessionLog [SessionCreated session; SessionDestroyed session] s0).
  - eapply triple_tryFinally.
    + apply (triple_runs notSession); [apply sessionLog_stable | apply Hloop].
    + cbn. intros _ s Hs.
      now apply (sessionLog_record [SessionCreated session] s0 s (SessionDestroyed session)).
  - intros n. apply triple_modify. intros s Hs. right. exists session.
    exact (sessionLog_stable _ s0 s (finish session n s) (Hfinish session n s) Hs).
  - cbn. intros _ s Hs. right. now exists session.
Qed.

Lemma sessionsSettled_stable s0 : stable notSession (sessionsSettled s0).
Proof.
  intros s s' Hlater [Hs|[session Hs]]; [left | right; exists session];
    exact (sessionLog_stable _ s0 s s' Hlater Hs).
Qed.

Ltac session_step :=
  cbv beta;
  lazymatch goal with
  | |- triple _ (if ?b then _ else _) _ => destruct b eqn:?
  | |- triple (sessionLog [] ?s0)
         (createSession ?api _ ≫=
            (λ session, tryFinally (@?loop session) _ ≫=
               (λ n, modify (@?finish session n)))) _ =>
      apply (session_released s0 api loop finish);
        [ intros ?; first [apply runs_fixLabels_sessions | apply runs_describeHeadings_sessions]
        | intros; apply later_announce, ambient_notSession ]
  | |- triple (sessionLog [] _) (_ ≫= _) _ =>
      eapply (triple_after notSession);
        [ apply sessionLog_stable
        | runs_with ambient_notSession
        | intros ?
        | cbn; intros ? ? ?; now left ]
  | |- triple (sessionLog [] ?s0) _ _ =>
      apply (triple_pre (sessionsSettled s0)); [intros ? ?; now left|];
      apply (triple_runs notSession); [apply sessionsSettled_stable | runs_with ambient_notSession]
  end.

Ltac session_pipeline :=
  eapply (triple_after notSession);
    [ apply sessionLog_stable
    | runs_with ambient_notSession
    | intros ?;
      lazymatch goal with
      | |- triple _ _ (λ _, sessionsSettled ?s0) =>
          eapply triple_tryCatch with (R := λ _, sessionsSettled s0)
      end;
        [ repeat session_step
        | cbn; intros ? ? ?; assumption
        | intros ?; apply (triple_runs notSession);
            [apply sessionsSettled_stable | runs_with ambient_notSession] ]
    | cbn; intros ? ? ?; now left ].

Lemma fixContextLabels_sessions s0 :
  triple (sessionLog [] s0) fixContextLabels (λ _, sessionsSettled s0).
Proof. unfold fixContextLabels. session_pipeline. Qed.

Lemma contentJs_generateCues_sessions s0 :
  triple (sessionLog [] s0) ContentJs.generateCues (λ _, sessionsSettled s0).
Proof. unfold ContentJs.generateCues. session_pipeline. Qed.

(** Label repair, and the cues of the first revision, create at most one
    session and release it once, on every path: this is what
    [generateOverview] and the section summaries miss when [summarize]
    is rejected. *)
Lemma one_session_released_once (s : State) :
  releasedOnce (added s (fixContextLabels s).2)
  ∧ releasedOnce (added s (ContentJs.generateCues s).2).
Proof.
  assert (Hstart : sessionLog [] s s).
  { split; [lia|]. unfold added. now rewrite drop_all. }
  split.
  - destruct (fixContextLabels_sessions s s Hstart) as [[_ Hs]|[session [_ Hs]]];
      [now left | right; now exists session].
  - destruct (contentJs_generateCues_sessions s s Hstart) as [[_ Hs]|[session [_ Hs]]];
      [now left | right; now exists session].
Qed.

End SessionProperties.

(** ** Trimming and cleaning *)

Lemma trimEnd_cons c r :
  isWhiteSpace c = false → trimEnd (String c r) = String c (trimEnd r).
Proof.
  intros Hc. cbn [trimEnd]. destruct (trimEnd r); [now rewrite Hc | reflexivity].
Qed.

Lemma trimStart_fixed s : holds isWhiteSpace (firstChar s) = false → trimStart s = s.
Proof. destruct s as [|c r]; [reflexivity|]. cbn. now intros ->. Qed.

Lemma firstChar_trimStart s : holds isWhiteSpace (firstChar (trimStart s)) = false.
Proof.
  induction s as [|c r IH]; [reflexivity|]. cbn [trimStart].
  destruct (isWhiteSpace c) eqn:E; [exact IH | cbn; exact E].
Qed.

Lemma firstChar_trimEnd s :
  holds isWhiteSpace (firstChar s) = false → holds isWhiteSpace (firstChar (trimEnd s)) = false.
Proof.
  destruct s as [|c r]; [reflexivity|]. cbn [firstChar String.get holds]. intros Hc.
  rewrite trimEnd_cons by exact Hc. exact Hc.
Qed.

Lemma trimEnd_step c r :
  trimEnd (String c r)
  = match trimEnd r with
    | EmptyString => if isWhiteSpace c then EmptyString else String c EmptyString
    | r' => String c r'
    end.
Proof. reflexivity. Qed.

Lemma trimEnd_idem s : trimEnd (trimEnd s) = trimEnd s.
Proof.
  induction s as [|c r IH]; [reflexivity|]. rewrite trimEnd_step.
  destruct (trimEnd r) as [|c' r'] eqn:E.
  - destruct (isWhiteSpace c) eqn:Ec; [reflexivity|]. cbn. now rewrite Ec.
  - rewrite trimEnd_step, IH. reflexivity.
Qed.

Lemma trim_idem s : trim (trim s) = trim s.
Proof.
  unfold trim.
  rewrite (trimStart_fixed (trimEnd (trimStart s))).
  - apply trimEnd_idem.
  - apply firstChar_trimEnd, firstChar_trimStart.
Qed.

Lemma lastChar_trimEnd s : holds isWhiteSpace (lastChar (trimEnd s)) = false.
Proof.
  induction s as [|c r IH]; [reflexivity|]. rewrite trimEnd_step.
  destruct (trimEnd r) as [|c' r'] eqn:E.
  - destruct (isWhiteSpace c) eqn:Ec; [reflexivity | cbn; exact Ec].
  - exact IH.
Qed.



Lemma trim_ends s :
  holds isWhiteSpace (firstChar (trim s)) = false ∧ holds isWhiteSpace (lastChar (trim s)) = false.
Proof.
  split; [apply firstChar_trimEnd, firstChar_trimStart | apply lastChar_trimEnd].
Qed.

(** *** Line breaks *)
Lemma hasLineBreak_cons c s : hasLineBreak (String c s) = Ascii.eqb newline c || hasLineBreak s.
Proof. reflexivity. Qed.

Lemma split_head_clean sep s w ws :
  split sep s = w :: ws → existsb (Ascii.eqb sep) (list_ascii_of_string w) = false.
Proof.
  revert w ws. induction s as [|c r IH]; intros w ws; cbn [split].
  - intros [= <- <-]. reflexivity.
  - destruct (Ascii.eqb c sep) eqn:E.
    + intros [= <- <-]. reflexivity.
    + destruct (split sep r) as [|w' ws'] eqn:Es.
      * intros [= <- <-]. cbn. rewrite Ascii.eqb_sym, E. reflexivity.
      * intros [= <- <-]. cbn. rewrite Ascii.eqb_sym, E. cbn. eapply IH. reflexivity.
Qed.

Lemma firstPiece_oneLine s : hasLineBreak (firstPiece newline s) = false.
Proof.
  unfold firstPiece, hasLineBreak. destruct (split newline s) as [|w ws] eqn:E; [reflexivity|].
  eapply split_head_clean. exact E.
Qed.

Lemma dropLastIf_oneLine p s : hasLineBreak s = false → hasLineBreak (dropLastIf p s) = false.
Proof.
  induction s as [|c r IH]; [reflexivity|].
  rewrite hasLineBreak_cons. intros [Hc Hr]%orb_false_elim.
  destruct r as [|c' r'].
  - cbn [dropLastIf]. destruct (p c); [reflexivity|]. rewrite hasLineBreak_cons, Hc. reflexivity.
  - change (dropLastIf p (String c (String c' r'))) with (String c (dropLastIf p (String c' r'))).
    rewrite hasLineBreak_cons, Hc. apply IH, Hr.
Qed.

Lemma dropFirstIf_oneLine p s : hasLineBreak s = false → hasLineBreak (dropFirstIf p s) = false.
Proof.
  destruct s as [|c r]; [reflexivity|]. rewrite hasLineBreak_cons.
  intros [Hc Hr]%orb_false_elim. cbn [dropFirstIf].
  destruct (p c); [exact Hr | now rewrite hasLineBreak_cons, Hc].
Qed.

Lemma substring_oneLine n s : hasLineBreak s = false → hasLineBreak (String.substring 0 n s) = false.
Proof.
  revert s. induction n as [|n IH]; intros [|c r]; try reflexivity.
  rewrite hasLineBreak_cons. intros [Hc Hr]%orb_false_elim.
  cbn [String.substring]. rewrite hasLineBreak_cons, Hc. now apply IH.
Qed.

Lemma cleanLabel_oneLine response : hasLineBreak (cleanLabel response) = false.
Proof.
  unfold cleanLabel, prefix, stripQuotes.
  apply substring_oneLine, dropLastIf_oneLine, dropLastIf_oneLine, dropFirstIf_oneLine,
    firstPiece_oneLine.
Qed.

Lemma cleanCue_oneLine response : hasLineBreak (ContentJs.cleanCue response) = false.
Proof.
  unfold ContentJs.cleanCue, prefix.
  apply substring_oneLine, dropLastIf_oneLine, firstPiece_oneLine.
Qed.

Lemma cleanCue_length response : String.length (ContentJs.cleanCue response) ≤ 100.
Proof. unfold ContentJs.cleanCue. apply prefix_length_max. Qed.

(** ** Labels, clones and bounded text *)








(** *** The clone of the content area *)

Lemma elementsOf_cleanTag_pruned n :
  Forall (λ x, cleanTag x = true) (descendantsOf (pruneClone n)).
Proof.
  induction n as [s|h t cs IH] using Node_induction; [constructor|].
  unfold pruneClone in *. cbn [rewriteChildren descendantsOf].
  induction IH as [|c cs Hc _ IHcs]; [constructor|].
  cbn [map filter]. 
  destruct (decide (tagIn removedFromClone
      (rewriteChildren (λ (_ : nat) (cs0 : list Node), filter (λ c0 : Node, tagIn removedFromClone c0 = false) cs0) c) = false)) as [Hk|Hk].
  - rewrite filter_cons_True by exact Hk. cbn [flat_map]. apply Forall_app. split; [|exact IHcs].
    destruct c as [s|h' t' cs']; [constructor|].
    cbn [rewriteChildren elementsOf]. constructor.
    + unfold cleanTag. cbn [rewriteChildren] in Hk. now rewrite Hk.
    + exact Hc.
  - rewrite filter_cons_False by exact Hk. exact IHcs.
Qed.

Lemma pruneClone_clean n :
  Forall (λ x, cleanTag x = true) (descendantsOf n) → pruneClone n = n.
Proof.
  induction n as [s|h t cs IH] using Node_induction; [reflexivity|].
  unfold pruneClone in *. cbn [rewriteChildren descendantsOf]. intros Hclean. f_equal.
  induction IH as [|c cs Hc _ IHcs]; [reflexivity|].
  cbn [flat_map] in Hclean. apply Forall_app in Hclean as [Hc1 Hcs].
  cbn [map]. rewrite Hc.
  - destruct c as [s|h' t' cs'].
    + rewrite filter_cons_True by reflexivity. f_equal. now apply IHcs.
    + cbn [elementsOf] in Hc1. apply Forall_cons in Hc1 as [Hself _].
      unfold cleanTag in Hself. apply negb_true_iff in Hself.
      rewrite filter_cons_True by exact Hself. f_equal. now apply IHcs.
  - destruct c as [s|h' t' cs']; [constructor|].
    cbn [elementsOf] in Hc1. apply Forall_cons in Hc1 as [_ Hd]. exact Hd.
Qed.

(** The clone that [extractMainContent] reads holds no script, style or
    noscript element below its root, and a content area without any is
    cloned as it is. *)
Theorem pruneClone_removes_scripts (area : Node) :
  Forall (λ n, cleanTag n = true) (descendantsOf (pruneClone area))
  ∧ (Forall (λ n, cleanTag n = true) (descendantsOf area) → pruneClone area = area).
Proof. split; [apply elementsOf_cleanTag_pruned | apply pruneClone_clean]. Qed.

Section PureProperties.
Context `{Rendering}.

Lemma extractMainContent_bounds d :
  String.length (extractMainContent d) ≤ 5000
  ∧ trim (extractMainContent d) = extractMainContent d.
Proof.
  unfold extractMainContent.
  destruct (match querySelector d ["MAIN"], querySelector d ["ARTICLE"] with
            | Some m, _ => Some m
            | None, Some a => Some a
            | None, None => findNode d (body d)
            end) as [area|]; [|split; [cbn; lia | reflexivity]].
  cbn zeta. split; [|apply trim_idem].
  etransitivity; [apply trim_length | apply prefix_length_max].
Qed.

Lemma getSectionContent_trimmed d heading :
  trim (getSectionContent d heading) = getSectionContent d heading.
Proof.
  unfold getSectionContent. destruct (ancestry d heading) as [|f up]; [reflexivity|].
  unfold sectionContentAt. cbn zeta. apply trim_idem.
Qed.

Lemma walkSiblings_length d level siblings content :
  String.length content ≤ 3000 →
  String.length (walkSiblings d level siblings content) ≤ 3000.
Proof.
  intros Hc. rewrite walkSiblings_own by exact Hc. apply prefix_length_max.
Qed.

Lemma walkParentSiblings_length d level siblings content m :
  longestText d siblings ≤ m →
  String.length content ≤ 3000 + m →
  String.length (walkParentSiblings d level siblings content) ≤ 3000 + m.
Proof.
  revert content. induction siblings as [|n rest IH]; intros content Hm Hc; [exact Hc|].
  cbn [longestText foldr] in Hm. fold (longestText d rest) in Hm.
  cbn [walkParentSiblings].
  destruct (String.length content <? 3000) eqn:E; cbn [negb]; [|exact Hc].
  apply Nat.ltb_lt in E.
  destruct (match querySelectorIn n headingTags with
            | Some nextHeading => levelLe (levelOf nextHeading) level
            | None => false
            end); [exact Hc|].
  cbn zeta. apply IH; [lia|].
  destruct (negb (isEmpty (trim (textOf d n))) && negb (tagIn skippedTags n)); [|exact Hc].
  rewrite !append_length. cbn. lia.
Qed.

(** The [substring(0, 3000)] of [getSectionContent] guards the loops
    only: the text of the following siblings of the heading stays within
    3000 characters, but the second loop appends a whole sibling of the
    parent before it tests the length, so the result can exceed 3000
    characters by the text of one such sibling.  The result is
    trimmed. *)
Theorem getSectionContent_length (d : Document) (heading : nat) :
  String.length (getSectionContent d heading)
  ≤ 3000 + longestText d (parentSiblings d heading)
  ∧ trim (getSectionContent d heading) = getSectionContent d heading.
Proof.
  split; [|apply getSectionContent_trimmed].
  unfold getSectionContent, parentSiblings.
  destruct (ancestry d heading) as [|f up]; [cbn; lia|].
  unfold sectionContentAt. cbn zeta.
  etransitivity; [apply trim_length|].
  assert (Hw : String.length (walkSiblings d (levelOf (self f)) (elementsAmong (after f))
                                EmptyString) ≤ 3000)
    by (apply walkSiblings_length; cbn; lia).
  destruct up as [|p up'].
  - unfold gathered. cbn zeta.
    destruct (String.length _ <? 50); cbn [longestText foldr]; lia.
  - destruct (String.length (gathered d (self f) (elementsAmong (after f))
                               (Some (self p, elementsAmong (after p)))) <? 50).
    + pose proof (prefix_length_max 3000 (orElse (innerTextOf d (self p)) EmptyString)). lia.
    + unfold gathered. cbn zeta.
      destruct (String.length _ <? 50); [|lia].
      apply walkParentSiblings_length; [lia | lia].
Qed.

Lemma trim_space s : trim (" " +:+ s) = trim s.
Proof. reflexivity. Qed.

Lemma nearestHeadingText_none d ancestors depth :
  Forall (λ a, querySelectorIn a headingTags = None) (take depth ancestors) →
  nearestHeadingText d ancestors depth = EmptyString.
Proof.
  revert depth. induction ancestors as [|a rest IH]; intros [|depth]; try reflexivity.
  cbn [take nearestHeadingText]. intros [Ha Hrest]%Forall_cons. rewrite Ha. now apply IH.
Qed.

(** [getElementContext] searches the first five ancestors for a heading:
    when none of them holds one, the context is the first 200 characters
    of the parent's text, whatever headings lie further up. *)
Theorem getElementContext_depth (d : Document) (el : nat) :
  Forall (λ a, querySelectorIn a headingTags = None) (take 5 (ancestorElements d el)) →
  getElementContext d el
  = trim (prefix 200 (from_option (innerTextOf d) EmptyString (head (ancestorElements d el))))
  ∧ String.length (getElementContext d el) ≤ 200.
Proof.
  intros Hnone. unfold getElementContext. cbn zeta. fold (ancestorElements d el).
  rewrite (nearestHeadingText_none _ _ _ Hnone), append_nil, trim_space.
  assert (E : match ancestorElements d el with
              | parent :: _ => orElse (innerTextOf d parent) EmptyString
              | [] => EmptyString
              end = from_option (innerTextOf d) EmptyString (head (ancestorElements d el))).
  { destruct (ancestorElements d el) as [|p ?]; [reflexivity|]. cbn.
    now destruct (innerTextOf d p). }
  rewrite E. split; [reflexivity|].
  etransitivity; [apply trim_length | apply prefix_length_max].
Qed.

End PureProperties.

Lemma getElementContext_depth_witness :
  @getElementContext plainRendering deepPage 9 = "Spare parts more".
Proof.
  destruct (@getElementContext_depth plainRendering deepPage 9) as [E _].
  - vm_compute. repeat constructor.
  - rewrite E. vm_compute. reflexivity.
Defined.

(** ** The live region *)

Lemma fresh_not_in_tree d n :
  n ∈ elementsOf (documentElement d) → handleOf n ≠ Some (freshHandle d).
Proof.
  intros Hin Hh. unfold freshHandle in Hh.
  apply (is_fresh (dom (attributeTable d)
                   ∪ list_to_set (omap handleOf (elementsOf (documentElement d))))).
  apply elem_of_union. right. apply elem_of_list_to_set, list_elem_of_omap.
  exists n. split; [exact Hin | exact Hh].
Qed.

Lemma existsb_app' {A} (p : A → bool) a b : existsb p (a ++ b) = existsb p a || existsb p b.
Proof. apply existsb_app. Qed.

Lemma find_appendChild q b new n :
  (∀ x, x ∈ elementsOf n → byHandle q x = false) → byHandle q new = true →
  List.find (byHandle q)
    (elementsOf (rewriteChildren (λ i cs, if i =? b then cs ++ [new] else cs) n))
  = if existsb (hasHandle b) (elementsOf n) then Some new else None.
Proof.
  intros Hold Hnew.
  assert (Hfound : List.find (byHandle q) (elementsOf new) = Some new).
  { destruct new as [?|h t cs]; [discriminate|]. cbn [elementsOf List.find]. now rewrite Hnew. }
  induction n as [s|h t cs IH] using Node_induction; [reflexivity|].
  cbn [rewriteChildren elementsOf List.find existsb hasHandle].
  assert (Hself : byHandle q (Element h t cs) = false) by (apply Hold; cbn; left).
  replace (byHandle q (Element h t (if h =? b then _ else _))) with false by exact (eq_sym Hself).
  assert (Hkids : List.find (byHandle q)
                    (flat_map elementsOf
                       (map (rewriteChildren (λ i cs0, if i =? b then cs0 ++ [new] else cs0)) cs))
                  = if existsb (hasHandle b) (flat_map elementsOf cs) then Some new else None).
  { assert (Hc : ∀ x, x ∈ flat_map elementsOf cs → byHandle q x = false).
    { intros x Hx. apply Hold. cbn. now right. }
    clear Hold Hself.
    induction IH as [|c cs Hi _ IHcs]; [reflexivity|].
    cbn [map flat_map]. rewrite find_app, existsb_app.
    rewrite Hi by (intros x Hx; apply Hc; cbn; apply elem_of_app; now left).
    destruct (existsb (hasHandle b) (elementsOf c)); [reflexivity|].
    apply IHcs. intros x Hx. apply Hc. cbn. apply elem_of_app. now right. }
  destruct (h =? b); cbn [orb].
  - rewrite flat_map_app, find_app, Hkids. cbn [flat_map]. rewrite app_nil_r, Hfound.
    now destruct (existsb _ _).
  - exact Hkids.
Qed.

Lemma createPersistentLiveRegion_new s :
  getElementById (page s) announcerId = None →
  let region := freshHandle (page s) in
  (createPersistentLiveRegion s).1 = region
  ∧ page (createPersistentLiveRegion s).2
    = {| documentElement :=
           rewriteChildren (λ i cs, if i =? body (page s) then cs ++ [Element region "DIV" []] else cs)
             (documentElement (page s));
         body := body (page s);
         attributeTable := <[region := announcerAttributes]> (attributeTable (page s)) |}.
Proof.
  intros Hnone. cbv zeta. unfold createPersistentLiveRegion. rewrite Hnone.
  unfold createElement. cbn. split; [reflexivity|].
  unfold appendChild, setAttribute, withTree, withAttributes, attributesOf. cbn.
  f_equal.
  rewrite !lookup_insert_eq. cbn. rewrite !insert_insert_eq. reflexivity.
Qed.

Lemma getElementById_none d id x :
  getElementById d id = None → x ∈ elementsOf (documentElement d) →
  byHandle (λ h, bool_decide (getAttribute d h "id" = Some id)) x = false.
Proof.
  rewrite getElementById_byHandle. intros Hnone Hin.
  apply list_elem_of_In in Hin. exact (find_none _ _ Hnone x Hin).
Qed.

Lemma findNode_existsb d h :
  is_Some (findNode d h) → existsb (hasHandle h) (elementsOf (documentElement d)) = true.
Proof.
  intros [n Hn]. unfold findNode in Hn. apply find_some in Hn as [Hin Hh].
  apply existsb_exists. eauto.
Qed.

(** [createPersistentLiveRegion] creates the live region once: on a page
    without one it appends a [div] with the five attributes to the body,
    and every later call returns that element and leaves the page as it
    is. *)
Theorem createPersistentLiveRegion_once (s : State) :
  getElementById (page s) announcerId = None →
  is_Some (findNode (page s) (body (page s))) →
  let region := (createPersistentLiveRegion s).1 in
  let s1 := (createPersistentLiveRegion s).2 in
  getElementById (page s1) announcerId = Some (Element region "DIV" [])
  ∧ attributesOf (page s1) region = announcerAttributes
  ∧ createPersistentLiveRegion s1 = (region, s1).
Proof.
  intros Hnone Hbody. cbv zeta.
  destruct (createPersistentLiveRegion_new s Hnone) as [Hr Hp].
  cbv zeta in Hr, Hp. rewrite Hr.
  set (region := freshHandle (page s)) in *.
  set (s1 := (createPersistentLiveRegion s).2) in *.
  assert (Hattr : attributesOf (page s1) region = announcerAttributes).
  { rewrite Hp. unfold attributesOf. cbn. now rewrite lookup_insert_eq. }
  assert (Hfound : getElementById (page s1) announcerId = Some (Element region "DIV" [])).
  { rewrite getElementById_byHandle, Hp. cbn [documentElement].
    rewrite find_appendChild.
    - now rewrite (findNode_existsb _ _ Hbody).
    - intros x Hx. pose proof (getElementById_none _ _ x Hnone Hx) as Hq.
      pose proof (fresh_not_in_tree _ x Hx) as Hfresh.
      unfold byHandle in *. destruct (handleOf x) as [h|]; [|reflexivity].
      assert (E : ∀ d' : Document,
                 attributeTable d' = <[region:=announcerAttributes]> (attributeTable (page s)) →
                 getAttribute d' h "id" = getAttribute (page s) h "id").
      { intros d' Hd. unfold getAttribute, attributesOf. rewrite Hd.
        rewrite lookup_insert_ne; [reflexivity|]. intros E. apply Hfresh. now subst h. }
      rewrite E by reflexivity. exact Hq.
    - unfold byHandle. cbn [handleOf]. apply bool_decide_eq_true_2.
      unfold getAttribute, attributesOf. cbn. now rewrite lookup_insert_eq. }
  repeat split; [exact Hfound | exact Hattr|].
  unfold createPersistentLiveRegion at 1. now rewrite Hfound.
Qed.

Lemma createPersistentLiveRegion_once_witness :
  let s := freshState articlePage in
  let s1 := (createPersistentLiveRegion s).2 in
  getElementById (page s1) announcerId = Some (Element 6 "DIV" [])
  ∧ createPersistentLiveRegion s1 = (6, s1).
Proof.
  cbv zeta.
  destruct (createPersistentLiveRegion_once (freshState articlePage)) as (Hf & _ & Ho).
  - reflexivity.
  - vm_compute. eauto.
  - split; [exact Hf | exact Ho].
Defined.

(** *** The text of the live region *)

Lemma find_hasHandle_rewrite r new n :
  List.find (hasHandle r) (elementsOf (rewriteChildren (λ i cs, if i =? r then new else cs) n))
  = retagged new <$> List.find (hasHandle r) (elementsOf n).
Proof.
  induction n as [s|h t cs IH] using Node_induction; [reflexivity|].
  cbn [rewriteChildren elementsOf List.find hasHandle].
  destruct (h =? r) eqn:E; [reflexivity|].
  induction IH as [|c cs Hc _ IHcs]; [reflexivity|].
  cbn [map flat_map]. rewrite !find_app, Hc.
  destruct (List.find (hasHandle r) (elementsOf c)); [reflexivity | exact IHcs].
Qed.

Lemma findNode_handle d r n : findNode d r = Some n → ∃ t cs, n = Element r t cs.
Proof.
  unfold findNode. intros Hf. apply find_some in Hf as [_ Hh].
  destruct n as [?|h t cs]; [discriminate|]. cbn in Hh. apply Nat.eqb_eq in Hh. subst h. eauto.
Qed.

Lemma findNode_setInnerText d r text :
  findNode (setInnerText r text d) r
  = retagged (if isEmpty text then [] else [Text text]) <$> findNode d r.
Proof. unfold findNode, setInnerText. cbn. apply find_hasHandle_rewrite. Qed.

Lemma textContent_setInnerText d r text :
  is_Some (findNode d r) → textContent (setInnerText r text d) r = text.
Proof.
  intros [n Hn]. unfold textContent. rewrite findNode_setInnerText, Hn.
  destruct (findNode_handle _ _ _ Hn) as (t & cs & ->). cbn.
  destruct text; [reflexivity|]. cbn. now rewrite append_empty_r.
Qed.

Lemma findNode_setInnerText_some d r text :
  is_Some (findNode d r) → is_Some (findNode (setInnerText r text d) r).
Proof. intros [n Hn]. rewrite findNode_setInnerText, Hn. cbn. eauto. Qed.

Lemma findNode_found d id r t cs :
  getElementById d id = Some (Element r t cs) → is_Some (findNode d r).
Proof.
  rewrite getElementById_byHandle. intros Hf. apply find_some in Hf as [Hin _].
  unfold findNode. destruct (List.find (hasHandle r) _) eqn:E; [eauto|].
  pose proof (find_none _ _ E _ Hin) as Hn. cbn in Hn. now rewrite Nat.eqb_refl in Hn.
Qed.

(** *** Single steps of the event loop *)

Lemma eventLoop_fire fuel ready s t rest :
  timers s = t :: rest → ready t = true →
  eventLoop (S fuel) ready s
  = eventLoop fuel ready
      (fire (callback t) (withNow (now s `max` due t) (withTimers rest (timerSeq s) s))).
Proof. intros Ht Hr. cbn [eventLoop]. now rewrite Ht, Hr. Qed.

Lemma eventLoop_wait fuel ready s t rest :
  timers s = t :: rest → ready t = false → eventLoop fuel ready s = s.
Proof. intros Ht Hr. destruct fuel; [reflexivity|]. cbn [eventLoop]. now rewrite Ht, Hr. Qed.

Lemma eventLoop_idle fuel ready s : timers s = [] → eventLoop fuel ready s = s.
Proof. intros Ht. destruct fuel; [reflexivity|]. cbn [eventLoop]. now rewrite Ht. Qed.

Lemma enqueue_pair (t c : Timer) : due t ≤ due c → enqueue c (enqueue t []) = [t; c].
Proof. intros Hle. cbn [enqueue]. apply Nat.leb_le in Hle. now rewrite Hle. Qed.

(** The life of an announcement on an idle page: a task that resumes
    [ms] after the call finds the text in the region from 100 ms until
    just before 10 s, and the empty string before and after. *)
Theorem announcement_shown_then_cleared (text : string) (s : State) (region : nat)
    (tag : string) (cs : list Node) (ms : nat) :
  timers s = [] →
  getElementById (page s) announcerId = Some (Element region tag cs) →
  textContent (page (suspend ms (announce text s))) region
  = (if (100 <=? ms) && (ms <? 10 * 1000) then text else EmptyString)
  ∧ textContent (page (settle (announce text s))) region = EmptyString.
Proof.
  intros Hidle Hfound.
  rewrite (announce_found text s region tag cs Hfound).
  pose proof (findNode_found _ _ _ _ _ Hfound) as Hin.
  generalize (10 * 1000) (eq_refl : (100 <? 10 * 1000) = true).
  intros late Hlate. apply Nat.ltb_lt in Hlate.
  set (t := {| due := now s + 100; seq := timerSeq s; callback := SetRegionText region text |}).
  set (c := {| due := now s + late; seq := S (timerSeq s);
               callback := SetRegionText region EmptyString |}).
  set (s0 := writeRegion region EmptyString (record (Announced text) s)).
  assert (Hin0 : is_Some (findNode (page s0) region))
    by (apply findNode_setInnerText_some, Hin).
  assert (Htext0 : textContent (page s0) region = EmptyString)
    by (apply textContent_setInnerText, Hin).
  set (s2 := setTimeout _ late _).
  assert (Hq : timers s2 = [t; c]).
  { change (timers s2) with (enqueue c (enqueue t (timers s))).
    rewrite Hidle. apply enqueue_pair. cbn. lia. }
  assert (Hnow : now s2 = now s) by reflexivity.
  assert (Hseq : timerSeq s2 = S (S (timerSeq s))) by reflexivity.
  assert (Hpage : page s2 = page s0) by reflexivity.
  (* the state after the first timer *)
  set (s3 := fire (callback t) (withNow (now s2 `max` due t) (withTimers [c] (timerSeq s2) s2))).
  assert (Hq3 : timers s3 = [c]) by reflexivity.
  assert (Hin3 : is_Some (findNode (page s3) region)).
  { change (page s3) with (setInnerText region text (page s0)).
    now apply findNode_setInnerText_some. }
  assert (Htext3 : textContent (page s3) region = text).
  { change (page s3) with (setInnerText region text (page s0)).
    now apply textContent_setInnerText. }
  set (s4 := fire (callback c) (withNow (now s3 `max` due c) (withTimers [] (timerSeq s3) s3))).
  assert (Hq4 : timers s4 = []) by reflexivity.
  assert (Htext4 : textContent (page s4) region = EmptyString).
  { change (page s4) with (setInnerText region EmptyString (page s3)).
    now apply textContent_setInnerText. }
  split.
  - unfold suspend. cbn zeta. rewrite Hq. change (pending [t; c]) with 2.
    change (page (withNow ?n ?st)) with (page st).
    set (ready := dueBefore (now s2 + ms) (timerSeq s2)).
    assert (Hrt : ready t = (100 <=? ms)).
    { unfold ready, dueBefore. rewrite Hnow, Hseq. cbn [due seq t].
      destruct (100 <=? ms) eqn:E.
      - apply Nat.leb_le in E. apply orb_true_iff.
        destruct (decide (ms = 100)) as [->|Hne].
        + right. apply andb_true_iff. split; [apply Nat.eqb_refl | apply Nat.ltb_lt; lia].
        + left. apply Nat.ltb_lt. lia.
      - apply Nat.leb_gt in E. apply orb_false_iff. split.
        + apply Nat.ltb_ge. lia.
        + apply andb_false_iff. left. apply Nat.eqb_neq. lia. }
    assert (Hrc : ready c = (late <=? ms)).
    { unfold ready, dueBefore. rewrite Hnow, Hseq. cbn [due seq c].
      destruct (late <=? ms) eqn:E.
      - apply Nat.leb_le in E. apply orb_true_iff.
        destruct (decide (ms = late)) as [->|Hne].
        + right. apply andb_true_iff. split; [apply Nat.eqb_refl | apply Nat.ltb_lt; lia].
        + left. apply Nat.ltb_lt. lia.
      - apply Nat.leb_gt in E. apply orb_false_iff. split.
        + apply Nat.ltb_ge. lia.
        + apply andb_false_iff. left. apply Nat.eqb_neq. lia. }
    destruct (100 <=? ms) eqn:E1.
    + rewrite (eventLoop_fire 1 ready s2 t [c] Hq Hrt). fold s3.
      destruct (late <=? ms) eqn:E2.
      * rewrite (eventLoop_fire 0 ready s3 c [] Hq3 Hrc). fold s4. cbn [eventLoop].
        apply Nat.leb_le in E2. apply Nat.ltb_ge in E2. rewrite E2. exact Htext4.
      * rewrite (eventLoop_wait 1 ready s3 c [] Hq3 Hrc).
        apply Nat.leb_gt in E2. apply Nat.ltb_lt in E2. rewrite E2. exact Htext3.
    + rewrite (eventLoop_wait 2 ready s2 t [c] Hq Hrt). cbn [andb]. rewrite Hpage. exact Htext0.
  - unfold settle. rewrite Hq. change (pending [t; c]) with 2.
    rewrite (eventLoop_fire 1 _ s2 t [c] Hq eq_refl). fold s3.
    rewrite (eventLoop_fire 0 _ s3 c [] Hq3 eq_refl). fold s4. exact Htext4.
Qed.

Lemma announcement_shown_then_cleared_witness :
  let s := freshState loadedPage in
  textContent (page (suspend 100 (announce "Done" s))) 4 = "Done"
  ∧ textContent (page (settle (announce "Done" s))) 4 = EmptyString.
Proof.
  cbv zeta.
  destruct (announcement_shown_then_cleared "Done" (freshState loadedPage) 4 "DIV" [] 100
              eq_refl eq_refl) as [Hshown Hcleared].
  split; [exact Hshown | exact Hcleared].
Defined.

(** ** What the announcement channel leaves of a page *)

Lemma matching_flat_map tags cs :
  omap handleOf (filter (λ x, tagIn tags x = true) (flat_map elementsOf cs))
  = flat_map (matching tags) cs.
Proof.
  induction cs as [|c cs IH]; [reflexivity|].
  cbn [flat_map]. rewrite filter_app, omap_app, IH. reflexivity.
Qed.

Lemma matching_Element tags h t cs :
  matching tags (Element h t cs)
  = (if tagIn tags (Element h t []) then [h] else []) ++ flat_map (matching tags) cs.
Proof.
  unfold matching at 1. cbn [elementsOf].
  change (tagIn tags (Element h t [])) with (tagIn tags (Element h t cs)).
  destruct (tagIn tags (Element h t cs)) eqn:E.
  - rewrite filter_cons_True by exact E. cbn [omap handleOf]. cbn. f_equal. apply matching_flat_map.
  - rewrite filter_cons_False by (rewrite E; discriminate). apply matching_flat_map.
Qed.

Lemma sublist_flat_map {A B} (f g : A → list B) l :
  Forall (λ x, f x `sublist_of` g x) l → flat_map f l `sublist_of` flat_map g l.
Proof.
  induction 1 as [|x l Hx _ IH]; [constructor|]. cbn. now apply sublist_app.
Qed.

(** Rewriting the children lists of a tree in a way that adds no
    matching element leaves a sublist of the matching elements. *)
Lemma matching_rewriteChildren tags f n :
  (∀ i cs, flat_map (matching tags) (f i cs) `sublist_of` flat_map (matching tags) cs) →
  matching tags (rewriteChildren f n) `sublist_of` matching tags n.
Proof.
  intros Hf. induction n as [s|h t cs IH] using Node_induction; [reflexivity|].
  cbn [rewriteChildren]. rewrite !matching_Element. apply sublist_app; [reflexivity|].
  etransitivity; [apply Hf|].
  induction IH as [|c cs Hc _ IHcs]; [reflexivity|].
  cbn [map flat_map]. now apply sublist_app.
Qed.


Lemma matching_setInnerText tags r text n :
  matching tags (rewriteChildren
                   (λ i cs, if i =? r then (if isEmpty text then [] else [Text text]) else cs) n)
  `sublist_of` matching tags n.
Proof.
  apply matching_rewriteChildren. intros i cs.
  destruct (i =? r); [|reflexivity].
  destruct (isEmpty text); cbn; apply sublist_nil_l.
Qed.

Lemma matching_appendChild tags b h t n :
  tagIn tags (Element h t []) = false →
  matching tags (rewriteChildren (λ i cs, if i =? b then cs ++ [Element h t []] else cs) n)
  `sublist_of` matching tags n.
Proof.
  intros Ht. apply matching_rewriteChildren. intros i cs.
  destruct (i =? b); [|reflexivity].
  rewrite flat_map_app. cbn [flat_map]. rewrite matching_Element, Ht. cbn.
  now rewrite !app_nil_r.
Qed.

Lemma tagIn_absent tags h t cs : t ∉ tags → tagIn tags (Element h t cs) = false.
Proof.
  intros Hn. unfold tagIn. cbn [tagOf].
  destruct (existsb (String.eqb t) tags) eqn:E; [|reflexivity].
  apply existsb_exists in E as (x & Hin & Heq). apply String.eqb_eq in Heq. subst x.
  exfalso. apply Hn. now apply list_elem_of_In.
Qed.

(** *** Undisturbed pages *)

Lemma undisturbed_refl d : undisturbed d d.
Proof. split; intros; reflexivity. Qed.

Lemma undisturbed_trans d1 d2 d3 : undisturbed d1 d2 → undisturbed d2 d3 → undisturbed d1 d3.
Proof.
  intros [T1 A1] [T2 A2]. split.
  - intros tags Ht. etransitivity; [apply T2 | apply T1]; exact Ht.
  - intros el name Hn. rewrite A2, A1 by exact Hn. reflexivity.
Qed.

Lemma undisturbed_setInnerText r text d : undisturbed d (setInnerText r text d).
Proof.
  split; [|reflexivity]. intros tags _. apply matching_setInnerText.
Qed.

Lemma getElementById_cases d id :
  getElementById d id = None ∨ ∃ r t cs, getElementById d id = Some (Element r t cs).
Proof.
  destruct (getElementById d id) as [n|] eqn:E; [right | now left].
  rewrite getElementById_byHandle in E. apply find_byHandle in E as [h Hh].
  destruct n as [?|r t cs]; [discriminate | eauto].
Qed.

Lemma lookupAttr_absent name (l : list (string * string)) :
  name ∉ map fst l → lookupAttr name l = None.
Proof.
  induction l as [|[k v] l IH]; [reflexivity|].
  cbn [map fst lookupAttr]. intros Hn. apply not_elem_of_cons in Hn as [Hk Hl].
  destruct (String.eqb k name) eqn:E; [apply String.eqb_eq in E; congruence | now apply IH].
Qed.

Lemma undisturbed_createPersistentLiveRegion s :
  undisturbed (page s) (page (createPersistentLiveRegion s).2).
Proof.
  destruct (getElementById_cases (page s) announcerId) as [Hnone|(r & t & cs & Hfound)].
  - destruct (createPersistentLiveRegion_new s Hnone) as [_ ->]. split.
    + intros tags Hdiv. apply matching_appendChild. now apply tagIn_absent.
    + intros el name Hname. unfold getAttribute, attributesOf. cbn.
      destruct (decide (freshHandle (page s) = el)) as [<-|Hne].
      * rewrite lookup_insert_eq, freshHandle_unused.
        now apply lookupAttr_absent.
      * now rewrite lookup_insert_ne.
  - unfold createPersistentLiveRegion. rewrite Hfound. apply undisturbed_refl.
Qed.

Lemma gentle_refl s : gentle s s.
Proof. apply undisturbed_refl. Qed.

Lemma gentle_trans s1 s2 s3 : gentle s1 s2 → gentle s2 s3 → gentle s1 s3.
Proof. apply undisturbed_trans. Qed.

Lemma gentle_same s s' : page s' = page s → gentle s s'.
Proof. unfold gentle. intros ->. apply undisturbed_refl. Qed.

Lemma gentle_writeRegion region text s : gentle s (writeRegion region text s).
Proof. apply undisturbed_setInnerText. Qed.

Lemma gentle_announce text s : gentle s (announce text s).
Proof.
  unfold announce.
  pose proof (undisturbed_createPersistentLiveRegion (record (Announced text) s)) as Hc.
  destruct (createPersistentLiveRegion (record (Announced text) s)) as [region s1].
  cbn [snd] in Hc. unfold gentle.
  change (page (setTimeout _ _ (setTimeout _ _ (writeRegion region EmptyString s1))))
    with (setInnerText region EmptyString (page s1)).
  eapply undisturbed_trans; [exact Hc | apply undisturbed_setInnerText].
Qed.

Lemma gentle_fire cb s : gentle s (fire cb s).
Proof. destruct cb; [apply gentle_writeRegion | apply gentle_announce]. Qed.

Lemma gentle_eventLoop fuel ready s : gentle s (eventLoop fuel ready s).
Proof.
  revert s. induction fuel as [|fuel IH]; intros s; cbn [eventLoop]; [apply gentle_refl|].
  destruct (timers s) as [|t rest]; [apply gentle_refl|].
  destruct (ready t); [|apply gentle_refl].
  eapply gentle_trans; [|apply IH].
  eapply gentle_trans; [|apply gentle_fire]. now apply gentle_same.
Qed.

Lemma gentle_suspend ms s : gentle s (suspend ms s).
Proof.
  unfold suspend. eapply gentle_trans; [apply gentle_eventLoop | now apply gentle_same].
Qed.

Lemma gentle_settle s : gentle s (settle s).
Proof. apply gentle_eventLoop. Qed.

(** ** Errors and loops *)

(** *** Tasks that keep a relation *)

Section Keeps.
Variable R : State → State → Prop.
Hypothesis R_refl : ∀ s, R s s.
Hypothesis R_trans : ∀ s1 s2 s3, R s1 s2 → R s2 s3 → R s1 s3.

Lemma keeps_ret {A} (a : A) : keeps R (mret a).
Proof. intros s. apply R_refl. Qed.

Lemma keeps_throw {A} message : keeps R (@throw A message).
Proof. intros s. apply R_refl. Qed.

Lemma keeps_gets {A} (f : State → A) : keeps R (gets f).
Proof. intros s. apply R_refl. Qed.

Lemma keeps_modify f : (∀ s, R s (f s)) → keeps R (modify f).
Proof. intros Hf s. apply Hf. Qed.

Lemma keeps_bind {A B} (m : Task A) (k : A → Task B) :
  keeps R m → (∀ a, keeps R (k a)) → keeps R (m ≫= k).
Proof.
  intros Hm Hk s. rewrite run_bind. specialize (Hm s).
  destruct (m s) as [[a|e] s']; cbn in *; [|exact Hm].
  eapply R_trans; [exact Hm | apply Hk].
Qed.

Lemma keeps_tryCatch {A} (body : Task A) handler :
  keeps R body → (∀ e, keeps R (handler e)) → keeps R (tryCatch body handler).
Proof.
  intros Hb Hh s. unfold tryCatch. specialize (Hb s).
  destruct (body s) as [[a|e] s']; cbn in *; [exact Hb|].
  eapply R_trans; [exact Hb | apply Hh].
Qed.

Lemma keeps_when b t : keeps R t → keeps R (when b t).
Proof. intros Ht. destruct b; [exact Ht | apply keeps_ret]. Qed.

Lemma keeps_settled {A} (o : Outcome A) : keeps R (settled o).
Proof. destruct o; [apply keeps_ret | apply keeps_throw]. Qed.

End Keeps.

Section GentleTasks.
Context `{Backends}.

Lemma gently_announce text : keeps gentle (modify (announce text)).
Proof. intros s. apply gentle_announce. Qed.

Lemma gently_sleep ms : keeps gentle (sleep ms).
Proof. intros s. apply gentle_suspend. Qed.

Lemma gently_queryAvailability api : keeps gentle (queryAvailability api).
Proof.
  unfold queryAvailability.
  apply (keeps_bind gentle gentle_trans); [apply (keeps_gets gentle gentle_refl)|]. intros n.
  apply (keeps_bind gentle gentle_trans).
  - intros s. now apply gentle_same.
  - intros _. destruct (availability (capability api) n) as [elapsed outcome].
    apply (keeps_bind gentle gentle_trans); [apply gently_sleep|]. intros _.
    apply (keeps_settled gentle gentle_refl).
Qed.

End GentleTasks.

(** *** No pipeline ends by a thrown error *)



Section NeverThrows.
Context `{Rendering} `{Backends}.


End NeverThrows.

(** *** The loops over the items *)

Lemma returns_ret {A} (ok : A → Prop) a : ok a → returns ok (mret a).
Proof. intros Ha s. exact Ha. Qed.

Lemma returns_bind {A B} (ok : B → Prop) (m : Task A) (k : A → Task B) :
  (∀ a, returns ok (k a)) → returns ok (m ≫= k).
Proof.
  intros Hk s. rewrite run_bind. destruct (m s) as [[a|e] s']; [apply Hk | exact I].
Qed.

Ltac returns_step :=
  lazymatch goal with
  | |- returns _ (mret _) => apply returns_ret; lia
  | |- returns _ (_ ≫= _) => apply returns_bind; intros ?
  | |- returns _ (if ?b then _ else _) => destruct b
  end.

Lemma visitsAll_turn delay successCount (body : Task nat) :
  runs anyEvent body →
  returns (λ a, successCount ≤ a ≤ successCount + 1) body →
  visitsAll delay 1 successCount (sleep delay ≫= λ _, tryCatch body (λ _, mret successCount)).
Proof.
  intros Hruns Hvalue s. rewrite run_sleep_bind. unfold tryCatch.
  specialize (Hruns (suspend delay s)). specialize (Hvalue (suspend delay s)).
  pose proof (suspend_now delay s) as Hwait.
  apply later_now in Hruns.
  destruct (body (suspend delay s)) as [[a|e] s']; cbn [fst snd] in *.
  - exists a. repeat split; lia.
  - exists successCount. rewrite run_ret. cbn [fst snd]. repeat split; lia.
Qed.

Lemma visitsAll_nil delay successCount : visitsAll delay 0 successCount (mret successCount).
Proof. intros s. exists successCount. rewrite run_ret. cbn. repeat split; lia. Qed.

Lemma visitsAll_cons delay n successCount (turn : Task nat) (rest : nat → Task nat) :
  visitsAll delay 1 successCount turn →
  (∀ count, visitsAll delay n count (rest count)) →
  visitsAll delay (S n) successCount (turn ≫= rest).
Proof.
  intros Hturn Hrest s. rewrite run_bind.
  destruct (Hturn s) as (c1 & E1 & Hc1 & Ht1).
  destruct (turn s) as [r s1]. cbn [fst snd] in *. subst r.
  destruct (Hrest c1 s1) as (c2 & E2 & Hc2 & Ht2).
  exists c2. repeat split; [exact E2 | lia | lia | lia].
Qed.

Section Loops.
Context `{Rendering} `{Backends}.

Lemma summarizeHeading_visits total index heading successCount :
  visitsAll 1000 1 successCount (summarizeHeading total index heading successCount).
Proof.
  unfold summarizeHeading. apply visitsAll_turn.
  - runs_with (λ e (_ : ambient e), I : anyEvent e).
  - repeat returns_step.
Qed.

Lemma fixLabel_visits session total index element successCount :
  visitsAll 600 1 successCount (fixLabel session total index element successCount).
Proof.
  unfold fixLabel. apply visitsAll_turn.
  - runs_with (λ e (_ : ambient e), I : anyEvent e).
  - repeat returns_step.
Qed.

Lemma describeHeading_visits session total index heading successCount :
  visitsAll 800 1 successCount (ContentJs.describeHeading session total index heading successCount).
Proof.
  unfold ContentJs.describeHeading. apply visitsAll_turn.
  - runs_with (λ e (_ : ambient e), I : anyEvent e).
  - repeat returns_step.
Qed.

(** A failure on one item never stops a loop: each loop ends normally
    whatever the backend answers, counts at most one success per item,
    and takes at least the pacing delay per item. *)
Theorem loops_visit_every_item (session total index : nat) (items : list nat) (successCount : nat) :
  visitsAll 1000 (length items) successCount (summarizeHeadings total index items successCount)
  ∧ visitsAll 600 (length items) successCount (fixLabels session total index items successCount)
  ∧ visitsAll 800 (length items) successCount
      (ContentJs.describeHeadings session total index items successCount).
Proof.
  repeat split; revert index successCount;
    induction items as [|item rest IH]; intros index successCount; cbn [length].
  - apply visitsAll_nil.
  - cbn [summarizeHeadings]. apply visitsAll_cons; [apply summarizeHeading_visits|].
    intros count. apply IH.
  - apply visitsAll_nil.
  - cbn [fixLabels]. apply visitsAll_cons; [apply fixLabel_visits|].
    intros count. apply IH.
  - apply visitsAll_nil.
  - cbn [ContentJs.describeHeadings]. apply visitsAll_cons; [apply describeHeading_visits|].
    intros count. apply IH.
Qed.

End Loops.

(** ** The number of calls *)

(** *** The number of calls *)

Lemma ambient_notKind kind e : ambient e → notKind kind e.
Proof. destruct kind, e; cbn; (reflexivity || tauto). Qed.

Lemma notCall_notKind kind e : notCall e → notKind kind e.
Proof. destruct kind, e; cbn; (reflexivity || discriminate). Qed.

Lemma budget_stable kind n s0 : stable (notKind kind) (budget kind n s0).
Proof.
  intros s s' Hl [Hlen Hn]. split.
  - apply later_log_length in Hl. lia.
  - rewrite (later_count (isCall kind) (notKind kind) s0 s s'); [exact Hn | auto | exact Hlen | exact Hl].
Qed.

Lemma budget_weaken kind n m s0 s : n ≤ m → budget kind n s0 s → budget kind m s0 s.
Proof. intros Hle [Hlen Hn]. split; [exact Hlen | lia]. Qed.

Lemma budget_start kind s : budget kind 0 s s.
Proof. split; [lia|]. rewrite added_self. cbn. lia. Qed.

Lemma budget_record kind n s0 s e :
  budget kind n s0 s → budget kind (n + (if isCall kind e then 1 else 0)) s0 (record e s).
Proof.
  intros [Hlen Hn]. split; [cbn; rewrite length_app; lia|].
  unfold added. cbn [log record]. rewrite drop_app_le by exact Hlen.
  rewrite countEvents_app. fold (added s0 s).
  unfold countEvents at 2. cbn. destruct (isCall kind e); cbn; lia.
Qed.

Lemma triple_post {A} (P : State → Prop) (Q Q' : Completion A → State → Prop) (t : Task A) :
  triple P t Q → (∀ c s, Q c s → Q' c s) → triple P t Q'.
Proof. intros Ht HQ s HP. apply HQ, Ht, HP. Qed.

Lemma triple_pure {A} (P : State → Prop) (fact : Prop) (t : Task A) Q :
  (∀ s, P s → fact) → (fact → triple P t Q) → triple P t Q.
Proof. intros Hf Ht s HP. apply Ht; [eapply Hf, HP | exact HP]. Qed.

Section CallBudget.
Context `{Rendering} `{Backends}.

Lemma triple_createSession_budget kind n s0 api monitor :
  (∀ percent s, later (notKind kind) s (monitor percent s)) →
  triple (budget kind n s0) (createSession api monitor)
         (λ _, budget kind (n + creations kind) s0).
Proof.
  intros Hm. unfold createSession. apply triple_gets_bind. intros k.
  eapply triple_bind with (R := λ _, budget kind (n + creations kind) s0).
  - apply triple_modify. intros s [Hb _].
    eapply budget_stable; [apply later_calls|].
    pose proof (budget_record kind n s0 s (CreateCalled api) Hb) as Hr.
    now destruct kind.
  - intros ?. destruct (create (capability api) k) as [progress [elapsed outcome]].
    apply (triple_runs (notKind kind)); [apply budget_stable|].
    repeat runs_step.
    + now apply runs_downloadProgress; [apply ambient_notKind|].
    + apply runs_sleep, ambient_notKind.
    + later_then later_sessions. apply later_record. now destruct kind.
  - cbn. auto.
Qed.

Lemma triple_generate_budget kind n s0 api session input :
  triple (budget kind n s0) (generate api session input)
         (λ _, budget kind (n + generations kind) s0).
Proof.
  unfold generate. apply triple_gets_bind. intros k.
  eapply triple_bind with (R := λ _, budget kind (n + generations kind) s0).
  - apply triple_modify. intros s [Hb _].
    eapply budget_stable; [apply later_calls|].
    pose proof (budget_record kind n s0 s (GenerationCalled session input) Hb) as Hr.
    now destruct kind.
  - intros ?. destruct (run (capability api) k input) as [elapsed outcome].
    apply (triple_runs (notKind kind)); [apply budget_stable|].
    runs_with (ambient_notKind kind).
  - cbn. auto.
Qed.

Ltac budget_done :=
  eapply budget_weaken; [|eassumption]; cbn [creations generations length]; lia.

Ltac budget_step :=
  cbv beta;
  lazymatch goal with
  | |- triple _ (mret _) _ => apply triple_ret; intros ? ?; budget_done
  | |- triple _ (if ?b then _ else _) _ => destruct b eqn:?
  | |- triple (budget ?k ?n ?s0) (tryCatch _ _) ?Q =>
      eapply triple_tryCatch with (R := Q);
        [ | cbn beta; intros ? ? ?; assumption | intros ? ]
  | |- triple (budget ?k ?n ?s0) (generate _ _ _ ≫= _) _ =>
      eapply triple_bind with (R := λ _, budget k (n + generations k) s0);
        [ apply triple_generate_budget | intros ? | cbn beta; intros ? ? ?; budget_done ]
  | |- triple (budget ?k ?n ?s0) (createSession _ _ ≫= _) _ =>
      eapply triple_bind with (R := λ _, budget k (n + creations k) s0);
        [ apply triple_createSession_budget;
            intros; first [apply later_logProgress | apply later_overviewProgress, ambient_notKind]
        | intros ?
        | cbn beta; intros ? ? ?; budget_done ]
  | |- triple (budget ?k _ _) (_ ≫= _) _ =>
      eapply (triple_after (notKind k));
        [ apply budget_stable
        | runs_with (ambient_notKind k)
        | intros ?
        | intros ? ? ?; budget_done ]
  | |- triple (budget ?k _ _) _ _ =>
      eapply triple_post;
        [ apply (triple_runs (notKind k)); [apply budget_stable | runs_with (ambient_notKind k)]
        | cbn beta; intros ? ? ?; budget_done ]
  end.

Lemma summarizeHeading_budget kind n s0 total index heading successCount :
  triple (budget kind n s0) (summarizeHeading total index heading successCount)
         (λ _, budget kind (n + 1) s0).
Proof. destruct kind; unfold summarizeHeading; repeat budget_step. Qed.

Lemma fixLabel_budget kind n s0 session total index element successCount :
  triple (budget kind n s0) (fixLabel session total index element successCount)
         (λ _, budget kind (n + generations kind) s0).
Proof. destruct kind; unfold fixLabel; repeat budget_step. Qed.

Lemma describeHeading_budget kind n s0 session total index heading successCount :
  triple (budget kind n s0) (ContentJs.describeHeading session total index heading successCount)
         (λ _, budget kind (n + generations kind) s0).
Proof. destruct kind; unfold ContentJs.describeHeading; repeat budget_step. Qed.

Lemma summarizeHeadings_budget kind n s0 total index headings successCount :
  triple (budget kind n s0) (summarizeHeadings total index headings successCount)
         (λ _, budget kind (n + length headings) s0).
Proof.
  revert n index successCount.
  induction headings as [|heading rest IH]; intros n index successCount; cbn [summarizeHeadings].
  - apply triple_ret. intros s Hb. eapply budget_weaken; [|exact Hb]. cbn. lia.
  - eapply triple_bind; [apply summarizeHeading_budget | intros ? | cbn; intros ? ? Hb].
    + eapply triple_post; [apply IH|]. cbn beta. intros ? ? Hb.
      eapply budget_weaken; [|exact Hb]. cbn [length]. lia.
    + eapply budget_weaken; [|exact Hb]. cbn [length]. lia.
Qed.

Lemma fixLabels_budget kind n s0 session total index elements successCount :
  triple (budget kind n s0) (fixLabels session total index elements successCount)
         (λ _, budget kind (n + generations kind * length elements) s0).
Proof.
  revert n index successCount.
  induction elements as [|element rest IH]; intros n index successCount; cbn [fixLabels].
  - apply triple_ret. intros s Hb. eapply budget_weaken; [|exact Hb]. lia.
  - eapply triple_bind; [apply fixLabel_budget | intros ? | cbn; intros ? ? Hb].
    + eapply triple_post; [apply IH|]. cbn beta. intros ? ? Hb.
      eapply budget_weaken; [|exact Hb]. cbn [length]. lia.
    + eapply budget_weaken; [|exact Hb]. cbn [length]. lia.
Qed.

Lemma describeHeadings_budget kind n s0 session total index headings successCount :
  triple (budget kind n s0) (ContentJs.describeHeadings session total index headings successCount)
         (λ _, budget kind (n + generations kind * length headings) s0).
Proof.
  revert n index successCount.
  induction headings as [|heading rest IH]; intros n index successCount;
    cbn [ContentJs.describeHeadings].
  - apply triple_ret. intros s Hb. eapply budget_weaken; [|exact Hb]. lia.
  - eapply triple_bind; [apply describeHeading_budget | intros ? | cbn; intros ? ? Hb].
    + eapply triple_post; [apply IH|]. cbn beta. intros ? ? Hb.
      eapply budget_weaken; [|exact Hb]. cbn [length]. lia.
    + eapply budget_weaken; [|exact Hb]. cbn [length]. lia.
Qed.

End CallBudget.

(** ** The calls of a pipeline *)

Lemma triple_head {A B} K (P : State → Prop) s0 (m : Task A) (k : A → Task B)
    (Q : Completion B → State → Prop) :
  stable K P → runs K m → keeps gentle m →
  (∀ a, triple (λ s, P s ∧ gentle s0 s) (k a) Q) →
  (∀ e s, P s → Q (Throw e) s) →
  triple (λ s, P s ∧ gentle s0 s) (m ≫= k) Q.
Proof.
  intros HS Hr Hg Hk He s [HP Hgs]. rewrite run_bind.
  specialize (Hr s). specialize (Hg s).
  destruct (m s) as [[a|e] s']; cbn [fst snd] in *.
  - apply Hk. split; [eapply HS; eassumption | eapply gentle_trans; eassumption].
  - apply He. eapply HS; eassumption.
Qed.

Lemma gentle_headings s0 s tags :
  "DIV" ∉ tags → gentle s0 s →
  length (querySelectorAll (page s) tags) ≤ length (querySelectorAll (page s0) tags).
Proof. intros Hd [Ht _]. apply sublist_length, Ht, Hd. Qed.

Lemma headingTags_noDiv : "DIV" ∉ headingTags.
Proof. intros Hin. apply list_elem_of_In in Hin. cbn in Hin. intuition discriminate. Qed.

Lemma controlTags_noDiv : "DIV" ∉ ["A"; "BUTTON"].
Proof. intros Hin. apply list_elem_of_In in Hin. cbn in Hin. intuition discriminate. Qed.

Ltac gentle_solve :=
  first
    [ apply gently_announce
    | apply gently_queryAvailability
    | apply (keeps_when gentle gentle_refl);
        first [apply (keeps_throw gentle gentle_refl) | apply gently_announce] ].

Ltac budget_done :=
  eapply budget_weaken; [|eassumption]; cbn [creations generations length]; lia.

Ltac budget_step :=
  cbv beta;
  lazymatch goal with
  | |- triple _ (mret _) _ => apply triple_ret; intros ? ?; budget_done
  | |- triple _ (if ?b then _ else _) _ => destruct b eqn:?
  | |- triple (budget ?k ?n ?s0) (tryCatch _ _) ?Q =>
      eapply triple_tryCatch with (R := Q);
        [ | cbn beta; intros ? ? ?; assumption | intros ? ]
  | |- triple (budget ?k ?n ?s0) (generate _ _ _ ≫= _) _ =>
      eapply triple_bind with (R := λ _, budget k (n + generations k) s0);
        [ apply triple_generate_budget | intros ? | cbn beta; intros ? ? ?; budget_done ]
  | |- triple (budget ?k ?n ?s0) (createSession _ _ ≫= _) _ =>
      eapply triple_bind with (R := λ _, budget k (n + creations k) s0);
        [ apply triple_createSession_budget;
            intros; first [apply later_logProgress | apply later_overviewProgress, ambient_notKind]
        | intros ?
        | cbn beta; intros ? ? ?; budget_done ]
  | |- triple (budget ?k ?n ?s0) (summarizeHeadings _ _ ?hs _ ≫= _) _ =>
      eapply triple_bind with (R := λ _, budget k (n + length hs) s0);
        [ apply summarizeHeadings_budget | intros ? | cbn beta; intros ? ? ?; budget_done ]
  | |- triple (budget ?k ?n ?s0) (tryFinally (fixLabels _ _ _ ?els _) _ ≫= _) _ =>
      eapply triple_bind with (R := λ _, budget k (n + generations k * length els) s0);
        [ eapply triple_tryFinally; [apply fixLabels_budget|];
          cbn beta; intros ? ? ?; eapply budget_stable; [apply later_destroy; reflexivity | assumption]
        | intros ?
        | cbn beta; intros ? ? ?; budget_done ]
  | |- triple (budget ?k ?n ?s0) (tryFinally (ContentJs.describeHeadings _ _ _ ?hs _) _ ≫= _) _ =>
      eapply triple_bind with (R := λ _, budget k (n + generations k * length hs) s0);
        [ eapply triple_tryFinally; [apply describeHeadings_budget|];
          cbn beta; intros ? ? ?; eapply budget_stable; [apply later_destroy; reflexivity | assumption]
        | intros ?
        | cbn beta; intros ? ? ?; budget_done ]
  | |- triple (budget ?k _ _) (modify (insertOverview _) ≫= _) _ =>
      eapply (triple_after (notKind k));
        [ apply budget_stable
        | apply runs_modify; intros ?;
          apply later_insertOverview; [apply ambient_notKind | intros; reflexivity]
        | intros ?
        | intros ? ? ?; budget_done ]
  | |- triple (budget ?k _ _) (_ ≫= _) _ =>
      eapply (triple_after (notKind k));
        [ apply budget_stable
        | runs_with (ambient_notKind k)
        | intros ?
        | intros ? ? ?; budget_done ]
  | |- triple (budget ?k _ _) _ _ =>
      eapply triple_post;
        [ apply (triple_runs (notKind k)); [apply budget_stable | runs_with (ambient_notKind k)]
        | cbn beta; intros ? ? ?; budget_done ]
  end.

Ltac head_step :=
  cbv beta;
  lazymatch goal with
  | |- triple (λ s, budget _ _ _ s ∧ gentle _ s) (gets _ ≫= _) _ => fail
  | |- triple (λ s, budget ?k _ _ s ∧ gentle _ s) (tryCatch _ _) ?Q =>
      eapply triple_tryCatch with (R := Q);
        [ | cbn beta; intros ? ? ?; assumption
          | intros ?; eapply triple_post;
              [ apply (triple_runs (notKind k)); [apply budget_stable | runs_with (ambient_notKind k)]
              | cbn beta; intros ? ? ?; assumption ] ]
  | |- triple (λ s, budget ?k _ _ s ∧ gentle _ s) (_ ≫= _) _ =>
      eapply (triple_head (notKind k));
        [ apply budget_stable
        | runs_with (ambient_notKind k)
        | gentle_solve
        | intros ?
        | intros ? ? ?; budget_done ]
  end.

Section PipelineBudget.
Context `{Rendering} `{Backends}.

Lemma generateCues_budget kind s0 :
  triple (λ s, budget kind 0 s0 s ∧ gentle s0 s) generateCues
         (λ _, budget kind (length (querySelectorAll (page s0) headingTags)) s0).
Proof.
  destruct kind; unfold generateCues; repeat head_step.
  all: apply triple_gets_bind; intros headings.
  all: apply (triple_pure _ (length headings ≤ length (querySelectorAll (page s0) headingTags)));
    [ intros s [[_ Hg] <-]; apply gentle_headings; [apply headingTags_noDiv | exact Hg] | intros Hlen ].
  all: lazymatch goal with
       | |- triple (λ s, (budget ?k _ _ s ∧ _) ∧ _) _ _ =>
           apply (triple_pre (budget k 0 s0)); [tauto|]
       end.
  all: repeat budget_step.
Qed.

Lemma contentJs_generateCues_budget kind s0 :
  triple (λ s, budget kind 0 s0 s ∧ gentle s0 s) ContentJs.generateCues
         (λ _, budget kind
                 (creations kind
                  + generations kind * length (querySelectorAll (page s0) headingTags)) s0).
Proof.
  destruct kind; unfold ContentJs.generateCues; repeat head_step.
  all: apply triple_gets_bind; intros headings.
  all: apply (triple_pure _ (length headings ≤ length (querySelectorAll (page s0) headingTags)));
    [ intros s [[_ Hg] <-]; apply gentle_headings; [apply headingTags_noDiv | exact Hg] | intros Hlen ].
  all: lazymatch goal with
       | |- triple (λ s, (budget ?k _ _ s ∧ _) ∧ _) _ _ =>
           apply (triple_pre (budget k 0 s0)); [tauto|]
       end.
  all: repeat budget_step.
Qed.

Lemma fixContextLabels_budget kind s0 :
  triple (λ s, budget kind 0 s0 s ∧ gentle s0 s) fixContextLabels
         (λ _, budget kind
                 (creations kind + generations kind * length (linksAndButtons (page s0))) s0).
Proof.
  destruct kind; unfold fixContextLabels; repeat head_step.
  all: apply triple_gets_bind; intros elements.
  all: apply (triple_pure _ (length elements ≤ length (linksAndButtons (page s0))));
    [ intros s [[_ Hg] <-]; unfold elementsToFix;
      etransitivity; [apply length_filter|];
      apply gentle_headings; [apply controlTags_noDiv | exact Hg]
    | intros Hlen ].
  all: lazymatch goal with
       | |- triple (λ s, (budget ?k _ _ s ∧ _) ∧ _) _ _ =>
           apply (triple_pre (budget k 0 s0)); [tauto|]
       end.
  all: repeat budget_step.
Qed.

Lemma generateOverview_budget kind s0 :
  triple (budget kind 0 s0) generateOverview (λ _, budget kind 1 s0).
Proof. destruct kind; unfold generateOverview; repeat budget_step. Qed.

(** The backend is used at most once per item: the overview makes at most
    one create() and one summarize() call, the section summaries at most
    one of each per heading, the cues of the first revision and label
    repair at most one create() per run and one prompt() per item. *)
Theorem calls_bounded_by_items (kind : CallKind) (s : State) :
  let calls t := countEvents (isCall kind) (added s (t s).2) in
  let headings := length (querySelectorAll (page s) headingTags) in
  let controls := length (linksAndButtons (page s)) in
  calls generateOverview ≤ 1
  ∧ calls generateCues ≤ headings
  ∧ calls ContentJs.generateCues ≤ creations kind + generations kind * headings
  ∧ calls fixContextLabels ≤ creations kind + generations kind * controls.
Proof.
  cbv zeta. repeat split.
  - apply (generateOverview_budget kind s s), budget_start.
  - apply (generateCues_budget kind s s). split; [apply budget_start | apply gentle_refl].
  - apply (contentJs_generateCues_budget kind s s).
    split; [apply budget_start | apply gentle_refl].
  - apply (fixContextLabels_budget kind s s).
    split; [apply budget_start | apply gentle_refl].
Qed.

End PipelineBudget.

(** ** The second run of the section summaries *)







Section SecondRun.
Context `{Rendering} `{Backends}.





End SecondRun.

Section SecondRunPipeline.
Context `{Rendering} `{Backends}.






End SecondRunPipeline.

(** On [twoSections] the first run marks both headings when every call is
    answered, and the second run makes no call; when the first
    summarize() is rejected, the first heading stays unmarked and the
    second run makes one create() and one summarize() call for it. *)
Example second_run_calls :
  let s := freshState twoSections in
  let steady1 := (@generateCues plainRendering steadyBackends s).2 in
  let steady2 := (@generateCues plainRendering steadyBackends steady1).2 in
  let busy1 := (@generateCues plainRendering busyBackends s).2 in
  let busy2 := (@generateCues plainRendering busyBackends busy1).2 in
  (unmarkedHeadings (page steady1), countEvents isCapabilityCall (added steady1 steady2))
  = ([], 0)
  ∧ (unmarkedHeadings (page busy1),
     countEvents (isCall Creation) (added busy1 busy2),
     countEvents (isCall Generation) (added busy1 busy2))
    = ([2], 1, 1).
Proof. vm_compute. split; reflexivity. Qed.

(** ** Throttling of all calls *)

Section Spacing.
Variable p : Event → bool.

Lemma timesOf_app a b : timesOf p (a ++ b) = timesOf p a ++ timesOf p b.
Proof. unfold timesOf. now rewrite List.filter_app, map_app. Qed.

Lemma timesOf_quiet entries :
  Forall (λ te : nat * Event, quietFor p te.2) entries → timesOf p entries = [].
Proof.
  induction 1 as [|[t e] entries He _ IH]; [reflexivity|].
  unfold timesOf in *. cbn in *. unfold quietFor in He. now rewrite He.
Qed.

Lemma timesOf_later s0 s s' :
  length (log s0) ≤ length (log s) → later (quietFor p) s s' →
  timesOf p (added s0 s') = timesOf p (added s0 s).
Proof.
  intros Hl Hlater. destruct (later_added _ s0 s s' Hl Hlater) as (entries & -> & F).
  rewrite timesOf_app, (timesOf_quiet entries), app_nil_r; [reflexivity|].
  eapply Forall_impl; [exact F|]. cbn. tauto.
Qed.

Lemma spacedSoFar_stable delay lead s0 : stable (quietFor p) (spacedSoFar p delay lead s0).
Proof.
  intros s s' Hlater (Hl & Hn & Hb & Hs).
  pose proof (later_log_length _ _ _ Hlater). pose proof (later_now _ _ _ Hlater).
  unfold spacedSoFar. rewrite (timesOf_later s0 s s' Hl Hlater).
  repeat split; [lia | lia | | exact Hs].
  eapply Forall_impl; [exact Hb|]. cbn. lia.
Qed.

Lemma restedFrom_stable delay lead s0 : stable (quietFor p) (restedFrom p delay lead s0).
Proof.
  intros s s' Hlater (Hp & Hn & Hf).
  pose proof (later_now _ _ _ Hlater).
  split; [now apply (spacedSoFar_stable delay lead s0 s s')|].
  split; [lia|].
  rewrite (timesOf_later s0 s s') by (assumption || apply Hp).
  eapply Forall_impl; [exact Hf|]. cbn. lia.
Qed.

Lemma restedFrom_spaced delay lead s0 s :
  restedFrom p delay lead s0 s → spacedSoFar p delay lead s0 s.
Proof. now intros [Hp _]. Qed.

Lemma restedFrom_wait delay lead s0 s s' :
  lead ≤ delay →
  spacedSoFar p delay lead s0 s → later (quietFor p) s s' → now s + delay ≤ now s' →
  restedFrom p delay lead s0 s'.
Proof.
  intros Hlead Hp Hlater Hw.
  pose proof (spacedSoFar_stable delay lead s0 s s' Hlater Hp) as Hp'.
  destruct Hp as (Hl & Hn & Hb & Hs).
  split; [exact Hp'|]. split; [lia|].
  rewrite (timesOf_later s0 s s' Hl Hlater).
  eapply Forall_impl; [exact Hb|]. cbn. lia.
Qed.

Lemma spacedSoFar_record delay lead s0 s e :
  p e = true → restedFrom p delay lead s0 s → spacedSoFar p delay lead s0 (record e s).
Proof.
  intros He ((Hl & Hn & Hb & Hs) & Hlead & Hf). unfold spacedSoFar, added.
  cbn [log record now].
  rewrite length_app, drop_app_le by exact Hl. fold (added s0 s).
  rewrite timesOf_app. unfold timesOf at 2 4. cbn. rewrite He. cbn.
  repeat split; [lia | lia | | now apply spaced_snoc].
  apply Forall_app. split; [exact Hb|]. repeat constructor; lia.
Qed.

Lemma restedFrom_start delay s : restedFrom p delay 0 s s.
Proof.
  unfold restedFrom, spacedSoFar, added. rewrite drop_all. cbn.
  repeat split; try lia; constructor.
Qed.

Lemma spacedSoFar_start delay lead s : spacedSoFar p delay lead s s.
Proof.
  unfold spacedSoFar, added. rewrite drop_all. cbn.
  repeat split; try lia; constructor.
Qed.

Lemma spacedSoFar_conclusion delay lead s0 s :
  spacedSoFar p delay lead s0 s → separatedFrom p delay (now s0 + lead) (added s0 s).
Proof.
  intros (_ & _ & Hb & Hs). split; [|exact Hs].
  eapply Forall_impl; [exact Hb|]. cbn. lia.
Qed.

End Spacing.

Section SpacingTasks.
Context `{Rendering} `{Backends}.
Variable p : Event → bool.
Hypothesis ambient_quiet : ∀ e, ambient e → quietFor p e.

Lemma triple_wait delay lead s0 :
  lead ≤ delay →
  triple (spacedSoFar p delay lead s0) (sleep delay) (λ _, restedFrom p delay lead s0).
Proof.
  intros Hlead. apply triple_modify. intros s Hp.
  eapply restedFrom_wait;
    [exact Hlead | exact Hp | apply later_suspend, ambient_quiet | apply suspend_now].
Qed.

Lemma triple_createSession_call delay lead s0 api monitor :
  p (CreateCalled api) = true →
  (∀ k, quietFor p (SessionCreated k)) →
  (∀ percent s, later (quietFor p) s (monitor percent s)) →
  triple (restedFrom p delay lead s0) (createSession api monitor)
         (λ _, spacedSoFar p delay lead s0).
Proof.
  intros Hp Hq Hm. unfold createSession. apply triple_gets_bind. intros k.
  eapply triple_bind with (R := λ _, spacedSoFar p delay lead s0).
  - apply triple_modify. intros s [Hr _].
    eapply spacedSoFar_stable; [apply later_calls | now apply spacedSoFar_record].
  - intros ?. destruct (create (capability api) k) as [progress [elapsed outcome]].
    apply (triple_runs (quietFor p)); [apply spacedSoFar_stable|].
    repeat runs_step.
    + now apply runs_downloadProgress.
    + now apply runs_sleep.
    + later_then later_sessions. apply later_record. apply Hq.
  - cbn. auto.
Qed.

Lemma triple_generate_call delay lead s0 api session input :
  p (GenerationCalled session input) = true →
  triple (restedFrom p delay lead s0) (generate api session input)
         (λ _, spacedSoFar p delay lead s0).
Proof.
  intros Hp. unfold generate. apply triple_gets_bind. intros k.
  eapply triple_bind with (R := λ _, spacedSoFar p delay lead s0).
  - apply triple_modify. intros s [Hr _].
    eapply spacedSoFar_stable; [apply later_calls | now apply spacedSoFar_record].
  - intros ?. destruct (run (capability api) k input) as [elapsed outcome].
    apply (triple_runs (quietFor p)); [apply spacedSoFar_stable|].
    repeat runs_step. now apply runs_sleep.
  - cbn. auto.
Qed.

End SpacingTasks.

Lemma ambient_quietCall e : ambient e → quietFor isCapabilityCall e.
Proof. destruct e; cbn; (reflexivity || tauto). Qed.

Lemma ambient_quietCreation e : ambient e → quietFor (isCall Creation) e.
Proof. destruct e; cbn; (reflexivity || tauto). Qed.

(** One step of a proof that a task keeps the calls apart: the
    precondition is [spacedSoFar] or [restedFrom], the postcondition is
    [spacedSoFar].  A call that counts needs [restedFrom]. *)
Ltac spaced_step ambientLemma :=
  cbv beta;
  lazymatch goal with
  | |- triple _ (mret _) _ =>
      apply triple_ret; intros ? ?; eauto using restedFrom_spaced
  | |- triple _ (if ?b then _ else _) _ => destruct b eqn:?
  | |- triple (restedFrom ?p ?d ?l ?s0) (generate _ _ _ ≫= _) _ =>
      first
        [ eapply triple_bind with (R := λ _, spacedSoFar p d l s0);
            [ apply triple_generate_call; [apply ambientLemma | reflexivity]
            | intros ?
            | cbn; intros ? ? ?; assumption ]
        | eapply (triple_after (quietFor p));
            [ apply restedFrom_stable
            | runs_with ambientLemma
            | intros ?
            | intros ? ? ?; eauto using restedFrom_spaced ] ]
  | |- triple (restedFrom ?p ?d ?l ?s0) (createSession _ _ ≫= _) _ =>
      eapply triple_bind with (R := λ _, spacedSoFar p d l s0);
        [ apply triple_createSession_call;
            [ apply ambientLemma
            | reflexivity
            | intros; reflexivity
            | intros; first [apply later_logProgress | apply later_overviewProgress, ambientLemma] ]
        | intros ?
        | cbn; intros ? ? ?; assumption ]
  | |- triple (restedFrom ?p _ _ _) (_ ≫= _) _ =>
      eapply (triple_after (quietFor p));
        [ apply restedFrom_stable
        | runs_with ambientLemma
        | intros ?
        | intros ? ? ?; eauto using restedFrom_spaced ]
  | |- triple (spacedSoFar ?p _ _ _) (_ ≫= _) _ =>
      eapply (triple_after (quietFor p));
        [ apply spacedSoFar_stable
        | runs_with ambientLemma
        | intros ?
        | intros ? ? ?; assumption ]
  | |- triple (spacedSoFar ?p _ _ _) _ _ =>
      apply (triple_runs (quietFor p)); [apply spacedSoFar_stable | runs_with ambientLemma]
  | |- triple (restedFrom ?p ?d ?l ?s0) _ _ =>
      apply (triple_pre (spacedSoFar p d l s0)); [apply restedFrom_spaced|];
      apply (triple_runs (quietFor p)); [apply spacedSoFar_stable | runs_with ambientLemma]
  end.

Ltac spaced_turn ambientLemma :=
  eapply triple_bind;
    [ apply triple_wait; [apply ambientLemma | lia]
    | intros ?;
      lazymatch goal with
      | |- triple _ _ (λ _, spacedSoFar ?p ?d ?l ?s0) =>
          eapply triple_tryCatch with (R := λ _, spacedSoFar p d l s0)
      end;
        [ repeat spaced_step ambientLemma
        | cbn; intros ? ? ?; assumption
        | intros ?; apply triple_ret; intros ? ?; assumption ]
    | cbn; intros ? ? ?; eauto using restedFrom_spaced ].

Section SpacingProperties.
Context `{Rendering} `{Backends}.

Lemma summarizeHeading_creations s0 total index heading successCount :
  triple (spacedSoFar (isCall Creation) 1000 1000 s0)
         (summarizeHeading total index heading successCount)
         (λ _, spacedSoFar (isCall Creation) 1000 1000 s0).
Proof. unfold summarizeHeading. spaced_turn ambient_quietCreation. Qed.

Lemma fixLabel_separated s0 session total index element successCount :
  triple (spacedSoFar isCapabilityCall 600 0 s0)
         (fixLabel session total index element successCount)
         (λ _, spacedSoFar isCapabilityCall 600 0 s0).
Proof. unfold fixLabel. spaced_turn ambient_quietCall. Qed.

Lemma describeHeading_separated s0 session total index heading successCount :
  triple (spacedSoFar isCapabilityCall 800 0 s0)
         (ContentJs.describeHeading session total index heading successCount)
         (λ _, spacedSoFar isCapabilityCall 800 0 s0).
Proof. unfold ContentJs.describeHeading. spaced_turn ambient_quietCall. Qed.

Lemma summarizeHeadings_creations s0 total index headings successCount :
  triple (spacedSoFar (isCall Creation) 1000 1000 s0)
         (summarizeHeadings total index headings successCount)
         (λ _, spacedSoFar (isCall Creation) 1000 1000 s0).
Proof.
  revert index successCount.
  induction headings as [|heading rest IH]; intros index successCount; cbn [summarizeHeadings].
  - apply triple_ret. auto.
  - eapply triple_bind; [apply summarizeHeading_creations | intros ?; apply IH | auto].
Qed.

Lemma fixLabels_separated s0 session total index elements successCount :
  triple (spacedSoFar isCapabilityCall 600 0 s0)
         (fixLabels session total index elements successCount)
         (λ _, spacedSoFar isCapabilityCall 600 0 s0).
Proof.
  revert index successCount.
  induction elements as [|element rest IH]; intros index successCount; cbn [fixLabels].
  - apply triple_ret. auto.
  - eapply triple_bind; [apply fixLabel_separated | intros ?; apply IH | auto].
Qed.

Lemma describeHeadings_separated s0 session total index headings successCount :
  triple (spacedSoFar isCapabilityCall 800 0 s0)
         (ContentJs.describeHeadings session total index headings successCount)
         (λ _, spacedSoFar isCapabilityCall 800 0 s0).
Proof.
  revert index successCount.
  induction headings as [|heading rest IH]; intros index successCount;
    cbn [ContentJs.describeHeadings].
  - apply triple_ret. auto.
  - eapply triple_bind; [apply describeHeading_separated | intros ?; apply IH | auto].
Qed.

End SpacingProperties.

(** The loops start from [spacedSoFar]. *)
Ltac spaced_loop_step ambientLemma :=
  cbv beta;
  lazymatch goal with
  | |- triple (spacedSoFar ?p ?d ?l ?s0) (summarizeHeadings _ _ _ _ ≫= _) _ =>
      eapply triple_bind with (R := λ _, spacedSoFar p d l s0);
        [ apply summarizeHeadings_creations | intros ? | cbn; auto ]
  | |- triple (spacedSoFar ?p ?d ?l ?s0) (tryFinally (fixLabels _ _ _ _ _) _ ≫= _) _ =>
      eapply triple_bind with (R := λ _, spacedSoFar p d l s0);
        [ eapply triple_tryFinally; [apply fixLabels_separated|];
          cbn; intros ? ? ?; eapply spacedSoFar_stable; [now apply later_destroy | assumption]
        | intros ?
        | cbn; auto ]
  | |- triple (spacedSoFar ?p ?d ?l ?s0)
              (tryFinally (ContentJs.describeHeadings _ _ _ _ _) _ ≫= _) _ =>
      eapply triple_bind with (R := λ _, spacedSoFar p d l s0);
        [ eapply triple_tryFinally; [apply describeHeadings_separated|];
          cbn; intros ? ? ?; eapply spacedSoFar_stable; [now apply later_destroy | assumption]
        | intros ?
        | cbn; auto ]
  | _ => spaced_step ambientLemma
  end.

Ltac spaced_pipeline ambientLemma :=
  lazymatch goal with
  | |- triple (?phase ?p ?d ?l ?s0) _ _ =>
      eapply (triple_after (quietFor p));
        [ first [apply restedFrom_stable | apply spacedSoFar_stable]
        | runs_with ambientLemma
        | intros ?;
          eapply triple_tryCatch with (R := λ _, spacedSoFar p d l s0);
            [ repeat spaced_loop_step ambientLemma
            | cbn; intros ? ? ?; assumption
            | intros ?; apply (triple_runs (quietFor p));
                [apply spacedSoFar_stable | runs_with ambientLemma] ]
        | cbn; intros ? ? ?; eauto using restedFrom_spaced ]
  end.

Section SpacingPipelines.
Context `{Rendering} `{Backends}.

Lemma generateCues_creations s0 :
  triple (spacedSoFar (isCall Creation) 1000 1000 s0) generateCues
         (λ _, spacedSoFar (isCall Creation) 1000 1000 s0).
Proof. unfold generateCues. spaced_pipeline ambient_quietCreation. Qed.

Lemma fixContextLabels_separated s0 :
  triple (restedFrom isCapabilityCall 600 0 s0) fixContextLabels
         (λ _, spacedSoFar isCapabilityCall 600 0 s0).
Proof. unfold fixContextLabels. spaced_pipeline ambient_quietCall. Qed.

Lemma contentJs_generateCues_separated s0 :
  triple (restedFrom isCapabilityCall 800 0 s0) ContentJs.generateCues
         (λ _, spacedSoFar isCapabilityCall 800 0 s0).
Proof. unfold ContentJs.generateCues. spaced_pipeline ambient_quietCall. Qed.

End SpacingPipelines.

Section Throttling.
Context `{Rendering} `{Backends}.

(** ** C7: the calls to the backend are throttled in this sense.  In
    label repair (600 ms) and in the cues of the first revision (800 ms)
    the session is created once, before the loop, and any two consecutive
    calls to the backend (create, prompt) are at least the delay apart.
    In the section summaries (1000 ms) every turn creates its own
    session after the delay of the turn: every create() comes at least
    1000 ms after the start of the run and after the previous create(),
    every summarize() at least 1000 ms after the start and after the
    previous summarize(), and no call comes sooner than 1000 ms after a
    summarize(); what is not separated is the create() of a turn and the
    summarize() that follows it. *)
Theorem capability_calls_throttled (s : State) :
  separated 600 (added s (fixContextLabels s).2)
  ∧ separated 800 (added s (ContentJs.generateCues s).2)
  ∧ separatedFrom (isCall Creation) 1000 (now s + 1000) (added s (generateCues s).2)
  ∧ paced 1000 (now s) (added s (generateCues s).2)
  ∧ paced 800 (now s) (added s (ContentJs.generateCues s).2)
  ∧ paced 600 (now s) (added s (fixContextLabels s).2).
Proof.
  split; [|split; [|split]].
  - apply (spacedSoFar_conclusion isCapabilityCall 600 0 s).
    apply (fixContextLabels_separated s s), restedFrom_start.
  - apply (spacedSoFar_conclusion isCapabilityCall 800 0 s).
    apply (contentJs_generateCues_separated s s), restedFrom_start.
  - apply (spacedSoFar_conclusion (isCall Creation) 1000 1000 s).
    apply (generateCues_creations s s), spacedSoFar_start.
  - apply generation_calls_paced.
Qed.

End Throttling.

(** C7 as stated fails for the section summaries: on [twoSections] the
    session of the first heading is created at 1005 ms and summarize()
    is called 20 ms later. *)
Lemma generateCues_create_then_summarize :
  let s := freshState twoSections in
  ¬ separated 1000 (added s (@generateCues plainRendering steadyBackends s).2).
Proof.
  intros s. unfold separated.
  replace (timesOf isCapabilityCall (added s (@generateCues plainRendering steadyBackends s).2))
    with [1005; 1025; 2325; 2345] by (vm_compute; reflexivity).
  cbn. lia.
Qed.

Example capability_call_times :
  let cues := freshState twoSections in
  let labels := freshState controlsPage in
  timesOf isCapabilityCall (added cues (@generateCues plainRendering steadyBackends cues).2)
  = [1005; 1025; 2325; 2345]
  ∧ timesOf isCapabilityCall
      (added cues (@ContentJs.generateCues plainRendering steadyBackends cues).2)
    = [5; 825; 1925]
  ∧ timesOf isCapabilityCall
      (added labels (@fixContextLabels plainRendering steadyBackends labels).2)
    = [5; 625; 1525; 2425].
Proof. vm_compute. repeat split; reflexivity. Qed.

(** ** Repeated announcements *)

Lemma rewriteChildren_replace_idem r text n :
  let f := λ (i : nat) (cs : list Node),
             if i =? r then (if isEmpty text then [] else [Text text]) else cs in
  rewriteChildren f (rewriteChildren f n) = rewriteChildren f n.
Proof.
  intros f. induction n as [s|h t cs IH] using Node_induction; [reflexivity|].
  cbn [rewriteChildren]. f_equal. subst f. cbv beta. destruct (h =? r) eqn:E.
  - now destruct (isEmpty text).
  - rewrite map_map.
    induction IH as [|c cs Hc _ IHcs]; [reflexivity|]. cbn [map]. now rewrite Hc, IHcs.
Qed.

(** Writing the same text twice is writing it once. *)
Lemma setInnerText_idem r text d :
  setInnerText r text (setInnerText r text d) = setInnerText r text d.
Proof.
  unfold setInnerText, withTree. cbn [documentElement body attributeTable].
  f_equal. apply rewriteChildren_replace_idem.
Qed.

Lemma page_afterTimers k s :
  noDeferred (timers s) = true →
  page (afterTimers k s) = foldl (λ d t, written (callback t) d) (page s) (take k (timers s)).
Proof.
  unfold afterTimers. revert s. induction k as [|k IH]; intros s Hn; [reflexivity|].
  cbn [eventLoop]. destruct (timers s) as [|t rest] eqn:Et; [reflexivity|].
  destruct (noDeferred_cons _ _ Hn) as ((region & text & Hcb) & Hrest).
  rewrite IH.
  - cbn [take foldl]. rewrite Hcb. reflexivity.
  - rewrite Hcb. exact Hrest.
Qed.

(** ** C9: [announce(X)] followed at once by [announce(X)] does not give
    two clear-then-set cycles on the live region.  The function clears
    the region `to ensure change detection`, but the clear of the second
    call comes before the set of the first: the timers run in the order
    set, set, clear, clear.  The text of the region goes from empty to
    [X] once and back to empty once; the second set writes [X] over
    [X], and at every step the page is the page that one call alone
    gives. *)
Theorem repeated_announcement_single_change (text : string) (s : State) (region : nat)
    (tag : string) (cs : list Node) :
  let once := announce text s in
  let twice := announce text once in
  timers s = [] →
  getElementById (page s) announcerId = Some (Element region tag cs) →
  map callback (timers twice)
  = [SetRegionText region text; SetRegionText region text;
     SetRegionText region EmptyString; SetRegionText region EmptyString]
  ∧ map (λ k, textContent (page (afterTimers k twice)) region) [0; 1; 2; 3; 4]
    = [EmptyString; text; text; EmptyString; EmptyString]
  ∧ map (λ k, page (afterTimers k twice)) [0; 1; 2; 3; 4]
    = map (λ k, page (afterTimers k once)) [0; 1; 1; 2; 2].
Proof.
  intros once twice Hidle Hfound.
  pose proof (announce_found text s region tag cs Hfound) as Honce. fold once in Honce.
  destruct (getElementById_setInnerText (page s) announcerId region tag cs EmptyString Hfound)
    as (tag' & cs' & Hfound').
  assert (Htwice : twice
                   = setTimeout (SetRegionText region EmptyString) (10 * 1000)
                       (setTimeout (SetRegionText region text) 100
                          (writeRegion region EmptyString (record (Announced text) once)))).
  { apply (announce_found text once region tag' cs'). rewrite Honce. exact Hfound'. }
  pose proof (findNode_found _ _ _ _ _ Hfound) as Hin.
  revert Honce Htwice.
  generalize (10 * 1000) (eq_refl : (100 <? 10 * 1000) = true).
  intros late Hlate Honce Htwice. apply Nat.ltb_lt in Hlate.
  set (t1 := {| due := now s + 100; seq := timerSeq s; callback := SetRegionText region text |}).
  set (c1 := {| due := now s + late; seq := S (timerSeq s);
                callback := SetRegionText region EmptyString |}).
  set (t2 := {| due := now s + 100; seq := S (S (timerSeq s));
                callback := SetRegionText region text |}).
  set (c2 := {| due := now s + late; seq := S (S (S (timerSeq s)));
                callback := SetRegionText region EmptyString |}).
  set (cleared := setInnerText region EmptyString (page s)).
  set (shown := setInnerText region text cleared).
  assert (Hq1 : timers once = [t1; c1]).
  { rewrite Honce. change (timers _) with (enqueue c1 (enqueue t1 (timers s))).
    rewrite Hidle. apply enqueue_pair. cbn. lia. }
  assert (Hp1 : page once = cleared) by now rewrite Honce.
  assert (Hq2 : timers twice = [t1; t2; c1; c2]).
  { rewrite Htwice, Honce.
    change (timers _) with (enqueue c2 (enqueue t2 (enqueue c1 (enqueue t1 (timers s))))).
    rewrite Hidle. apply enqueue_twice; cbn; lia. }
  assert (Hp2 : page twice = cleared).
  { rewrite Htwice. change (page _) with (setInnerText region EmptyString (page once)).
    rewrite Hp1. apply setInnerText_idem. }
  assert (Hin0 : is_Some (findNode cleared region))
    by (apply findNode_setInnerText_some, Hin).
  assert (Hin1 : is_Some (findNode shown region))
    by (apply findNode_setInnerText_some, Hin0).
  split; [now rewrite Hq2|].
  cbn [map]. rewrite !page_afterTimers by (rewrite ?Hq1, ?Hq2; reflexivity).
  rewrite Hq1, Hq2, Hp1, Hp2.
  cbn [take foldl written callback t1 t2 c1 c2].
  rewrite (setInnerText_idem region text cleared). fold shown.
  rewrite (setInnerText_idem region EmptyString shown).
  split; [|reflexivity].
  assert (Ht0 : textContent cleared region = EmptyString)
    by apply textContent_setInnerText, Hin.
  assert (Ht1 : textContent shown region = text)
    by apply textContent_setInnerText, Hin0.
  rewrite Ht0, Ht1, !textContent_setInnerText by assumption. reflexivity.
Qed.

Lemma repeated_announcement_single_change_witness :
  let once := announce "X" (freshState loadedPage) in
  let twice := announce "X" once in
  map callback (timers twice)
  = [SetRegionText 4 "X"; SetRegionText 4 "X";
     SetRegionText 4 EmptyString; SetRegionText 4 EmptyString]
  ∧ map (λ k, textContent (page (afterTimers k twice)) 4) [0; 1; 2; 3; 4]
    = [EmptyString; "X"; "X"; EmptyString; EmptyString]
  ∧ map (λ k, page (afterTimers k twice)) [0; 1; 2; 3; 4]
    = map (λ k, page (afterTimers k once)) [0; 1; 1; 2; 2].
Proof.
  exact (repeated_announcement_single_change "X" (freshState loadedPage) 4 "DIV" []
           eq_refl eq_refl).
Defined.

(** ** What is sent to the backend *)

Lemma ambient_submits ok e : ambient e → submits ok e.
Proof. destruct e; cbn; tauto. Qed.

Lemma generationInputs_submits ok entries :
  Forall (λ te : nat * Event, submits ok te.2) entries → Forall ok (generationInputs entries).
Proof.
  induction 1 as [|[t e] entries He _ IH]; cbn; [constructor|].
  destruct e; cbn in *; try exact IH. now constructor.
Qed.

(** After [gets], the value is the one some state gives. *)
Lemma runs_gets_bind {A B} K (f : State → A) (k : A → Task B) :
  (∀ s, runs K (k (f s))) → runs K (gets f ≫= k).
Proof. intros Hk s. rewrite run_gets_bind. apply Hk. Qed.

Lemma isEmpty_length s : isEmpty s = false → 1 ≤ String.length s.
Proof. destruct s; [discriminate|]. cbn. lia. Qed.

(** As [runs_step], keeping what [gets] read. *)
Ltac reads_step :=
  lazymatch goal with
  | |- runs _ (gets _ ≫= _) => apply runs_gets_bind; intros ?
  | _ => runs_step
  end.

Section InputProperties.
Context `{Rendering} `{Backends}.

Lemma runs_generateOverview_inputs : runs (submits overviewInput) generateOverview.
Proof.
  unfold generateOverview. repeat reads_step.
  all: try (apply later_announce, ambient_submits).
  all: try apply later_setTimeout.
  - apply runs_queryAvailability; [apply ambient_submits | exact I].
  - apply runs_createSession;
      [ apply ambient_submits
      | intros; apply later_overviewProgress, ambient_submits
      | exact I
      | intros; exact I ].
  - apply runs_generate; [apply ambient_submits|].
    match goal with
    | Hb : (isEmpty ?c || (String.length ?c <? 50)) = false |- _ =>
        apply orb_false_elim in Hb as [_ Hlen]; apply Nat.ltb_ge in Hlen
    end.
    cbn. split; [split; [exact Hlen|]|]; apply extractMainContent_bounds.
  - now apply later_destroy.
  - apply later_insertOverview; [apply ambient_submits | intros; exact I].
Qed.

Lemma runs_summarizeHeading_inputs total index heading successCount :
  runs (submits sectionInput) (summarizeHeading total index heading successCount).
Proof.
  unfold summarizeHeading. repeat reads_step.
  all: try (apply later_announce, ambient_submits).
  - apply runs_sleep, ambient_submits.
  - apply runs_createSession;
      [ apply ambient_submits | intros; apply later_logProgress | exact I | intros; exact I ].
  - apply runs_generate; [apply ambient_submits|].
    cbn. split; [|apply getSectionContent_trimmed].
    match goal with
    | Hb : (isEmpty ?c || (String.length ?c <? 30)) = false |- _ =>
        apply orb_false_elim in Hb as [_ Hlen]; now apply Nat.ltb_ge in Hlen
    end.
  - now apply later_destroy.
  - now apply later_setAttributeS.
  - apply later_insertNote; [apply ambient_submits | intros; exact I].
Qed.

Lemma runs_summarizeHeadings_inputs total index headings successCount :
  runs (submits sectionInput) (summarizeHeadings total index headings successCount).
Proof.
  revert index successCount.
  induction headings as [|heading rest IH]; intros index successCount; cbn [summarizeHeadings].
  - apply runs_ret.
  - apply runs_bind; [apply runs_summarizeHeading_inputs | intros ?; apply IH].
Qed.

Lemma runs_generateCues_inputs : runs (submits sectionInput) generateCues.
Proof.
  unfold generateCues. repeat runs_step.
  all: try (apply later_announce, ambient_submits).
  - apply runs_queryAvailability; [apply ambient_submits | exact I].
  - apply runs_summarizeHeadings_inputs.
Qed.

Lemma runs_describeHeading_inputs session total index heading successCount :
  runs (submits cueInput) (ContentJs.describeHeading session total index heading successCount).
Proof.
  unfold ContentJs.describeHeading. repeat reads_step.
  all: try (apply later_announce, ambient_submits).
  - apply runs_sleep, ambient_submits.
  - apply runs_generate; [apply ambient_submits|].
    cbn. eexists. split; [reflexivity|].
    match goal with
    | Hb : (isEmpty ?c || (200 <? String.length ?c)) = false |- _ =>
        apply orb_false_elim in Hb as [Hne Hlen]; apply Nat.ltb_ge in Hlen;
        apply isEmpty_length in Hne
    end.
    split; [lia | apply trim_idem].
  - now apply later_setAttributeS.
  - now apply later_setAttributeS.
Qed.

Lemma runs_describeHeadings_inputs session total index headings successCount :
  runs (submits cueInput) (ContentJs.describeHeadings session total index headings successCount).
Proof.
  revert index successCount.
  induction headings as [|heading rest IH]; intros index successCount;
    cbn [ContentJs.describeHeadings].
  - apply runs_ret.
  - apply runs_bind; [apply runs_describeHeading_inputs | intros ?; apply IH].
Qed.

Lemma runs_contentJs_generateCues_inputs : runs (submits cueInput) ContentJs.generateCues.
Proof.
  unfold ContentJs.generateCues. repeat runs_step.
  all: try (apply later_announce, ambient_submits).
  - apply runs_queryAvailability; [apply ambient_submits | exact I].
  - apply runs_createSession;
      [ apply ambient_submits | intros; apply later_logProgress | exact I | intros; exact I ].
  - apply runs_describeHeadings_inputs.
  - now apply later_destroy.
Qed.

(** What is sent to the backend is bounded from below, and for two of
    the three pipelines from above: the overview submits the trimmed
    text of the content area, of 50 to 5000 characters; the section
    summaries submit trimmed section text of at least 30 characters; the
    cues of the first revision submit the fixed question about a trimmed
    heading text of 1 to 200 characters. *)
Theorem generation_inputs_bounded (s : State) :
  Forall overviewInput (generationInputs (added s (generateOverview s).2))
  ∧ Forall sectionInput (generationInputs (added s (generateCues s).2))
  ∧ Forall cueInput (generationInputs (added s (ContentJs.generateCues s).2)).
Proof.
  repeat split; apply generationInputs_submits.
  - eapply Forall_impl;
      [apply (later_added_self (submits overviewInput)), runs_generateOverview_inputs|].
    cbn. tauto.
  - eapply Forall_impl;
      [apply (later_added_self (submits sectionInput)), runs_generateCues_inputs|].
    cbn. tauto.
  - eapply Forall_impl;
      [apply (later_added_self (submits cueInput)), runs_contentJs_generateCues_inputs|].
    cbn. tauto.
Qed.

End InputProperties.

(** ** Where a pipeline writes *)

Lemma attributeWrites_kind name (K : Event → Prop) (ok : nat * string → Prop) entries :
  (∀ el value, K (AttributeSet el name value) → ok (el, value)) →
  Forall (λ te : nat * Event, K te.2) entries → Forall ok (attributeWrites name entries).
Proof.
  intros HK. induction 1 as [|[t e] entries He _ IH]; cbn; [constructor|].
  destruct e; cbn in *; try exact IH.
  destruct (String.eqb name0 name) eqn:E; [|exact IH].
  apply String.eqb_eq in E. subst name0. constructor; [now apply HK | exact IH].
Qed.

Lemma noteTargets_kind (K : Event → Prop) (ok : nat → Prop) entries :
  (∀ heading note, K (NoteInserted heading note) → ok heading) →
  Forall (λ te : nat * Event, K te.2) entries → Forall ok (noteTargets entries).
Proof.
  intros HK. induction 1 as [|[t e] entries He _ IH]; cbn; [constructor|].
  destruct e; cbn in *; try exact IH. constructor; [exact (HK _ _ He) | exact IH].
Qed.

Lemma later_stable K s0 : stable K (later K s0).
Proof. intros s s' Hl Hp. eapply later_trans; eassumption. Qed.

Lemma ambient_names name :
  name ∈ ["role"; "aria-live"; "aria-atomic"] →
  name ≠ "aria-label" ∧ name ≠ fixedMarker ∧ name ≠ summaryMarker
  ∧ name ≠ ContentJs.cueMarker ∧ name ≠ "aria-description".
Proof.
  intros Hin. apply list_elem_of_In in Hin. cbn in Hin.
  destruct Hin as [<-|[<-|[<-|[]]]]; repeat split; discriminate.
Qed.

Lemma ambient_labelsConfined d e : ambient e → labelsConfined d e.
Proof.
  destruct e; cbn; try tauto. intros Hin.
  destruct (ambient_names _ Hin) as (? & ? & _). split; intros ->; congruence.
Qed.

Lemma ambient_summariesConfined d e : ambient e → summariesConfined d e.
Proof.
  destruct e; cbn; try tauto. intros Hin.
  destruct (ambient_names _ Hin) as (_ & _ & ? & _). intros ->. congruence.
Qed.

Lemma ambient_cuesConfined d e : ambient e → cuesConfined d e.
Proof.
  destruct e; cbn; try tauto. intros Hin.
  destruct (ambient_names _ Hin) as (_ & _ & _ & ? & ?). split; intros ->; congruence.
Qed.

Lemma acceptLabel_nonempty label : acceptLabel label = true → label ≠ EmptyString.
Proof. unfold acceptLabel. intros [Hne _]%andb_prop. now destruct label. Qed.

Lemma nonempty_isEmpty s : negb (isEmpty s) = true → s ≠ EmptyString.
Proof. now destruct s. Qed.

Section TargetProperties.
Context `{Rendering} `{Backends}.

(** What the announcement channel leaves of the targets. *)
Lemma labelTarget_gentle s0 s el :
  gentle s0 s → el ∈ elementsToFix (page s) → labelTarget (page s0) el.
Proof.
  intros [Ht Ha] Hin. unfold elementsToFix in Hin. apply list_elem_of_filter in Hin as [Hfix Hin].
  assert (Hlabel : "aria-label" ∉ announcerNames).
  { intros Hn. apply list_elem_of_In in Hn. cbn in Hn. intuition discriminate. }
  split.
  - eapply elem_of_sublist; [exact Hin | apply (Ht ["A"; "BUTTON"]), controlTags_noDiv].
  - unfold needsFixing in Hfix. apply andb_prop in Hfix as [Hno _].
    apply negb_true_iff in Hno. unfold hasLabel, hasAttribute in *.
    now rewrite <- (Ha el "aria-label" Hlabel).
Qed.

Lemma heading_gentle s0 s heading :
  gentle s0 s → heading ∈ querySelectorAll (page s) headingTags →
  heading ∈ querySelectorAll (page s0) headingTags.
Proof.
  intros [Ht _] Hin. eapply elem_of_sublist; [exact Hin | apply (Ht headingTags), headingTags_noDiv].
Qed.

Lemma unmarked_before K s0 s heading marker :
  later K s0 s → hasAttribute (page s) heading marker = false →
  hasAttribute (page s0) heading marker = false.
Proof.
  intros Hl Hno. destruct (hasAttribute (page s0) heading marker) eqn:E; [|reflexivity].
  rewrite (later_keeps K s0 s heading marker Hl E) in Hno. discriminate.
Qed.

(** *** Label repair *)

Lemma runs_fixLabel_confined d session total index element successCount :
  labelTarget d element →
  runs (labelsConfined d) (fixLabel session total index element successCount).
Proof.
  intros Htarget. unfold fixLabel. repeat runs_step.
  - apply runs_sleep, ambient_labelsConfined.
  - apply runs_generate; [apply ambient_labelsConfined | exact I].
  - apply later_setAttributeS. cbn. split; [intros _|discriminate].
    split; [exact Htarget|]. split; [now apply acceptLabel_nonempty | apply cleanLabel_oneLine].
  - apply later_setAttributeS. cbn. split; [discriminate|]. intros _. now split.
  - apply later_announce, ambient_labelsConfined.
Qed.

Lemma runs_fixLabels_confined d session total index elements successCount :
  Forall (labelTarget d) elements →
  runs (labelsConfined d) (fixLabels session total index elements successCount).
Proof.
  intros Htargets. revert index successCount.
  induction Htargets as [|element rest Ht _ IH]; intros index successCount; cbn [fixLabels].
  - apply runs_ret.
  - apply runs_bind; [now apply runs_fixLabel_confined | intros ?; apply IH].
Qed.

End TargetProperties.

(** One step through the head of a pipeline, where only the
    announcement channel touches the page. *)
Ltac confined_head ambientLemma :=
  cbv beta;
  lazymatch goal with
  | |- triple (λ s, later _ _ s ∧ gentle _ s) (gets _ ≫= _) _ => fail
  | |- triple (λ s, later ?K ?s0 s ∧ gentle _ s) (tryCatch _ _) ?Q =>
      eapply triple_tryCatch with (R := Q);
        [ | cbn beta; intros ? ? ?; assumption
          | intros ?; apply (triple_runs K); [apply later_stable | runs_with ambientLemma] ]
  | |- triple (λ s, later ?K ?s0 s ∧ gentle _ s) (_ ≫= _) _ =>
      eapply (triple_head K);
        [ apply later_stable
        | runs_with ambientLemma
        | gentle_solve
        | intros ?
        | intros ? ? ?; assumption ]
  end.

Section ConfinedPipelines.
Context `{Rendering} `{Backends}.

Lemma fixContextLabels_confined s0 :
  triple (λ s, later (labelsConfined (page s0)) s0 s ∧ gentle s0 s) fixContextLabels
         (λ _, later (labelsConfined (page s0)) s0).
Proof.
  unfold fixContextLabels. repeat confined_head (ambient_labelsConfined (page s0)).
  apply triple_gets_bind; intros elements.
  apply (triple_pure _ (Forall (labelTarget (page s0)) elements)).
  { intros s [[_ Hg] <-]. apply Forall_forall. intros el Hin.
    eapply labelTarget_gentle; eassumption. }
  intros Htargets.
  apply (triple_pre (later (labelsConfined (page s0)) s0)); [tauto|].
  apply (triple_runs (labelsConfined (page s0))); [apply later_stable|].
  repeat runs_step.
  all: try (apply later_announce, ambient_labelsConfined).
  - apply runs_createSession;
      [ apply ambient_labelsConfined | intros; apply later_logProgress | exact I | intros; exact I ].
  - now apply runs_fixLabels_confined.
  - now apply later_destroy.
Qed.

(** *** Section summaries *)

Lemma summarizeHeading_confined s0 total index heading successCount :
  heading ∈ querySelectorAll (page s0) headingTags →
  triple (later (summariesConfined (page s0)) s0)
         (summarizeHeading total index heading successCount)
         (λ _, later (summariesConfined (page s0)) s0).
Proof.
  intros Hin. set (K := summariesConfined (page s0)). unfold summarizeHeading.
  eapply (triple_after K);
    [ apply later_stable
    | apply runs_sleep, ambient_summariesConfined
    | intros _
    | intros ? ? ?; assumption ].
  eapply triple_tryCatch with (R := λ _, later K s0);
    [ | cbn beta; intros ? ? ?; assumption | intros ?; apply triple_ret; intros ? ?; assumption ].
  apply triple_gets_bind; intros headingText.
  destruct (isEmpty headingText || (200 <? String.length headingText));
    [apply triple_ret; tauto|].
  apply triple_gets_bind; intros marked.
  destruct marked; [apply triple_ret; tauto|].
  apply (triple_pure _ (hasAttribute (page s0) heading summaryMarker = false)).
  { intros s [[Hl _] Hm]. eapply unmarked_before; eassumption. }
  intros Hunmarked.
  apply (triple_pre (later K s0)); [tauto|].
  apply (triple_runs K); [apply later_stable|].
  assert (Htarget : headingTarget summaryMarker (page s0) heading) by now split.
  repeat runs_step.
  all: try (apply later_announce, ambient_summariesConfined).
  - apply runs_createSession;
      [ apply ambient_summariesConfined | intros; apply later_logProgress | exact I
      | intros; exact I ].
  - apply runs_generate; [apply ambient_summariesConfined | exact I].
  - now apply later_destroy.
  - apply later_setAttributeS. cbn. intros _. now split.
  - apply later_insertNote; [apply ambient_summariesConfined | intros; exact Htarget].
Qed.

Lemma summarizeHeadings_confined s0 total index headings successCount :
  Forall (λ h, h ∈ querySelectorAll (page s0) headingTags) headings →
  triple (later (summariesConfined (page s0)) s0)
         (summarizeHeadings total index headings successCount)
         (λ _, later (summariesConfined (page s0)) s0).
Proof.
  intros Hin. revert index successCount.
  induction Hin as [|heading rest Hh _ IH]; intros index successCount; cbn [summarizeHeadings].
  - apply triple_ret. auto.
  - eapply triple_bind; [now apply summarizeHeading_confined | intros ?; apply IH | auto].
Qed.

Lemma generateCues_confined s0 :
  triple (λ s, later (summariesConfined (page s0)) s0 s ∧ gentle s0 s) generateCues
         (λ _, later (summariesConfined (page s0)) s0).
Proof.
  set (K := summariesConfined (page s0)).
  unfold generateCues. repeat confined_head (ambient_summariesConfined (page s0)).
  apply triple_gets_bind; intros headings.
  apply (triple_pure _ (Forall (λ h, h ∈ querySelectorAll (page s0) headingTags) headings)).
  { intros s [[_ Hg] <-]. apply Forall_forall. intros h Hin.
    eapply heading_gentle; eassumption. }
  intros Hheadings.
  apply (triple_pre (later K s0)); [tauto|].
  destruct (length headings =? 0).
  - apply (triple_runs K); [apply later_stable|].
    apply runs_modify; intros ?. apply later_announce, ambient_summariesConfined.
  - eapply (triple_after K);
      [ apply later_stable
      | apply runs_modify; intros ?; apply later_announce, ambient_summariesConfined
      | intros _
      | intros ? ? ?; assumption ].
    eapply triple_bind;
      [ now apply summarizeHeadings_confined
      | intros ?; apply (triple_runs K); [apply later_stable|];
        apply runs_modify; intros ?; apply later_announce, ambient_summariesConfined
      | cbn beta; auto ].
Qed.

(** *** Cues of the first revision *)

Lemma describeHeading_confined s0 session total index heading successCount :
  heading ∈ querySelectorAll (page s0) headingTags →
  triple (later (cuesConfined (page s0)) s0)
         (ContentJs.describeHeading session total index heading successCount)
         (λ _, later (cuesConfined (page s0)) s0).
Proof.
  intros Hin. set (K := cuesConfined (page s0)). unfold ContentJs.describeHeading.
  eapply (triple_after K);
    [ apply later_stable
    | apply runs_sleep, ambient_cuesConfined
    | intros _
    | intros ? ? ?; assumption ].
  eapply triple_tryCatch with (R := λ _, later K s0);
    [ | cbn beta; intros ? ? ?; assumption | intros ?; apply triple_ret; intros ? ?; assumption ].
  apply triple_gets_bind; intros headingText.
  destruct (isEmpty headingText || (200 <? String.length headingText));
    [apply triple_ret; tauto|].
  apply triple_gets_bind; intros marked.
  destruct marked; [apply triple_ret; tauto|].
  apply (triple_pure _ (hasAttribute (page s0) heading ContentJs.cueMarker = false)).
  { intros s [[Hl _] Hm]. eapply unmarked_before; eassumption. }
  intros Hunmarked.
  apply (triple_pre (later K s0)); [tauto|].
  apply (triple_runs K); [apply later_stable|].
  assert (Htarget : headingTarget ContentJs.cueMarker (page s0) heading) by now split.
  repeat runs_step.
  all: try (apply later_announce, ambient_cuesConfined).
  - apply runs_generate; [apply ambient_cuesConfined | exact I].
  - apply later_setAttributeS. cbn. split; [|discriminate]. intros _. now split.
  - apply later_setAttributeS. cbn. split; [discriminate|]. intros _.
    split; [exact Htarget|]. split; [|apply cleanCue_length].
    split; [now apply nonempty_isEmpty | apply cleanCue_oneLine].
Qed.

Lemma describeHeadings_confined s0 session total index headings successCount :
  Forall (λ h, h ∈ querySelectorAll (page s0) headingTags) headings →
  triple (later (cuesConfined (page s0)) s0)
         (ContentJs.describeHeadings session total index headings successCount)
         (λ _, later (cuesConfined (page s0)) s0).
Proof.
  intros Hin. revert index successCount.
  induction Hin as [|heading rest Hh _ IH]; intros index successCount;
    cbn [ContentJs.describeHeadings].
  - apply triple_ret. auto.
  - eapply triple_bind; [now apply describeHeading_confined | intros ?; apply IH | auto].
Qed.

Lemma contentJs_generateCues_confined s0 :
  triple (λ s, later (cuesConfined (page s0)) s0 s ∧ gentle s0 s) ContentJs.generateCues
         (λ _, later (cuesConfined (page s0)) s0).
Proof.
  set (K := cuesConfined (page s0)).
  unfold ContentJs.generateCues. repeat confined_head (ambient_cuesConfined (page s0)).
  apply triple_gets_bind; intros headings.
  apply (triple_pure _ (Forall (λ h, h ∈ querySelectorAll (page s0) headingTags) headings)).
  { intros s [[_ Hg] <-]. apply Forall_forall. intros h Hin.
    eapply heading_gentle; eassumption. }
  intros Hheadings.
  apply (triple_pre (later K s0)); [tauto|].
  destruct (length headings =? 0).
  - apply (triple_runs K); [apply later_stable|].
    apply runs_modify; intros ?. apply later_announce, ambient_cuesConfined.
  - eapply (triple_after K);
      [ apply later_stable
      | apply runs_modify; intros ?; apply later_announce, ambient_cuesConfined
      | intros _
      | intros ? ? ?; assumption ].
    eapply (triple_after K);
      [ apply later_stable
      | apply runs_createSession;
          [ apply ambient_cuesConfined | intros; apply later_logProgress | exact I
          | intros; exact I ]
      | intros session
      | intros ? ? ?; assumption ].
    eapply triple_bind with (R := λ _, later K s0);
      [ eapply triple_tryFinally; [now apply describeHeadings_confined|];
        cbn beta; intros ? ? ?; eapply later_stable; [now apply later_destroy | assumption]
      | intros ?; apply (triple_runs K); [apply later_stable|];
        apply runs_modify; intros ?; apply later_announce, ambient_cuesConfined
      | cbn beta; auto ].
Qed.

(** Label repair writes an [aria-label] only on a link or button of the
    page that had none, or a blank one, when the run started; the label
    is not empty and is one line.  It writes the marker of repaired
    elements on such elements only, and inserts no note. *)
Theorem labels_only_where_missing (s : State) :
  let entries := added s (fixContextLabels s).2 in
  Forall (λ w, labelTarget (page s) w.1 ∧ oneLine w.2) (attributeWrites "aria-label" entries)
  ∧ Forall (λ w, labelTarget (page s) w.1 ∧ w.2 = "true") (attributeWrites fixedMarker entries)
  ∧ noteTargets entries = [].
Proof.
  cbv zeta.
  assert (Hk : Forall (λ te : nat * Event, labelsConfined (page s) te.2)
                 (added s (fixContextLabels s).2)).
  { eapply Forall_impl;
      [ apply (later_added_self (labelsConfined (page s))), (fixContextLabels_confined s s);
        split; [apply later_refl | apply gentle_refl] |].
    cbn. tauto. }
  split; [|split].
  - revert Hk. apply attributeWrites_kind. cbn. intros el value [Hl _]. now apply Hl.
  - revert Hk. apply attributeWrites_kind. cbn. intros el value [_ Hm]. now apply Hm.
  - induction Hk as [|[t e] entries He _ IH]; [reflexivity|].
    cbn. destruct e; cbn in *; try exact IH. destruct He.
Qed.

(** The section summaries mark a heading, and insert a note after it,
    only when it is a heading of the page that did not carry the marker
    when the run started.  The cues of the first revision mark and
    describe such headings only; the description is not empty, is one
    line and has at most 100 characters. *)
Theorem headings_only_where_unmarked (s : State) :
  let summaries := added s (generateCues s).2 in
  let cues := added s (ContentJs.generateCues s).2 in
  Forall (headingTarget summaryMarker (page s)) (noteTargets summaries)
  ∧ Forall (λ w, headingTarget summaryMarker (page s) w.1 ∧ w.2 = "true")
      (attributeWrites summaryMarker summaries)
  ∧ Forall (λ w, headingTarget ContentJs.cueMarker (page s) w.1 ∧ w.2 = "true")
      (attributeWrites ContentJs.cueMarker cues)
  ∧ Forall (λ w, headingTarget ContentJs.cueMarker (page s) w.1
                 ∧ oneLine w.2 ∧ String.length w.2 ≤ 100)
      (attributeWrites "aria-description" cues).
Proof.
  cbv zeta.
  assert (Hs : Forall (λ te : nat * Event, summariesConfined (page s) te.2)
                 (added s (generateCues s).2)).
  { eapply Forall_impl;
      [ apply (later_added_self (summariesConfined (page s))), (generateCues_confined s s);
        split; [apply later_refl | apply gentle_refl] |].
    cbn. tauto. }
  assert (Hc : Forall (λ te : nat * Event, cuesConfined (page s) te.2)
                 (added s (ContentJs.generateCues s).2)).
  { eapply Forall_impl;
      [ apply (later_added_self (cuesConfined (page s))), (contentJs_generateCues_confined s s);
        split; [apply later_refl | apply gentle_refl] |].
    cbn. tauto. }
  split; [|split; [|split]].
  - revert Hs. apply noteTargets_kind. cbn. tauto.
  - revert Hs. apply attributeWrites_kind. cbn. intros el value Hm. now apply Hm.
  - revert Hc. apply attributeWrites_kind. cbn. intros el value [Hm _]. now apply Hm.
  - revert Hc. apply attributeWrites_kind. cbn. intros el value [_ Hd]. now apply Hd.
Qed.

End ConfinedPipelines.

Example writes_on_fixtures :
  map fst (attributeWrites "aria-label"
             (added (freshState controlsPage)
                (@fixContextLabels plainRendering steadyBackends (freshState controlsPage)).2))
  = [4; 5; 6]
  ∧ map (hasLabel controlsPage) (linksAndButtons controlsPage)
    = [false; false; false; false; true]
  ∧ noteTargets
      (added (freshState twoSections)
         (@generateCues plainRendering steadyBackends (freshState twoSections)).2)
    = [2; 4].
Proof. vm_compute. repeat split; reflexivity. Qed.

(** ** The status line of the popup *)

Section StatusLine.
Import Popup.

Lemma hide_hide st : hide (hide st) = hide st.
Proof. reflexivity. Qed.

Lemma schedule_In t q x : In x (schedule t q) ↔ x = t ∨ In x q.
Proof.
  induction q as [|y rest IH]; cbn; [intuition|].
  destruct (fireAt y <=? fireAt t); cbn; [rewrite IH|]; intuition.
Qed.

Lemma schedule_ordered t q : ordered q → ordered (schedule t q).
Proof.
  induction q as [|y rest IH]; cbn; [intros _; split; [constructor | exact I]|].
  intros [Hy Hrest]. destruct (fireAt y <=? fireAt t) eqn:E; cbn.
  - apply Nat.leb_le in E. split; [|now apply IH].
    apply Forall_forall. intros x Hx. apply list_elem_of_In, schedule_In in Hx as [->|Hx]; [exact E|].
    rewrite Forall_forall in Hy. apply Hy, list_elem_of_In, Hx.
  - apply Nat.leb_gt in E. split; [|split; assumption].
    constructor; [lia|]. eapply Forall_impl; [exact Hy|]. cbn. lia.
Qed.

Lemma schedule_onlyHides t q : onFire t = HideStatus → onlyHides q → onlyHides (schedule t q).
Proof.
  intros Ht Hq. apply Forall_forall. intros x Hx.
  apply list_elem_of_In, schedule_In in Hx as [->|Hx]; [exact Ht|].
  unfold onlyHides in Hq. rewrite Forall_forall in Hq. apply Hq, list_elem_of_In, Hx.
Qed.

(** What the timers due by [target] leave, when they only hide the
    status. *)
Lemma fireDue_hides target q p :
  onlyHides q → ordered q → closed p = false → pendingTimers p = q →
  let p' := fireDue target q p in
  closed p' = false
  ∧ events p' = events p
  ∧ clock p ≤ clock p'
  ∧ (clock p ≤ target → clock p' ≤ target)
  ∧ pendingTimers p' = List.filter (λ t, negb (fireAt t <=? target)) q
  ∧ statusElement p'
    = if existsb (λ t, fireAt t <=? target) q then hide <$> statusElement p else statusElement p.
Proof.
  revert p. induction q as [|t rest IH]; intros p Hh Ho Hc Hq; cbn zeta.
  - cbn. repeat split; try assumption; try lia.
  - cbn [fireDue]. rewrite Hc.
    apply Forall_cons in Hh as [Ht Hh]. destruct Ho as [Hle Ho].
    cbn [existsb List.filter]. destruct (fireAt t <=? target) eqn:E; cbn [negb orb].
    + rewrite Ht. cbn [runCallback].
      set (p1 := withStatus _ _).
      destruct (IH p1 Hh Ho Hc eq_refl) as (Hc' & He' & Hk' & Ht' & Hp' & Hs').
      apply Nat.leb_le in E.
      split; [exact Hc'|]. split; [exact He'|].
      split; [etransitivity; [|exact Hk']; cbn; lia|].
      split; [intros Hct; apply Ht'; cbn; lia|].
      split; [exact Hp'|].
      rewrite Hs'. cbn. destruct (existsb _ rest); [|reflexivity].
      now destruct (statusElement p).
    + apply Nat.leb_gt in E.
      assert (Hnone : Forall (λ x, (fireAt x <=? target) = false) rest).
      { eapply Forall_impl; [exact Hle|]. cbn. intros x Hx. apply Nat.leb_gt. lia. }
      split; [exact Hc|]. split; [reflexivity|]. split; [lia|]. split; [tauto|].
      split.
      * rewrite Hq. f_equal. clear -Hnone.
        induction Hnone as [|x l Hx _ IHl]; [reflexivity|].
        cbn. rewrite Hx. cbn. f_equal. exact IHl.
      * clear -Hnone. replace (existsb _ rest) with false; [reflexivity|].
        induction Hnone as [|x l Hx _ IHl]; [reflexivity|]. cbn. now rewrite Hx.
Qed.

Lemma filter_ordered f q : ordered q → ordered (List.filter f q).
Proof.
  induction q as [|t rest IH]; [trivial|]. intros [Hle Ho]. cbn.
  destruct (f t); [|now apply IH]. split; [|now apply IH].
  apply Forall_forall. intros x Hx. apply list_elem_of_In, filter_In in Hx as [Hx _].
  rewrite Forall_forall in Hle. apply Hle, list_elem_of_In, Hx.
Qed.

Lemma filter_onlyHides f q : onlyHides q → onlyHides (List.filter f q).
Proof.
  intros Hq. apply Forall_forall. intros x Hx. apply list_elem_of_In, filter_In in Hx as [Hx _].
  unfold onlyHides in Hq. rewrite Forall_forall in Hq. apply Hq, list_elem_of_In, Hx.
Qed.

(** The popup at rest, some time later. *)
Lemma elapse_atRest ms p :
  atRest p →
  atRest (elapse ms p)
  ∧ events (elapse ms p) = events p
  ∧ clock (elapse ms p) = clock p + ms
  ∧ pendingTimers (elapse ms p)
    = List.filter (λ t, negb (fireAt t <=? clock p + ms)) (pendingTimers p)
  ∧ statusElement (elapse ms p)
    = if existsb (λ t, fireAt t <=? clock p + ms) (pendingTimers p)
      then hide <$> statusElement p else statusElement p.
Proof.
  intros (Hs & Hc & Ho & Hh). unfold elapse. cbn zeta.
  destruct (fireDue_hides (clock p + ms) (pendingTimers p) p Hh Ho Hc eq_refl)
    as (Hc' & He' & Hk' & Ht' & Hp' & Hs').
  cbn zeta in *. rewrite Hc'.
  assert (Hle : clock (fireDue (clock p + ms) (pendingTimers p) p) ≤ clock p + ms)
    by (apply Ht'; lia).
  unfold atRest. cbn [statusElement closed pendingTimers events clock withClock].
  split; [|split; [exact He' | split; [lia | split; [exact Hp' | exact Hs']]]].
  split; [|split; [exact Hc' | split]].
  - rewrite Hs'. destruct (existsb _ _); [|exact Hs]. destruct Hs as [st ->]. cbn. eauto.
  - rewrite Hp'. now apply filter_ordered.
  - rewrite Hp'. now apply filter_onlyHides.
Qed.

Lemma showStatus_atRest message kind p :
  atRest p →
  atRest (showStatus message kind p)
  ∧ statusElement (showStatus message kind p)
    = Some {| statusText := message; shown := true; statusKind := kind |}
  ∧ clock (showStatus message kind p) = clock p
  ∧ pendingTimers (showStatus message kind p)
    = match kind with
      | loading => pendingTimers p
      | _ => schedule {| fireAt := clock p + 5000; onFire := HideStatus |} (pendingTimers p)
      end.
Proof.
  intros ([st Hs] & Hc & Ho & Hh). unfold showStatus. cbn zeta. cbn [statusElement report].
  rewrite Hs.
  destruct kind; cbn; (repeat split; try assumption; try reflexivity; eauto);
    first [now apply schedule_ordered | now apply schedule_onlyHides].
Qed.

(** A status shown less than 5 s after another one is hidden by the
    timer of the earlier one: after 5 s less the time between the two,
    whether or not it is a loading status, which sets no timer of its
    own. *)
Theorem stale_timer_hides_status (p : PopupState) (m1 m2 : string) (k1 k2 : StatusKind)
    (d : nat) :
  atRest p → k1 ≠ loading → d < 5000 →
  let p1 := showStatus m2 k2 (elapse d (showStatus m1 k1 p)) in
  statusElement p1 = Some {| statusText := m2; shown := true; statusKind := k2 |}
  ∧ clock p1 = clock p + d
  ∧ statusElement (elapse (5000 - d) p1)
    = Some {| statusText := m2; shown := false; statusKind := k2 |}.
Proof.
  intros Hrest Hk Hd. cbv zeta.
  destruct (showStatus_atRest m1 k1 p Hrest) as (Hr1 & _ & Hc1 & Hq1).
  destruct (elapse_atRest d _ Hr1) as (Hr2 & _ & Hc2 & Hq2 & _).
  destruct (showStatus_atRest m2 k2 _ Hr2) as (Hr3 & Hs3 & Hc3 & Hq3).
  destruct (elapse_atRest (5000 - d) _ Hr3) as (_ & _ & _ & _ & Hs4).
  split; [exact Hs3|]. split; [rewrite Hc3, Hc2, Hc1; reflexivity|].
  rewrite Hs4, Hs3.
  set (h1 := {| fireAt := clock p + 5000; onFire := HideStatus |}).
  assert (Hin : In h1 (pendingTimers (showStatus m2 k2 (elapse d (showStatus m1 k1 p))))).
  { assert (Hin2 : In h1 (pendingTimers (elapse d (showStatus m1 k1 p)))).
    { rewrite Hq2. apply filter_In. split.
      - rewrite Hq1. destruct k1; try (apply schedule_In; now left). contradiction.
      - rewrite Hc1. cbn. apply negb_true_iff, Nat.leb_gt. lia. }
    rewrite Hq3. destruct k2; try (apply schedule_In; now right). exact Hin2. }
  replace (existsb _ _) with true; [reflexivity|].
  symmetry. apply existsb_exists. exists h1. split; [exact Hin|].
  rewrite Hc3, Hc2, Hc1. cbn. apply Nat.leb_le. lia.
Qed.

End StatusLine.

Lemma stale_timer_hides_status_witness :
  Popup.statusElement
    (Popup.elapse 3000
       (Popup.showStatus "⏳ Generating overview..." Popup.loading
          (Popup.elapse 2000 Popup.opened)))
  = Some {| Popup.statusText := "⏳ Generating overview...";
            Popup.shown := false;
            Popup.statusKind := Popup.loading |}.
Proof.
  destruct (stale_timer_hides_status Popup.blank Popup.welcome "⏳ Generating overview..."
              Popup.success Popup.loading 2000) as (_ & _ & Hhidden).
  - repeat split; [eexists; reflexivity | constructor].
  - discriminate.
  - lia.
  - exact Hhidden.
Defined.

(** ** A click in the popup *)

Section Clicks.
Import Popup.

Lemma events_fireDue target q p : events (fireDue target q p) = events p.
Proof.
  revert p. induction q as [|t rest IH]; intros p; [reflexivity|].
  cbn [fireDue]. destruct (closed p); [reflexivity|].
  destruct (fireAt t <=? target); [|reflexivity].
  rewrite IH. now destruct (onFire t).
Qed.

Lemma events_elapse ms p : events (elapse ms p) = events p.
Proof.
  unfold elapse. cbn zeta. destruct (closed _); [apply events_fireDue|].
  cbn. apply events_fireDue.
Qed.

Lemma events_report e p : events (report e p) = events p ++ [e].
Proof. reflexivity. Qed.

Lemma events_setTimer cb delay p : events (setTimer cb delay p) = events p.
Proof. reflexivity. Qed.

Lemma events_showStatus message kind p :
  events (showStatus message kind p) = events p ++ [StatusReported kind message].
Proof.
  unfold showStatus. cbn zeta. cbn [statusElement report].
  destruct (statusElement p); [|reflexivity]. now destruct kind.
Qed.

Lemma browserCalls_added p p' l :
  events p' = events p ++ l → browserCalls p p' = List.filter isBrowserCall l.
Proof. intros E. unfold browserCalls. now rewrite E, drop_app_length. Qed.

(** Run the flow of a click along each of its paths. *)
Ltac flow_case :=
  match goal with
  | |- context [match ?x with _ => _ end] =>
      lazymatch x with
      | context [match _ with _ => _ end] => fail
      | _ => destruct x eqn:?
      end
  end.

Ltac flow_events :=
  repeat first
    [ rewrite events_showStatus
    | rewrite events_setTimer
    | rewrite events_elapse
    | rewrite events_report ].

(** The calls of a click are an initial part of the planned ones, and
    no error leaves [sendMessageToTab]. *)
Theorem sendMessageToTab_calls (b : Browser) (a : Action) (p : PopupState) :
  let run := sendMessageToTab b a p in
  browserCalls p run.2 `prefix_of` plannedCalls b a
  ∧ (∀ message, run.1 ≠ Threw message).
Proof.
  cbv zeta.
  cbv beta iota delta [sendMessageToTab catch isContentScriptLoaded await pause act leave raise
                       mbind mret Flow_bind Flow_ret].
  repeat (cbv beta iota zeta; cbn [fst snd]; flow_case).
  all: cbv beta iota zeta; cbn [fst snd].
  all: split; [|intros ?; discriminate].
  all: erewrite browserCalls_added by (flow_events; rewrite <- ?app_assoc; reflexivity).
  all: unfold plannedCalls, accessibleTab, answersPong.
  all: repeat match goal with H : _ = _ |- _ => rewrite H end.
  all: cbn; try (eexists; reflexivity).
  all: repeat (flow_case; cbn); eexists; reflexivity.
Qed.

Lemma atRest_open p : atRest p → closed p = false.
Proof. now intros (_ & Hc & _). Qed.

Lemma report_atRest e p : atRest p → atRest (report e p).
Proof. intros H. exact H. Qed.

Lemma elapse_rest ms p : atRest p → atRest (elapse ms p).
Proof. intros H. now apply elapse_atRest. Qed.

Lemma showStatus_rest message kind p : atRest p → atRest (showStatus message kind p).
Proof. intros H. now apply showStatus_atRest. Qed.

Ltac rest_solve :=
  repeat lazymatch goal with
         | |- atRest (elapse _ _) => apply elapse_rest
         | |- atRest (showStatus _ _ _) => apply showStatus_rest
         | |- atRest (report _ _) => apply report_atRest
         | |- atRest _ => assumption
         end.

Lemma accessibleTab_inv b id :
  accessibleTab b = Some id →
  ∃ tab rest u n,
    (queryTabs b).2 = Resolved (tab :: rest)
    ∧ tabId tab = Some (S n) ∧ id = S n
    ∧ tabUrl tab = Some u ∧ internalPage u = false.
Proof.
  unfold accessibleTab. destruct (queryTabs b).2 as [[|tab rest]|] eqn:Eq; try discriminate.
  destruct (tabId tab) as [[|n]|] eqn:Ei; try discriminate.
  destruct (tabUrl tab) as [u|] eqn:Eu; try discriminate.
  destruct (internalPage u) eqn:E; [discriminate|].
  intros [= <-]. exists tab, rest, u, n. repeat split; assumption.
Qed.

(** The ping is answered by [pong] by the later revision of the content
    script only; both revisions know the three actions of the popup. *)
Lemma ping_answer script :
  String.eqb (onMessage script "ping").1 "pong"
  = match script with LaterRevision => true | FirstRevision => false end.
Proof. now destruct script. Qed.

Lemma actions_known script a :
  ∃ pipeline, onMessage script (actionName a) = ("started", Some pipeline).
Proof. destruct script, a; cbn; eauto. Qed.

(** *** One click, step by step *)

Lemma flow_bind {A B} (m : Flow A) (k : A → Flow B) p :
  (m ≫= k) p = match m p with
               | (Went x, p') => k x p'
               | (Threw e, p') => (Threw e, p')
               | (Returned, p') => (Returned, p')
               | (Unloaded, p') => (Unloaded, p')
               end.
Proof. reflexivity. Qed.

Lemma flow_act_bind {B} f (k : unit → Flow B) p : (act f ≫= k) p = k tt (f p).
Proof. reflexivity. Qed.

Lemma await_rest {A} (answer : nat * Outcome A) p :
  atRest p →
  await answer p = (match answer.2 with
                    | Resolved x => Went x
                    | Rejected message => Threw message
                    end, elapse answer.1 p).
Proof.
  intros Hrest. unfold await. cbn zeta.
  rewrite (atRest_open (elapse answer.1 p)) by now apply elapse_rest.
  now destruct answer.2.
Qed.

Lemma pause_rest ms p : atRest p → pause ms p = (Went tt, elapse ms p).
Proof.
  intros Hrest. unfold pause. cbn zeta.
  now rewrite (atRest_open (elapse ms p)) by now apply elapse_rest.
Qed.

Lemma isContentScriptLoaded_rest b id p :
  atRest p →
  isContentScriptLoaded b id p
  = (Went (answersPong b id), elapse (ping b id).1 (report (Pinged id) p)).
Proof.
  intros Hrest. unfold isContentScriptLoaded, catch.
  rewrite flow_act_bind, flow_bind, await_rest by now apply report_atRest.
  unfold answersPong. now destruct (ping b id).2 as [[status|]|].
Qed.

Lemma sendMessageToTab_rest b a p id :
  atRest p → accessibleTab b = Some id →
  (answersPong b id = false → (executeScript b id).2 = Resolved tt) →
  sendMessageToTab b a p
  = (Went tt,
     sent b a id (if answersPong b id then pinged b a id p else injected b id (pinged b a id p))).
Proof.
  intros Hrest Htab Hinject.
  destruct (accessibleTab_inv b id Htab) as (tab & rest & u & n & Hq & Hid & -> & Hu & Hint).
  unfold sendMessageToTab, catch, sent, injected, pinged. cbv zeta.
  rewrite flow_act_bind, flow_bind, await_rest, Hq by rest_solve.
  cbv beta iota. rewrite Hid, Hu. cbv beta iota.
  rewrite flow_bind. cbn [mret Flow_ret]. cbv beta iota. rewrite Hint.
  rewrite flow_act_bind, flow_bind, isContentScriptLoaded_rest by rest_solve.
  cbv beta iota. rewrite flow_bind.
  destruct (answersPong b (S n)) eqn:Epong.
  - cbn [mret Flow_ret]. cbv beta iota.
    rewrite flow_act_bind, flow_bind, await_rest by rest_solve.
    destruct (sendMessage b (S n) a).2; [|reflexivity].
    cbv beta iota. rewrite flow_act_bind. now destruct (keepOpen b).
  - rewrite flow_act_bind, flow_bind, await_rest, (Hinject eq_refl) by rest_solve.
    cbv beta iota. rewrite pause_rest by rest_solve.
    cbv beta iota.
    rewrite flow_act_bind, flow_bind, await_rest by rest_solve.
    destruct (sendMessage b (S n) a).2; [|reflexivity].
    cbv beta iota. rewrite flow_act_bind. now destruct (keepOpen b).
Qed.

Lemma events_pinged b a id p :
  events (pinged b a id p)
  = events p ++ [TabsQueried; StatusReported loading ("⏳ " +:+ getActionLabel a +:+ "...");
                 Pinged id].
Proof. unfold pinged. flow_events. now rewrite <- !app_assoc. Qed.

Lemma events_injected b id p : events (injected b id p) = events p ++ [ScriptInjected id].
Proof. unfold injected. now flow_events. Qed.

Lemma events_sent b a id p :
  ∃ kind message,
    events (sent b a id p) = events p ++ [MessageSent id a; StatusReported kind message].
Proof.
  unfold sent. cbv zeta. destruct (sendMessage b id a).2.
  - exists success, "✅ Processing... Check page for results".
    destruct (keepOpen b); flow_events; now rewrite <- !app_assoc.
  - eexists error, _. flow_events. now rewrite <- !app_assoc.
Qed.

(** A click on an accessible tab, in a popup at rest, when the injection
    succeeds: the popup pings the tab, injects the content script unless
    the listener in the tab answers [pong], and sends the action, which
    the listener knows.  The first revision of the content script has no
    answer to the ping, so the popup injects it again at every click;
    the later revision is not injected again. *)
Theorem click_injects_first_revision (b : Browser) (a : Action) (p : PopupState)
    (script : Script) (id : nat) :
  atRest p →
  accessibleTab b = Some id →
  (ping b id).2 = Resolved (Some (onMessage script "ping").1) →
  (executeScript b id).2 = Resolved tt →
  let run := sendMessageToTab b a p in
  browserCalls p run.2
  = [TabsQueried; Pinged id]
    ++ match script with
       | FirstRevision => [ScriptInjected id]
       | LaterRevision => []
       end
    ++ [MessageSent id a]
  ∧ run.1 = Went tt
  ∧ (onMessage script (actionName a)).1 = "started".
Proof.
  intros Hrest Htab Hping Hinject. cbv zeta.
  rewrite (sendMessageToTab_rest b a p id Hrest Htab (λ _, Hinject)). cbn [fst snd].
  split; [|split; [reflexivity | destruct (actions_known script a) as [pl ->]; reflexivity]].
  assert (Hpong : answersPong b id
                  = match script with LaterRevision => true | FirstRevision => false end).
  { unfold answersPong. rewrite Hping. apply ping_answer. }
  rewrite Hpong.
  destruct (events_sent b a id
              (match script with
               | LaterRevision => pinged b a id p
               | FirstRevision => injected b id (pinged b a id p)
               end)) as (kind & message & Hs).
  destruct script.
  - erewrite browserCalls_added
      by (rewrite Hs, events_injected, events_pinged, <- !app_assoc; reflexivity).
    reflexivity.
  - erewrite browserCalls_added by (rewrite Hs, events_pinged, <- !app_assoc; reflexivity).
    reflexivity.
Qed.

End Clicks.

Lemma click_injects_first_revision_witness :
  Popup.browserCalls Popup.opened
    (Popup.sendMessageToTab (Popup.steadyBrowser Popup.FirstRevision) Popup.GenerateCues
       Popup.opened).2
  = [Popup.TabsQueried; Popup.Pinged 7; Popup.ScriptInjected 7;
     Popup.MessageSent 7 Popup.GenerateCues].
Proof.
  destruct (click_injects_first_revision (Popup.steadyBrowser Popup.FirstRevision)
              Popup.GenerateCues Popup.opened Popup.FirstRevision 7) as [Hcalls _].
  - apply showStatus_rest. repeat split; [eexists; reflexivity | constructor].
  - reflexivity.
  - reflexivity.
  - reflexivity.
  - exact Hcalls.
Defined.

Example clicks_on_fixtures :
  Popup.browserCalls Popup.opened
    (Popup.sendMessageToTab (Popup.steadyBrowser Popup.LaterRevision) Popup.FixLabels
       Popup.opened).2
  = [Popup.TabsQueried; Popup.Pinged 7; Popup.MessageSent 7 Popup.FixLabels]
  ∧ Popup.browserCalls Popup.opened
      (Popup.sendMessageToTab Popup.settingsBrowser Popup.FixLabels Popup.opened).2
    = [Popup.TabsQueried]
  ∧ Popup.plannedCalls Popup.settingsBrowser Popup.FixLabels = [Popup.TabsQueried].
Proof. vm_compute. repeat split; reflexivity. Qed.
